(** * MCSM daemon: the hierarchical file-lock registry

    A shallow embedding of [daemon/src/service/file_lock_service.ts] and of
    the lock-enforcement middleware and the create handlers of
    [daemon/src/routers/file_router.ts], with the properties of the lock
    subsystem proved over it.

    Paths are JavaScript strings; they are modelled as lists of characters,
    of which the code inspects only the slash and the backslash.  The arrays
    [lockedFiles] and [foldersWithLockedContent] are lists, and both config
    fields may be [undefined], which is [None] here.  A function that
    mutates the instance it is handed takes a state and returns its result
    with the state that is left. *)

From Stdlib Require Import Ascii String.
From stdpp Require Import base option list strings gmap.

Set Default Proof Using "Type".

(** ** JavaScript strings and arrays *)

Definition path := list ascii.

(** A string literal as a path. *)
Definition str (s : string) : path := list_ascii_of_string s.

Definition slash : ascii := "/"%char.
Definition backslash : ascii := "\"%char.

Module Js.

(** [s.startsWith(pre)] *)
Fixpoint startsWith (s pre : path) : bool :=
  match pre, s with
  | [], _ => true
  | _ :: _, [] => false
  | c :: pre', d :: s' => if decide (c = d) then startsWith s' pre' else false
  end.

(** [s.substring(n)] *)
Definition substring (n : nat) (s : path) : path := drop n s.

(** [s.split("/")]: the empty string splits into one empty part. *)
Fixpoint split (s : path) : list path :=
  match s with
  | [] => [[]]
  | c :: t =>
      if decide (c = slash) then [] :: split t
      else match split t with
           | p :: ps => (c :: p) :: ps
           | [] => [[c]]
           end
  end.

(** [parts.join("/")] *)
Fixpoint join (parts : list path) : path :=
  match parts with
  | [] => []
  | [p] => p
  | p :: ps => p ++ slash :: join ps
  end.

(** [parts.slice(0, i)] *)
Definition slice0 (i : nat) (parts : list path) : list path := take i parts.

(** [arr.indexOf(x)]: [None] stands for -1. *)
Fixpoint indexOf (x : path) (arr : list path) : option nat :=
  match arr with
  | [] => None
  | y :: arr' => if decide (x = y) then Some 0 else S <$> indexOf x arr'
  end.

(** [arr.includes(x)] *)
Definition includes (x : path) (arr : list path) : bool :=
  bool_decide (x ∈ arr).

(** [arr.splice(i, 1)], the array that is left. *)
Definition splice1 (i : nat) (arr : list path) : list path := delete i arr.

(** [arr.push(x)], the array that results. *)
Definition push (x : path) (arr : list path) : list path := arr ++ [x].

(** A [Set<string>] keeps its members in insertion order;
    [set.add(x)] leaves a set that has [x] as it is. *)
Definition set_add (x : path) (set : list path) : list path :=
  if includes x set then set else set ++ [x].

(** The truth value of a string in a condition: only the empty string is
    falsy. *)
Definition truthy (s : path) : bool :=
  match s with [] => false | _ :: _ => true end.

End Js.

(** ** Path normalisation *)

(** [p.replace(/\\/g, "/")] *)
Definition replace_backslashes (p : path) : path :=
  (λ c, if decide (c = backslash) then slash else c) <$> p.

(** [p.replace(/\/+/g, "/")]: of every run of slashes one is kept. *)
Fixpoint collapse_slashes (p : path) : path :=
  match p with
  | [] => []
  | c :: t =>
      match t with
      | d :: _ =>
          if decide (c = slash ∧ d = slash) then collapse_slashes t
          else c :: collapse_slashes t
      | [] => [c]
      end
  end.

(** [p.replace(/\/$/, "")]: a slash at the very end is dropped. *)
Fixpoint strip_trailing_slash (p : path) : path :=
  match p with
  | [] => []
  | c :: t =>
      match t with
      | [] => if decide (c = slash) then [] else [c]
      | _ :: _ => c :: strip_trailing_slash t
      end
  end.

Definition normalizePath (p : path) : path :=
  strip_trailing_slash (collapse_slashes (replace_backslashes p)).

(** [getParentFolders]: the loop runs [i] from 1 to [parts.length - 1]. *)
Definition getParentFolders (filePath : path) : list path :=
  let normalized := normalizePath filePath in
  let parts := Js.split normalized in
  (λ i, Js.join (Js.slice0 i parts)) <$> seq 1 (length parts - 1).

(** ** Instances and the persistence collaborator *)

(** The two lock fields of an instance's configuration; either may be
    [undefined]. *)
Record InstanceConfig := mkConfig {
  lockedFiles : option (list path);
  foldersWithLockedContent : option (list path)
}.

Record Instance := mkInstance {
  instanceUuid : string;
  config : InstanceConfig
}.

(** One call [StorageSubsystem.store(kind, uuid, config)]. *)
Record StoreCall := mkStoreCall {
  sc_kind : string;
  sc_uuid : string;
  sc_config : InstanceConfig
}.

(** The state the lock service works on: the instance object it is handed,
    which it mutates in place, and the calls made to the storage subsystem,
    oldest first. *)
Record Env := mkEnv {
  instance : Instance;
  storeLog : list StoreCall
}.

Definition setLockedFiles (lf : list path) (σ : Env) : Env :=
  let i := instance σ in
  mkEnv (mkInstance (instanceUuid i)
           (mkConfig (Some lf) (foldersWithLockedContent (config i))))
        (storeLog σ).

Definition setFoldersWithLockedContent (fs : list path) (σ : Env) : Env :=
  let i := instance σ in
  mkEnv (mkInstance (instanceUuid i)
           (mkConfig (lockedFiles (config i)) (Some fs)))
        (storeLog σ).

(** [StorageSubsystem.store("InstanceConfig", instance.instanceUuid, instance.config)] *)
Definition store (σ : Env) : Env :=
  let i := instance σ in
  mkEnv i (storeLog σ ++ [mkStoreCall "InstanceConfig" (instanceUuid i) (config i)]).

(** [instance.config.lockedFiles || []] *)
Definition lockedFilesOrEmpty (i : Instance) : list path :=
  default [] (lockedFiles (config i)).

(** [instance.config.foldersWithLockedContent || []] *)
Definition foldersOrEmpty (i : Instance) : list path :=
  default [] (foldersWithLockedContent (config i)).

(** ** The lock service *)

(** The two nested loops of [updateFoldersWithLockedContent] that fill
    [foldersSet]; [Array.from] lists the set in insertion order. *)
Definition collectFolders (lockedFiles : list path) : list path :=
  foldl (λ foldersSet lockedPath,
           foldl (λ foldersSet parent, Js.set_add parent foldersSet)
                 foldersSet (getParentFolders lockedPath))
        [] lockedFiles.

Definition updateFoldersWithLockedContent (σ : Env) : Env :=
  let lockedFiles := lockedFilesOrEmpty (instance σ) in
  if decide (length lockedFiles = 0) then setFoldersWithLockedContent [] σ
  else setFoldersWithLockedContent (collectFolders lockedFiles) σ.

Fixpoint isPathDirectlyLocked_loop (normalizedTarget : path) (lockedFiles : list path) : bool :=
  match lockedFiles with
  | [] => false
  | lockedPath :: rest =>
      let normalizedLocked := normalizePath lockedPath in
      if decide (normalizedTarget = normalizedLocked) then true
      else isPathDirectlyLocked_loop normalizedTarget rest
  end.

Definition isPathDirectlyLocked (i : Instance) (targetPath : path) : bool :=
  let lockedFiles := lockedFilesOrEmpty i in
  if decide (length lockedFiles = 0) then false
  else isPathDirectlyLocked_loop (normalizePath targetPath) lockedFiles.

Fixpoint isPathLocked_loop (normalizedTarget : path) (lockedFiles : list path) : bool :=
  match lockedFiles with
  | [] => false
  | lockedPath :: rest =>
      let normalizedLocked := normalizePath lockedPath in
      if decide (normalizedTarget = normalizedLocked) then true
      else if Js.startsWith normalizedTarget (normalizedLocked ++ [slash]) then true
      else isPathLocked_loop normalizedTarget rest
  end.

Definition isPathLocked (i : Instance) (targetPath : path) : bool :=
  let lockedFiles := lockedFilesOrEmpty i in
  if decide (length lockedFiles = 0) then false
  else isPathLocked_loop (normalizePath targetPath) lockedFiles.

(** The loop over [foldersWithLockedContent] that sets [hasLockedContent]. *)
Fixpoint hasLockedContent_loop (normalizedTarget : path) (folders : list path) : bool :=
  match folders with
  | [] => false
  | markedFolder :: rest =>
      if decide (markedFolder = normalizedTarget) then true
      else if Js.startsWith markedFolder (normalizedTarget ++ [slash]) then true
      else hasLockedContent_loop normalizedTarget rest
  end.

(** The detailed check: the first registry entry inside the target. *)
Fixpoint containsLockedPath_scan (normalizedTarget : path) (lockedFiles : list path) : option path :=
  match lockedFiles with
  | [] => None
  | lockedPath :: rest =>
      let normalizedLocked := normalizePath lockedPath in
      if Js.startsWith normalizedLocked (normalizedTarget ++ [slash]) then Some lockedPath
      else containsLockedPath_scan normalizedTarget rest
  end.

(** [containsLockedPath]: [None] is [null]. *)
Definition containsLockedPath (i : Instance) (targetPath : path) : option path :=
  let lockedFiles := lockedFilesOrEmpty i in
  if decide (length lockedFiles = 0) then None
  else
    let normalizedTarget := normalizePath targetPath in
    let foldersWithLockedContent := foldersOrEmpty i in
    if bool_decide (0 < length foldersWithLockedContent)
       && negb (hasLockedContent_loop normalizedTarget foldersWithLockedContent)
    then None
    else containsLockedPath_scan normalizedTarget lockedFiles.

Definition isPathOrContentsLocked (i : Instance) (targetPath : path) : option path :=
  if isPathLocked i targetPath then Some targetPath
  else containsLockedPath i targetPath.

(** One round of a loop of the form
    [idx = lockedFiles.indexOf(p); if (idx > -1) { lockedFiles.splice(idx, 1); modified = true }]
    on the loop state [(modified, lockedFiles)]. *)
Definition removeOne (st : bool * list path) (pathToRemove : path) : bool * list path :=
  match Js.indexOf pathToRemove st.2 with
  | Some idx => (true, Js.splice1 idx st.2)
  | None => st
  end.

Definition removeLockForPath (targetPath : path) (σ : Env) : bool * Env :=
  match lockedFiles (config (instance σ)) with
  | None => (false, σ)
  | Some lockedFiles0 =>
      let normalizedTarget := normalizePath targetPath in
      (* Case 1: the target itself is directly locked *)
      let st := removeOne (false, lockedFiles0) normalizedTarget in
      (* Case 2: nested locks *)
      let targetPrefix := normalizedTarget ++ [slash] in
      let pathsToRemove :=
        filter (λ lockedPath, Js.startsWith lockedPath targetPrefix = true) st.2 in
      let st := foldl removeOne st pathsToRemove in
      let σ := setLockedFiles st.2 σ in
      if st.1 then (true, store (updateFoldersWithLockedContent σ))
      else (false, σ)
  end.

Definition copyLockForPath (sourcePath destPath : path) (σ : Env) : bool * Env :=
  match lockedFiles (config (instance σ)) with
  | None => (false, σ)
  | Some lockedFiles0 =>
      let normalizedSource := normalizePath sourcePath in
      let normalizedDest := normalizePath destPath in
      if Js.includes normalizedSource lockedFiles0 then
        if negb (Js.includes normalizedDest lockedFiles0) then
          let σ := setLockedFiles (Js.push normalizedDest lockedFiles0) σ in
          (true, store (updateFoldersWithLockedContent σ))
        else (true, σ)
      else (false, σ)
  end.

(** One round of the loop that applies [updatedPaths], on the loop state
    [(modified, lockedFiles)]. *)
Definition applyUpdate (st : bool * list path) (u : path * path) : bool * list path :=
  let '(oldPath, newPath) := u in
  match Js.indexOf oldPath st.2 with
  | Some idx =>
      let lf := Js.splice1 idx st.2 in
      (true, if Js.includes newPath lf then lf else Js.push newPath lf)
  | None => st
  end.

(** The first case of [moveLockForPath], on [(modified, lockedFiles)]:
    a directly locked source is taken out and the destination is pushed
    unless the array has it. *)
Definition moveCase1 (normalizedSource normalizedDest : path)
    (lockedFiles : list path) : bool * list path :=
  match Js.indexOf normalizedSource lockedFiles with
  | Some sourceIndex =>
      let lf := Js.splice1 sourceIndex lockedFiles in
      (true, if Js.includes normalizedDest lf then lf
             else Js.push normalizedDest lf)
  | None => (false, lockedFiles)
  end.

(** The loop of [moveLockForPath] that fills [updatedPaths] with the pairs
    [{ oldPath, newPath }]. *)
Definition collectUpdatedPaths (sourcePrefix normalizedDest : path)
    (lockedFiles : list path) : list (path * path) :=
  omap (λ lockedPath,
          if Js.startsWith lockedPath sourcePrefix then
            let relativePath := Js.substring (length sourcePrefix) lockedPath in
            let newPath := normalizedDest ++ [slash] ++ relativePath in
            Some (lockedPath, newPath)
          else None) lockedFiles.

Definition moveLockForPath (sourcePath destPath : path) (σ : Env) : bool * Env :=
  match lockedFiles (config (instance σ)) with
  | None => (false, σ)
  | Some lockedFiles0 =>
      let normalizedSource := normalizePath sourcePath in
      let normalizedDest := normalizePath destPath in
      (* Case 1: the source itself is directly locked *)
      let st := moveCase1 normalizedSource normalizedDest lockedFiles0 in
      (* Case 2: nested locks are re-rooted *)
      let sourcePrefix := normalizedSource ++ [slash] in
      let updatedPaths := collectUpdatedPaths sourcePrefix normalizedDest st.2 in
      let st := foldl applyUpdate st updatedPaths in
      let σ := setLockedFiles st.2 σ in
      if st.1 then (true, store (updateFoldersWithLockedContent σ))
      else (false, σ)
  end.

Definition addLock (targetPath : path) (σ : Env) : bool * Env :=
  let normalizedTarget := normalizePath targetPath in
  let lockedFiles0 := lockedFilesOrEmpty (instance σ) in
  (* an undefined lockedFiles is initialised to the empty array *)
  let σ := setLockedFiles lockedFiles0 σ in
  if Js.includes normalizedTarget lockedFiles0 then (false, σ)
  else
    let σ := setLockedFiles (Js.push normalizedTarget lockedFiles0) σ in
    (true, store (updateFoldersWithLockedContent σ)).

Definition removeLock (targetPath : path) (σ : Env) : bool * Env :=
  let normalizedTarget := normalizePath targetPath in
  match lockedFiles (config (instance σ)) with
  | None => (false, setLockedFiles [] σ)
  | Some lockedFiles0 =>
      match Js.indexOf normalizedTarget lockedFiles0 with
      | None => (false, σ)
      | Some index =>
          let σ := setLockedFiles (Js.splice1 index lockedFiles0) σ in
          (true, store (updateFoldersWithLockedContent σ))
      end
  end.

Record LockStatus := mkLockStatus {
  hasLocked : bool;
  lockedPaths : list path
}.

(** A value of type [string | null] in a condition: [null] and the empty
    string are falsy. *)
Definition truthyResult (r : option path) : bool :=
  match r with
  | Some s => Js.truthy s
  | None => false
  end.

(** One round of the loop of [checkLockStatus] on [lockedPaths]. *)
Definition checkOne (i : Instance) (checkContents : bool)
    (lockedPaths : list path) (target : path) : list path :=
  if checkContents then
    match isPathOrContentsLocked i target with
    | Some lockedPath =>
        if Js.truthy lockedPath then Js.push lockedPath lockedPaths else lockedPaths
    | None => lockedPaths
    end
  else
    if isPathLocked i target then Js.push target lockedPaths else lockedPaths.

Definition checkLockStatus (i : Instance) (targets : list path) (checkContents : bool)
    : LockStatus :=
  let lockedPaths := foldl (checkOne i checkContents) [] targets in
  mkLockStatus (bool_decide (0 < length lockedPaths)) lockedPaths.

(** ** The lock-enforcement middleware *)

(** The fields of a request payload that the middlewares and the handlers
    read.  [data.targets] is typed by the event that carries it:
    [string[]] for delete and compress, [[source, destination]] pairs for
    copy and move. *)
Record Data := mkData {
  d_isAdmin : option bool;
  d_instanceUuid : option string;
  d_target : option path;
  d_targets : option (list path);
  d_targetPairs : option (list (path * path))
}.

Record FileLockCheckConfig := mkCheckConfig {
  event : string;
  getTargets : Data → list path;
  checkContents : option bool;
  adminOnly : option bool
}.

Definition FILE_LOCK_CHECK_CONFIGS : list FileLockCheckConfig :=
  [ mkCheckConfig "file/list"
      (λ data, match d_target data with
               | Some target =>
                   if negb (Js.truthy target)
                      || bool_decide (target = str "/")
                      || bool_decide (target = str ".")
                   then [] else [target]
               | None => []
               end)
      (Some false) None;
    mkCheckConfig "file/edit"
      (λ data, match d_target data with
               | Some target => if Js.truthy target then [target] else []
               | None => []
               end)
      (Some true) None;
    mkCheckConfig "file/chmod"
      (λ data, match d_target data with
               | Some target => if Js.truthy target then [target] else []
               | None => []
               end)
      (Some true) None;
    mkCheckConfig "file/copy"
      (λ data, match d_targetPairs data with
               | Some targets => (λ t, t.1) <$> targets
               | None => []
               end)
      (Some true) None;
    mkCheckConfig "file/move"
      (λ data, match d_targetPairs data with
               | Some targets => (λ t, t.1) <$> targets
               | None => []
               end)
      (Some true) None;
    mkCheckConfig "file/delete"
      (λ data, default [] (d_targets data))
      (Some true) None;
    mkCheckConfig "file/compress"
      (λ data, default [] (d_targets data))
      (Some true) None ].

Definition findConfig (ev : string) : option FileLockCheckConfig :=
  List.find (λ config, String.eqb (event config) ev) FILE_LOCK_CHECK_CONFIGS.

(** The loop of [checkTargetsLocked] over the targets of an instance that
    exists; [if (lockedPath)] tests the truth value of a [string | null]. *)
Fixpoint checkTargetsLocked_loop (i : Instance) (checkContents : bool)
    (targets : list path) : option path :=
  match targets with
  | [] => None
  | target :: rest =>
      if checkContents then
        let lockedPath := isPathOrContentsLocked i target in
        if truthyResult lockedPath then lockedPath
        else checkTargetsLocked_loop i checkContents rest
      else
        if isPathLocked i target then Some target
        else checkTargetsLocked_loop i checkContents rest
  end.

(** A packet sent back on the socket of the request. *)
Inductive Packet :=
  | ProtocolError (ev : string) (err : string)
  | ProtocolResponse
  | ProtocolResponseError (reason : string).

(** The daemon as the router sees it: the instances held by
    [InstanceSubsystem], the identifiers of those whose status is busy or
    starting, the calls made to [StorageSubsystem], and the packets sent so
    far, oldest first. *)
Record Daemon := mkDaemon {
  instances : gmap string Instance;
  busy : list string;
  storage : list StoreCall;
  sent : list Packet
}.

Definition getInstance (d : Daemon) (instanceUuid : string) : option Instance :=
  instances d !! instanceUuid.

Definition send (p : Packet) (d : Daemon) : Daemon :=
  mkDaemon (instances d) (busy d) (storage d) (sent d ++ [p]).

Definition checkTargetsLocked (d : Daemon) (instanceUuid : string)
    (targets : list path) (checkContents : bool) : option path :=
  match getInstance d instanceUuid with
  | None => None
  | Some i => checkTargetsLocked_loop i checkContents targets
  end.

(** [fileLockMiddleware(event, ctx, data, next)]: [next] is the rest of the
    chain, which ends in the handler of the event. *)
Definition fileLockMiddleware (ev : string) (data : Data)
    (next : Daemon → Daemon) (d : Daemon) : Daemon :=
  if negb (String.prefix "file/" ev) then next d
  else
    match findConfig ev with
    | None => next d
    | Some config =>
        if bool_decide (adminOnly config = Some true) then next d
        else if bool_decide (d_isAdmin data = Some true) then next d
        else
          match d_instanceUuid data with
          | None => next d
          | Some instanceUuid =>
              if bool_decide (instanceUuid = EmptyString) then next d
              else
                let targets := getTargets config data in
                if bool_decide (length targets = 0) then next d
                else
                  let lockedPath :=
                    checkTargetsLocked d instanceUuid targets
                      (negb (bool_decide (checkContents config = Some false))) in
                  if truthyResult lockedPath then
                    send (ProtocolError ev "TXT_CODE_file_locked_error") d
                  else next d
          end
    end.

(** ** The handlers and the file router *)

(** The file manager is outside the lock subsystem: what counts here is
    only whether a call returns or throws. *)
Record FileManager := mkFileManager {
  newFile_returns : string → option path → bool;
  mkdir_returns : string → option path → bool;
  delete_returns : string → path → bool
}.

(** Writes the instance object mutated by the lock service back and
    appends the storage calls it made. *)
Definition commit (uuid : string) (σ : Env) (d : Daemon) : Daemon :=
  mkDaemon (<[uuid := instance σ]> (instances d)) (busy d) (storeLog σ) (sent d).

(** The body shared by the handlers of [file/touch] and [file/mkdir]:
    [create_returns] is the file manager call of the handler.  Any throw
    is caught and answered with [protocol.responseError]. *)
Definition createHandler (create_returns : string → option path → bool)
    (data : Data) (d : Daemon) : Daemon :=
  match d_instanceUuid data ≫= getInstance d with
  | None => send (ProtocolResponseError "TXT_CODE_3bfb9e04") d
  | Some i =>
      let uuid := default EmptyString (d_instanceUuid data) in
      if create_returns uuid (d_target data) then
        let σ := mkEnv i (storage d) in
        match d_target data with
        | Some target =>
            let '(_, σ) := removeLockForPath target σ in
            send ProtocolResponse (commit uuid σ d)
        | None =>
            (* [normalizePath(undefined)] throws once [lockedFiles] is set *)
            match lockedFiles (config i) with
            | None => send ProtocolResponse d
            | Some _ => send (ProtocolResponseError "TypeError") d
            end
        end
      else send (ProtocolResponseError "file manager") d
  end.

Definition touchHandler (fm : FileManager) : Data → Daemon → Daemon :=
  createHandler (newFile_returns fm).

Definition mkdirHandler (fm : FileManager) : Data → Daemon → Daemon :=
  createHandler (mkdir_returns fm).

(** The loop of the [file/delete] handler.  In a round the external calls
    ([toAbsolutePath], the upload manager, [fileManager.delete]) return
    before the lock of the target is cleared; a throw ends the loop, and
    the first component is then [false]. *)
Fixpoint deleteLoop (round_returns : path → bool) (targets : list path)
    (σ : Env) : bool * Env :=
  match targets with
  | [] => (true, σ)
  | target :: rest =>
      if round_returns target then
        deleteLoop round_returns rest (removeLockForPath target σ).2
      else (false, σ)
  end.

Definition deleteHandler (fm : FileManager) (data : Data) (d : Daemon) : Daemon :=
  match d_instanceUuid data ≫= getInstance d with
  | None => send (ProtocolResponseError "TXT_CODE_3bfb9e04") d
  | Some i =>
      let uuid := default EmptyString (d_instanceUuid data) in
      match d_targets data with
      | None => send (ProtocolResponseError "TypeError") d
      | Some targets =>
          let '(completed, σ) :=
            deleteLoop (delete_returns fm uuid) targets (mkEnv i (storage d)) in
          send (if completed then ProtocolResponse
                else ProtocolResponseError "file manager")
               (commit uuid σ d)
      end
  end.

(** The first middleware of the file router: the instance must exist, and
    while it is busy or starting only [file/list] and [file/status] pass. *)
Definition fileRouterMiddleware (ev : string) (data : Data)
    (next : Daemon → Daemon) (d : Daemon) : Daemon :=
  if String.prefix "file/" ev then
    match d_instanceUuid data ≫= getInstance d with
    | None => send (ProtocolError ev "TXT_CODE_file_router.instanceNotExist") d
    | Some i =>
        if bool_decide (default EmptyString (d_instanceUuid data) ∈ busy d)
           && negb (bool_decide (ev ∈ ["file/list"; "file/status"]))
        then send (ProtocolError ev "TXT_CODE_bbedcf29") d
        else next d
    end
  else next d.

(** A request as the router serves it: the two middlewares, then the
    handler of the event. *)
Definition serve (ev : string) (handler : Data → Daemon → Daemon) (data : Data)
    : Daemon → Daemon :=
  fileRouterMiddleware ev data (fileLockMiddleware ev data (handler data)).

Definition serveTouch (fm : FileManager) : Data → Daemon → Daemon :=
  serve "file/touch" (touchHandler fm).

Definition serveMkdir (fm : FileManager) : Data → Daemon → Daemon :=
  serve "file/mkdir" (mkdirHandler fm).

Definition serveDelete (fm : FileManager) : Data → Daemon → Daemon :=
  serve "file/delete" (deleteHandler fm).

(** ** Runs of lock-mutating operations *)

Inductive LockOp :=
  | OpAddLock (targetPath : path)
  | OpRemoveLock (targetPath : path)
  | OpRemoveLockForPath (targetPath : path)
  | OpCopyLockForPath (sourcePath destPath : path)
  | OpMoveLockForPath (sourcePath destPath : path).

Definition runOp (op : LockOp) (σ : Env) : bool * Env :=
  match op with
  | OpAddLock p => addLock p σ
  | OpRemoveLock p => removeLock p σ
  | OpRemoveLockForPath p => removeLockForPath p σ
  | OpCopyLockForPath s t => copyLockForPath s t σ
  | OpMoveLockForPath s t => moveLockForPath s t σ
  end.

Definition runOps (ops : list LockOp) (σ : Env) : Env :=
  foldl (λ σ op, (runOp op σ).2) σ ops.

(** ** The data model of the specification *)

(** A locked path is a path in canonical form. *)
Definition LockedPath (p : path) : Prop := normalizePath p = p.

(** [q] is a proper ancestor of [e]: [q + "/"] is a prefix of [e]. *)
Definition ancestorOf (q e : path) : Prop := (q ++ [slash]) `prefix_of` e.

#[global] Instance ancestorOf_dec (q e : path) : Decision (ancestorOf q e) :=
  decide ((q ++ [slash]) `prefix_of` e).

(** The registry holds canonical paths, each once. *)
Definition RegistryWf (i : Instance) : Prop :=
  Forall LockedPath (lockedFilesOrEmpty i) ∧ NoDup (lockedFilesOrEmpty i).

(** The ancestor index holds exactly the proper ancestors of the registry's
    entries, an entry being read in canonical form as [getParentFolders]
    reads it; in a registry of locked paths that is the entry itself. *)
Definition IndexIsClosure (i : Instance) : Prop :=
  ∀ q, q ∈ foldersOrEmpty i
       ↔ ∃ e, e ∈ lockedFilesOrEmpty i ∧ ancestorOf q (normalizePath e).

Definition Invariant (i : Instance) : Prop :=
  RegistryWf i ∧ IndexIsClosure i.

(** The invariant as the specification words it, on a state: the registry
    holds only normalized, deduplicated entries, and the ancestor index is
    exactly the set of the proper ancestors of the registry's entries. *)
Definition invariantHolds (i : Instance) : Prop :=
  Forall LockedPath (lockedFilesOrEmpty i)
  ∧ NoDup (lockedFilesOrEmpty i)
  ∧ ∀ q, q ∈ foldersOrEmpty i ↔ ∃ e, e ∈ lockedFilesOrEmpty i ∧ ancestorOf q e.

(** An instance that has never held a lock: both fields are [undefined]. *)
Definition freshInstance (uuid : string) : Instance :=
  mkInstance uuid (mkConfig None None).

(** The scan of the registry as the specification words it: the first entry
    that is a strict descendant of the path, an entry being read in
    canonical form; no index is consulted. *)
Definition plainScan (i : Instance) (targetPath : path) : option path :=
  head (filter (λ L, ancestorOf (normalizePath targetPath) (normalizePath L))
               (lockedFilesOrEmpty i)).

(** [addLock] followed by [removeLock] on the same path. *)
Definition addThenRemove (targetPath : path) (σ : Env) : Env :=
  (removeLock targetPath (addLock targetPath σ).2).2.

(** Neither path is the other or lies under the other. *)
Definition unrelated (S D : path) : Prop :=
  ¬ (S ++ [slash]) `prefix_of` (D ++ [slash]) ∧
  ¬ (D ++ [slash]) `prefix_of` (S ++ [slash]).

(** The canonical form by its characters: no backslash, no two slashes in
    a row, no slash at the end. *)
Fixpoint noDoubleSlash (p : path) : Prop :=
  match p with
  | [] => True
  | c :: t => (c = slash → head t ≠ Some slash) ∧ noDoubleSlash t
  end.

Definition canonical (p : path) : Prop :=
  (backslash ∉ p) ∧ noDoubleSlash p ∧ last p ≠ Some slash.

(** The registry and the ancestor index of the instance in a state. *)
Definition registryOf (σ : Env) : list path := lockedFilesOrEmpty (instance σ).
Definition foldersOf (σ : Env) : list path := foldersOrEmpty (instance σ).

(** The array without the first occurrence of [x]. *)
Fixpoint removeFirst (x : path) (l : list path) : list path :=
  match l with
  | [] => []
  | y :: l' => if decide (x = y) then l' else y :: removeFirst x l'
  end.

(** Where a move puts an entry found under the source. *)
Definition rebase (S D e : path) : path :=
  D ++ [slash] ++ drop (length (S ++ [slash])) e.

(** The relabelling a move asks for: the source becomes the destination and
    an entry under the source moves under the destination. *)
Definition relabel (S D e : path) : path :=
  if decide (e = S) then D
  else if Js.startsWith e (S ++ [slash]) then rebase S D e
  else e.

(** The operations the enforcement middleware governs. *)
Definition governedEvents : list string :=
  ["file/list"; "file/edit"; "file/chmod"; "file/copy"; "file/move";
   "file/delete"; "file/compress"].

(** A candidate path is locked under the check mode of an operation:
    [isPathOrContentsLocked] finds a path, or, with the content check off,
    [isPathLocked] holds. *)
Definition lockedUnder (checkContents : bool) (i : Instance) (target : path) : Prop :=
  if checkContents then is_Some (isPathOrContentsLocked i target)
  else isPathLocked i target = true.

(** What [removeLockForPath] leaves of a registry. *)
Definition clearPath (R : list path) (target : path) : list path :=
  filter (λ e, ¬ ancestorOf (normalizePath target) e)
         (removeFirst (normalizePath target) R).

(** ** The handlers of lock, unlock, copy and move *)

(** The handler of [file/lock].  A missing [target] makes
    [normalizePath] throw, which is answered with [responseError].  The
    payload of the response, [{ locked, lockedFiles }], is read from the
    instance as the handler leaves it and is not kept in the packet. *)
Definition lockHandler (data : Data) (d : Daemon) : Daemon :=
  match d_instanceUuid data ≫= getInstance d with
  | None => send (ProtocolResponseError "TXT_CODE_3bfb9e04") d
  | Some i =>
      let uuid := default EmptyString (d_instanceUuid data) in
      match d_target data with
      | None => send (ProtocolResponseError "TypeError") d
      | Some target =>
          let '(_, σ) := addLock target (mkEnv i (storage d)) in
          send ProtocolResponse (commit uuid σ d)
      end
  end.

(** The handler of [file/unlock]. *)
Definition unlockHandler (data : Data) (d : Daemon) : Daemon :=
  match d_instanceUuid data ≫= getInstance d with
  | None => send (ProtocolResponseError "TXT_CODE_3bfb9e04") d
  | Some i =>
      let uuid := default EmptyString (d_instanceUuid data) in
      match d_target data with
      | None => send (ProtocolResponseError "TypeError") d
      | Some target =>
          let '(_, σ) := removeLock target (mkEnv i (storage d)) in
          send ProtocolResponse (commit uuid σ d)
      end
  end.

(** The loop shared by the handlers of [file/copy] and [file/move]: in a
    round the file manager call on [target[0]] and [target[1]] returns
    before the lock is propagated; a throw ends the loop, and the first
    component is then [false]. *)
Fixpoint pairLoop (round_returns : path → path → bool)
    (propagate : path → path → Env → bool * Env)
    (targets : list (path * path)) (σ : Env) : bool * Env :=
  match targets with
  | [] => (true, σ)
  | target :: rest =>
      if round_returns target.1 target.2 then
        pairLoop round_returns propagate rest (propagate target.1 target.2 σ).2
      else (false, σ)
  end.

Definition pairHandler (call_returns : string → path → path → bool)
    (propagate : path → path → Env → bool * Env)
    (data : Data) (d : Daemon) : Daemon :=
  match d_instanceUuid data ≫= getInstance d with
  | None => send (ProtocolResponseError "TXT_CODE_3bfb9e04") d
  | Some i =>
      let uuid := default EmptyString (d_instanceUuid data) in
      match d_targetPairs data with
      | None => send (ProtocolResponseError "TypeError") d
      | Some targets =>
          let '(completed, σ) :=
            pairLoop (call_returns uuid) propagate targets (mkEnv i (storage d)) in
          send (if completed then ProtocolResponse
                else ProtocolResponseError "file manager")
               (commit uuid σ d)
      end
  end.

(** [copy_returns] stands for [fileManager.copy], [move_returns] for
    [fileManager.move]. *)
Definition copyHandler (copy_returns : string → path → path → bool)
    : Data → Daemon → Daemon :=
  pairHandler copy_returns copyLockForPath.

Definition moveHandler (move_returns : string → path → path → bool)
    : Data → Daemon → Daemon :=
  pairHandler move_returns moveLockForPath.

(** The lock state of an instance of the daemon: registry and index. *)
Definition lockStateOf (d : Daemon) (uuid : string) : option (list path * list path) :=
  (λ i, (lockedFilesOrEmpty i, foldersOrEmpty i)) <$> getInstance d uuid.

(** ** Examples *)

Example normalizePath_ex1 : normalizePath (str "a\b/") = str "a/b".
Proof. reflexivity. Qed.
Example normalizePath_ex2 : normalizePath (str "a//b\\c") = str "a/b/c".
Proof. reflexivity. Qed.
Example normalizePath_ex3 : normalizePath (str "/") = str "".
Proof. reflexivity. Qed.
Example getParentFolders_ex1 :
  getParentFolders (str "a/b/c/file.txt") = [str "a"; str "a/b"; str "a/b/c"].
Proof. reflexivity. Qed.
Example getParentFolders_ex2 :
  getParentFolders (str "/a/b") = [str ""; str "/a"].
Proof. reflexivity. Qed.


(** ** JavaScript strings and arrays: basic facts *)

Section js_facts.
Implicit Types (s p q r : path) (l : list path).

Lemma startsWith_prefix s pre : Js.startsWith s pre = true ↔ pre `prefix_of` s.
Proof.
  revert s. induction pre as [|c pre IH]; intros [|d s]; simpl.
  - split; [intros _; apply prefix_nil | done].
  - split; [intros _; apply prefix_nil | done].
  - split; [done | intros H; by apply prefix_nil_not in H].
  - case_decide as Hcd.
    + subst d. rewrite IH. split; [apply prefix_cons | apply prefix_cons_inv_2].
    + split; [done | intros H; apply prefix_cons_inv_1 in H; done].
Qed.

Lemma startsWith_false s pre : Js.startsWith s pre = false ↔ ¬ pre `prefix_of` s.
Proof. rewrite <-startsWith_prefix. by destruct (Js.startsWith s pre). Qed.

Lemma includes_true x l : Js.includes x l = true ↔ x ∈ l.
Proof. unfold Js.includes. apply bool_decide_eq_true. Qed.

Lemma includes_false x l : Js.includes x l = false ↔ x ∉ l.
Proof. unfold Js.includes. apply bool_decide_eq_false. Qed.

Lemma indexOf_None x l : Js.indexOf x l = None ↔ x ∉ l.
Proof.
  induction l as [|y l IH]; simpl.
  - split; [intros _; apply not_elem_of_nil | done].
  - case_decide as Hxy.
    + subst. split; [done | intros H; exfalso; apply H; left].
    + rewrite fmap_None, IH, not_elem_of_cons. tauto.
Qed.

(** A successful [indexOf] finds the first occurrence, and the [splice]
    at that index takes exactly it out. *)
Lemma indexOf_Some x l i :
  Js.indexOf x l = Some i →
  ∃ l1 l2, l = l1 ++ x :: l2 ∧ (x ∉ l1) ∧ i = length l1 ∧ Js.splice1 i l = l1 ++ l2.
Proof.
  revert i. induction l as [|y l IH]; intros i; simpl; [done|].
  case_decide as Hxy.
  - intros [= <-]. subst y. exists (@nil path), l.
    split_and!; try done. apply not_elem_of_nil.
  - intros Hi. apply fmap_Some in Hi as (j & Hj & ->).
    destruct (IH _ Hj) as (l1 & l2 & -> & Hnin & -> & Hsp).
    exists (y :: l1), l2. split_and!; try done.
    + apply not_elem_of_cons. done.
    + unfold Js.splice1 in *. cbn. f_equal. exact Hsp.
Qed.

Lemma indexOf_is_Some x l : x ∈ l → is_Some (Js.indexOf x l).
Proof.
  intros Hin. destruct (Js.indexOf x l) eqn:E; [by eexists|].
  apply indexOf_None in E. done.
Qed.

Lemma indexOf_app_fresh x l1 l2 :
  x ∉ l1 → Js.indexOf x (l1 ++ x :: l2) = Some (length l1).
Proof.
  induction l1 as [|y l1 IH]; intros Hnin; simpl.
  - by rewrite decide_True.
  - apply not_elem_of_cons in Hnin as [Hne Hnin].
    rewrite decide_False by done. by rewrite IH.
Qed.

Lemma splice1_app_length l1 x l2 : Js.splice1 (length l1) (l1 ++ x :: l2) = l1 ++ l2.
Proof.
  unfold Js.splice1. induction l1 as [|y l1 IH]; [done|]. cbn. f_equal. exact IH.
Qed.

Lemma truthy_true s : Js.truthy s = true ↔ s ≠ [].
Proof. by destruct s. Qed.

End js_facts.

(** ** Path normalisation: the canonical form *)

Section normalize_facts.
Implicit Types (p q r : path) (c : ascii).

Lemma replace_backslashes_free p : backslash ∉ replace_backslashes p.
Proof.
  unfold replace_backslashes. intros Hin.
  apply list_elem_of_fmap in Hin as (c & Hc & _).
  case_decide; [discriminate | congruence].
Qed.

Lemma replace_backslashes_id p : backslash ∉ p → replace_backslashes p = p.
Proof.
  unfold replace_backslashes. induction p as [|c p IH]; [done|].
  intros Hnin. apply not_elem_of_cons in Hnin as [Hne Hnin].
  cbn. rewrite decide_False by congruence. f_equal. by apply IH.
Qed.

Lemma collapse_slashes_elem c p : c ∈ collapse_slashes p → c ∈ p.
Proof.
  induction p as [|d p IH]; [done|]. cbn [collapse_slashes].
  destruct p as [|e p]; [done|].
  case_decide.
  - intros Hin. right. by apply IH.
  - intros Hin. apply elem_of_cons in Hin as [->|Hin]; [left | right; by apply IH].
Qed.

Lemma collapse_slashes_head d p :
  head (collapse_slashes (d :: p)) = Some d.
Proof.
  revert d. induction p as [|e p IH]; intros d; [done|].
  cbn [collapse_slashes]. case_decide as Hd; [|done].
  destruct Hd as [-> ->]. apply IH.
Qed.

Lemma collapse_slashes_noDouble p : noDoubleSlash (collapse_slashes p).
Proof.
  induction p as [|d p IH]; [done|]. cbn [collapse_slashes].
  destruct p as [|e p]; [cbn; done|].
  case_decide as Hd; [done|].
  cbn [noDoubleSlash]. split; [|done].
  intros ->. rewrite collapse_slashes_head. intros [= ->]. by apply Hd.
Qed.

Lemma collapse_slashes_id p : noDoubleSlash p → collapse_slashes p = p.
Proof.
  induction p as [|d p IH]; [done|]. cbn [collapse_slashes noDoubleSlash].
  intros [Hd Hp]. destruct p as [|e p]; [done|].
  rewrite decide_False; [f_equal; by apply IH|].
  intros [-> ->]. by apply Hd.
Qed.

Lemma noDoubleSlash_app p q :
  noDoubleSlash (p ++ q) ↔
  noDoubleSlash p ∧ noDoubleSlash q ∧ (last p = Some slash → head q ≠ Some slash).
Proof.
  induction p as [|c p IH]; cbn [noDoubleSlash app].
  - cbn. intuition congruence.
  - rewrite IH. clear IH. destruct p as [|d p].
    + cbn. intuition (simplify_eq; eauto).
    + cbn [app head last]. change (last (c :: d :: p)) with (last (d :: p)).
      intuition (simplify_eq; eauto).
Qed.

Lemma strip_trailing_slash_spec p :
  (∃ l, p = l ++ [slash] ∧ strip_trailing_slash p = l) ∨
  (last p ≠ Some slash ∧ strip_trailing_slash p = p).
Proof.
  induction p as [|c p IH]; [by right|].
  destruct p as [|d p].
  - cbn. case_decide as Hc.
    + subst c. left. by exists [].
    + right. split; [|done]. cbn. congruence.
  - change (strip_trailing_slash (c :: d :: p))
      with (c :: strip_trailing_slash (d :: p)).
    destruct IH as [(l & Hl & Hs) | [Hl Hs]].
    + left. exists (c :: l). rewrite Hs, Hl. done.
    + right. rewrite Hs. done.
Qed.

Lemma normalizePath_canonical p : canonical (normalizePath p).
Proof.
  unfold normalizePath.
  pose proof (replace_backslashes_free p) as Hb.
  pose proof (collapse_slashes_noDouble (replace_backslashes p)) as Hd.
  assert (backslash ∉ collapse_slashes (replace_backslashes p)) as Hb'.
  { intros Hin. by apply collapse_slashes_elem in Hin. }
  destruct (strip_trailing_slash_spec (collapse_slashes (replace_backslashes p)))
    as [(l & Hl & ->) | [Hl ->]].
  - rewrite Hl in Hd, Hb'. apply noDoubleSlash_app in Hd as (Hd1 & _ & Hd3).
    split_and!; [|done|].
    + intros Hin. apply Hb'. apply elem_of_app. by left.
    + intros Hlast. by apply Hd3.
  - done.
Qed.

Lemma canonical_normalizePath p : canonical p → normalizePath p = p.
Proof.
  intros (Hb & Hd & Hl). unfold normalizePath.
  rewrite replace_backslashes_id, collapse_slashes_id by done.
  destruct (strip_trailing_slash_spec p) as [(l & -> & _) | [_ ->]]; [|done].
  exfalso. apply Hl. by rewrite last_snoc.
Qed.

Lemma LockedPath_canonical p : LockedPath p ↔ canonical p.
Proof.
  unfold LockedPath. split.
  - intros <-. apply normalizePath_canonical.
  - apply canonical_normalizePath.
Qed.

Lemma normalizePath_idemp p : normalizePath (normalizePath p) = normalizePath p.
Proof. apply canonical_normalizePath, normalizePath_canonical. Qed.

Lemma LockedPath_normalizePath p : LockedPath (normalizePath p).
Proof. apply normalizePath_idemp. Qed.

(** An entry under one folder, moved under another canonical path, is
    canonical again. *)
Lemma LockedPath_rebase a b r :
  LockedPath (a ++ slash :: r) → LockedPath b → LockedPath (b ++ slash :: r).
Proof.
  rewrite !LockedPath_canonical. intros (Hb1 & Hd1 & Hl1) (Hb2 & Hd2 & Hl2).
  apply noDoubleSlash_app in Hd1 as (_ & Hd1 & _).
  split_and!.
  - intros Hin. apply elem_of_app in Hin as [Hin|Hin]; [done|].
    apply Hb1. apply elem_of_app. by right.
  - apply noDoubleSlash_app. done.
  - rewrite last_app_cons in Hl1. by rewrite last_app_cons.
Qed.

End normalize_facts.

(** ** Parent folders and the ancestor index *)

Section parents_facts.
Implicit Types (p q r : path) (l : list path).

Lemma split_nonempty p : Js.split p ≠ [].
Proof.
  destruct p as [|c p]; [done|]. cbn. case_decide; [done|].
  by destruct (Js.split p).
Qed.

Lemma split_length_pos p : 0 < length (Js.split p).
Proof. pose proof (split_nonempty p). destruct (Js.split p); [done | cbn; lia]. Qed.

Lemma join_split p : Js.join (Js.split p) = p.
Proof.
  induction p as [|c p IH]; [done|]. cbn [Js.split].
  pose proof (split_nonempty p) as Hne.
  case_decide as Hc.
  - subst c. destruct (Js.split p) as [|x xs] eqn:E; [done|].
    cbn [Js.join]. rewrite <-IH. done.
  - destruct (Js.split p) as [|x xs] eqn:E; [done|].
    rewrite <-IH. destruct xs; done.
Qed.

Lemma join_app l1 l2 :
  l1 ≠ [] → l2 ≠ [] → Js.join (l1 ++ l2) = Js.join l1 ++ slash :: Js.join l2.
Proof.
  intros H1 H2. induction l1 as [|x l1 IH]; [done|].
  destruct l1 as [|y l1].
  - cbn. by destruct l2.
  - change (Js.join ((x :: y :: l1) ++ l2))
      with (x ++ slash :: Js.join ((y :: l1) ++ l2)).
    rewrite IH by done. cbn [Js.join]. by rewrite <-app_assoc.
Qed.

Lemma split_app_slash q r : Js.split (q ++ slash :: r) = Js.split q ++ Js.split r.
Proof.
  induction q as [|c q IH].
  - cbn. by rewrite decide_True.
  - cbn [app Js.split]. rewrite IH. case_decide; [done|].
    pose proof (split_nonempty q). by destruct (Js.split q).
Qed.

(** The parents of a path are exactly the strings that, followed by a
    slash, begin its canonical form. *)
Lemma elem_of_getParentFolders q p :
  q ∈ getParentFolders p ↔ ancestorOf q (normalizePath p).
Proof.
  unfold getParentFolders, ancestorOf, Js.slice0. cbv zeta.
  generalize (normalizePath p) as s. clear p. intros s.
  rewrite list_elem_of_fmap. split.
  - intros (i & -> & Hi). apply elem_of_seq in Hi.
    exists (Js.join (drop i (Js.split s))).
    rewrite <-(join_split s) at 1. rewrite <-(take_drop i (Js.split s)) at 1.
    rewrite join_app, <-app_assoc; [done| |].
    + intros Ht. apply (f_equal length) in Ht. rewrite length_take in Ht.
      cbn in Ht. lia.
    + intros Hd. apply (f_equal length) in Hd. rewrite length_drop in Hd.
      cbn in Hd. lia.
  - intros [r Hr]. rewrite <-app_assoc in Hr. cbn in Hr. subst s.
    rewrite split_app_slash. exists (length (Js.split q)). split.
    + by rewrite take_app_length, join_split.
    + apply elem_of_seq. rewrite length_app.
      pose proof (split_length_pos q). pose proof (split_length_pos r). lia.
Qed.

Lemma elem_of_set_add x y l : x ∈ Js.set_add y l ↔ x ∈ l ∨ x = y.
Proof.
  unfold Js.set_add. destruct (Js.includes y l) eqn:E.
  - apply includes_true in E. split; [by left | intros [?| ->]; done].
  - rewrite elem_of_app, list_elem_of_singleton. done.
Qed.

Lemma elem_of_foldl_set_add x l acc :
  x ∈ foldl (λ set y, Js.set_add y set) acc l ↔ x ∈ acc ∨ x ∈ l.
Proof.
  revert acc. induction l as [|y l IH]; intros acc; cbn [foldl].
  - rewrite elem_of_nil. tauto.
  - rewrite IH, elem_of_set_add, elem_of_cons. tauto.
Qed.

Lemma elem_of_collectFolders_gen x l acc :
  x ∈ foldl (λ foldersSet lockedPath,
               foldl (λ foldersSet parent, Js.set_add parent foldersSet)
                     foldersSet (getParentFolders lockedPath)) acc l
  ↔ x ∈ acc ∨ ∃ e, e ∈ l ∧ x ∈ getParentFolders e.
Proof.
  revert acc. induction l as [|y l IH]; intros acc; cbn [foldl].
  - split; [by left | intros [?|(e & He & _)]; [done | by apply elem_of_nil in He]].
  - rewrite IH, elem_of_foldl_set_add. split.
    + intros [[?|?]|(e & He & Hx)]; [by left | right; exists y; split; [left | done]
                                    | right; exists e; split; [by right | done]].
    + intros [?|(e & He & Hx)]; [by left; left|].
      apply elem_of_cons in He as [->|He]; [left; by right | right; by exists e].
Qed.

Lemma elem_of_collectFolders x l :
  x ∈ collectFolders l ↔ ∃ e, e ∈ l ∧ ancestorOf x (normalizePath e).
Proof.
  unfold collectFolders. rewrite elem_of_collectFolders_gen, elem_of_nil.
  split.
  - intros [[]|(e & He & Hx)]. exists e. by rewrite <-elem_of_getParentFolders.
  - intros (e & He & Hx). right. exists e. by rewrite elem_of_getParentFolders.
Qed.

End parents_facts.

(** ** The state after the steps of a mutator *)

Section env_facts.
Implicit Types (σ : Env) (l lf : list path) (st : bool * list path).

Lemma registryOf_setLockedFiles lf σ : registryOf (setLockedFiles lf σ) = lf.
Proof. done. Qed.

Lemma foldersOf_setLockedFiles lf σ : foldersOf (setLockedFiles lf σ) = foldersOf σ.
Proof. done. Qed.

Lemma registryOf_store σ : registryOf (store σ) = registryOf σ.
Proof. done. Qed.

Lemma foldersOf_store σ : foldersOf (store σ) = foldersOf σ.
Proof. done. Qed.

Lemma registryOf_update σ :
  registryOf (updateFoldersWithLockedContent σ) = registryOf σ.
Proof. unfold updateFoldersWithLockedContent. by case_decide. Qed.

Lemma foldersOf_update σ :
  foldersOf (updateFoldersWithLockedContent σ) = collectFolders (registryOf σ).
Proof.
  unfold updateFoldersWithLockedContent, registryOf. case_decide as Hlen; [|done].
  apply length_zero_iff_nil in Hlen. by rewrite Hlen.
Qed.

(** Writing back the array that is already there changes nothing. *)
Lemma setLockedFiles_same lf σ :
  lockedFiles (config (instance σ)) = Some lf → setLockedFiles lf σ = σ.
Proof.
  destruct σ as [[u [lf0 fs]] log]. cbn. intros ->. done.
Qed.

(** What a mutator leaves once it has changed the registry to [lf]. *)
Lemma registryOf_finish lf σ :
  registryOf (store (updateFoldersWithLockedContent (setLockedFiles lf σ))) = lf.
Proof. by rewrite registryOf_store, registryOf_update. Qed.

Lemma foldersOf_finish lf σ :
  foldersOf (store (updateFoldersWithLockedContent (setLockedFiles lf σ)))
  = collectFolders lf.
Proof. by rewrite foldersOf_store, foldersOf_update. Qed.

Lemma removeFirst_notin x l : x ∉ l → removeFirst x l = l.
Proof.
  induction l as [|y l IH]; [done|]. intros Hnin.
  apply not_elem_of_cons in Hnin as [Hne Hnin].
  cbn. rewrite decide_False by done. f_equal. by apply IH.
Qed.

Lemma removeFirst_app_fresh x l1 l2 :
  x ∉ l1 → removeFirst x (l1 ++ x :: l2) = l1 ++ l2.
Proof.
  induction l1 as [|y l1 IH]; intros Hnin; cbn.
  - by rewrite decide_True.
  - apply not_elem_of_cons in Hnin as [Hne Hnin].
    rewrite decide_False by done. f_equal. by apply IH.
Qed.

Lemma removeFirst_sublist x l : removeFirst x l `sublist_of` l.
Proof.
  induction l as [|y l IH]; [done|]. cbn. case_decide.
  - by apply sublist_cons.
  - by apply sublist_skip.
Qed.

Lemma elem_of_removeFirst_ne x y l : y ≠ x → y ∈ removeFirst x l ↔ y ∈ l.
Proof.
  intros Hne. induction l as [|z l IH]; [done|]. cbn. case_decide as Hxz.
  - subst z. rewrite elem_of_cons. tauto.
  - rewrite !elem_of_cons, IH. done.
Qed.

Lemma elem_of_removeFirst_NoDup x y l :
  NoDup l → y ∈ removeFirst x l ↔ y ∈ l ∧ y ≠ x.
Proof.
  intros Hnd. destruct (decide (y = x)) as [->|Hne].
  - split; [|tauto]. intros Hin. exfalso.
    induction Hnd as [|z l Hz Hnd IH]; [by apply elem_of_nil in Hin|].
    cbn in Hin. case_decide as Hxz; [by subst|].
    apply elem_of_cons in Hin as [?|?]; [done | by apply IH].
  - rewrite elem_of_removeFirst_ne by done. tauto.
Qed.

Lemma length_removeFirst x l :
  x ∈ l → S (length (removeFirst x l)) = length l.
Proof.
  induction l as [|y l IH]; [by intros ?%elem_of_nil|]. cbn.
  case_decide as Hxy; [done|]. intros Hin.
  apply elem_of_cons in Hin as [?|Hin]; [done|]. cbn. by rewrite IH.
Qed.

(** One removal step in closed form. *)
Lemma removeOne_spec st x :
  removeOne st x = (st.1 || bool_decide (x ∈ st.2),
                    removeFirst x st.2) ∨
  (x ∈ st.2 ∧ removeOne st x = (true, removeFirst x st.2)).
Proof.
  unfold removeOne. destruct (Js.indexOf x st.2) as [i|] eqn:E.
  - right. apply indexOf_Some in E as (l1 & l2 & Hl & Hnin & -> & Hsp).
    rewrite Hsp, Hl, removeFirst_app_fresh by done. split; [|done].
    apply elem_of_app. right. left.
  - left. apply indexOf_None in E. rewrite removeFirst_notin by done.
    rewrite bool_decide_eq_false_2 by done. rewrite orb_false_r.
    by destruct st.
Qed.

Lemma removeOne_list st x : (removeOne st x).2 = removeFirst x st.2.
Proof. destruct (removeOne_spec st x) as [->|[_ ->]]; done. Qed.

Lemma removeOne_flag st x :
  (removeOne st x).1 = st.1 || bool_decide (x ∈ st.2).
Proof.
  destruct (removeOne_spec st x) as [->|[Hin ->]]; [done|].
  rewrite bool_decide_eq_true_2 by done. by rewrite orb_true_r.
Qed.

End env_facts.

(** ** The removal loop of [removeLockForPath] *)

Section removal.
Implicit Types (σ : Env) (l A L : list path) (x e : path).

Lemma startsWith_ancestorOf e x :
  Js.startsWith e (x ++ [slash]) = true ↔ ancestorOf x e.
Proof. apply startsWith_prefix. Qed.

Lemma ancestorOf_irrefl x : ¬ ancestorOf x x.
Proof. apply prefix_snoc_not. Qed.

(** Removing, one after the other, the first occurrence of every collected
    entry leaves the entries that were not collected, in their order. *)
Lemma removal_loop x L A b :
  Forall (λ e, ¬ ancestorOf x e) A →
  foldl removeOne (b, A ++ L)
        (filter (λ e, Js.startsWith e (x ++ [slash]) = true) L)
  = (b || bool_decide (Exists (ancestorOf x) L),
     A ++ filter (λ e, ¬ ancestorOf x e) L).
Proof.
  revert A b. induction L as [|e L IH]; intros A b HA.
  - cbn. by rewrite orb_false_r.
  - destruct (decide (ancestorOf x e)) as [He|He].
    + rewrite filter_cons_True by by apply startsWith_ancestorOf.
      rewrite filter_cons_False by tauto. cbn [foldl].
      assert (e ∉ A) as HeA.
      { intros Hin. rewrite Forall_forall in HA. by apply (HA e). }
      unfold removeOne at 2. cbn [snd]. rewrite indexOf_app_fresh by done.
      rewrite splice1_app_length, IH by done.
      rewrite (bool_decide_eq_true_2 (Exists _ (e :: L))) by by left.
      by rewrite orb_true_r.
    + rewrite filter_cons_False by by rewrite startsWith_ancestorOf.
      rewrite filter_cons_True by done.
      replace (A ++ e :: L) with ((A ++ [e]) ++ L) by by rewrite <-app_assoc.
      rewrite IH by (apply Forall_app; split; [done | by constructor]).
      rewrite <-app_assoc. f_equal. f_equal. apply bool_decide_ext.
      rewrite Exists_cons. tauto.
Qed.

Lemma removal_loop_all x L b :
  foldl removeOne (b, L)
        (filter (λ e, Js.startsWith e (x ++ [slash]) = true) L)
  = (b || bool_decide (Exists (ancestorOf x) L),
     filter (λ e, ¬ ancestorOf x e) L).
Proof. apply (removal_loop x L [] b). constructor. Qed.

(** The registry and the result of [removeLockForPath] in closed form. *)
Lemma removeLockForPath_registry P σ :
  registryOf (removeLockForPath P σ).2
  = filter (λ e, ¬ ancestorOf (normalizePath P) e)
           (removeFirst (normalizePath P) (registryOf σ)).
Proof.
  unfold removeLockForPath, registryOf at 2, lockedFilesOrEmpty.
  destruct (lockedFiles (config (instance σ))) as [R|] eqn:ER; cbn [default].
  - cbv zeta. rewrite removeOne_list. cbn [snd].
    rewrite (surjective_pairing (removeOne (false, R) (normalizePath P))).
    rewrite removeOne_list. cbn [snd].
    rewrite removal_loop_all. cbn [fst snd].
    match goal with |- context [if ?b then _ else _] => destruct b end;
      cbn [fst snd].
    + by rewrite registryOf_finish.
    + done.
  - cbn. unfold registryOf, lockedFilesOrEmpty. by rewrite ER.
Qed.

Lemma removeLockForPath_result P σ :
  (removeLockForPath P σ).1
  = bool_decide (normalizePath P ∈ registryOf σ)
    || bool_decide (Exists (ancestorOf (normalizePath P))
                           (removeFirst (normalizePath P) (registryOf σ))).
Proof.
  unfold removeLockForPath, registryOf, lockedFilesOrEmpty.
  destruct (lockedFiles (config (instance σ))) as [R|] eqn:ER; cbn [default].
  - cbv zeta.
    rewrite (surjective_pairing (removeOne (false, R) (normalizePath P))).
    rewrite removeOne_list, removeOne_flag. cbn [fst snd].
    rewrite removal_loop_all. cbn [fst snd].
    match goal with |- context [if ?b then _ else _] => destruct b eqn:Eb end.
    + done.
    + done.
  - done.
Qed.

Lemma removeLockForPath_unchanged P σ :
  (removeLockForPath P σ).1 = false → (removeLockForPath P σ).2 = σ.
Proof.
  intros Hres. pose proof Hres as Hflag. rewrite removeLockForPath_result in Hflag.
  apply orb_false_elim in Hflag as [H1 H2].
  apply bool_decide_eq_false in H1. apply bool_decide_eq_false in H2.
  revert Hres. unfold removeLockForPath.
  unfold registryOf, lockedFilesOrEmpty in H1, H2.
  destruct (lockedFiles (config (instance σ))) as [R|] eqn:ER; [|done].
  cbn [default] in H1, H2. cbv zeta.
  rewrite (surjective_pairing (removeOne (false, R) (normalizePath P))).
  rewrite removeOne_list, removeOne_flag. cbn [fst snd].
  rewrite removal_loop_all. cbn [fst snd].
  rewrite removeFirst_notin in * by done.
  rewrite (bool_decide_eq_false_2 (normalizePath P ∈ R)) by done.
  rewrite (bool_decide_eq_false_2 (Exists _ R)) by done.
  intros _. cbn [orb fst snd]. apply setLockedFiles_same. rewrite ER. f_equal.
  clear ER H1. induction R as [|e R IH]; [done|].
  rewrite filter_cons_True.
  - f_equal. apply IH. intros Hex. apply H2. by right.
  - intros He. apply H2. by left.
Qed.

End removal.

(** ** The re-rooting loop of [moveLockForPath] *)

Section rerooting.
Implicit Types (σ : Env) (l A L N : list path) (S D e : path)
               (st : bool * list path).

Lemma collectUpdatedPaths_cons_under S D e L :
  ancestorOf S e →
  collectUpdatedPaths (S ++ [slash]) D (e :: L)
  = (e, rebase S D e) :: collectUpdatedPaths (S ++ [slash]) D L.
Proof.
  intros He. apply startsWith_ancestorOf in He.
  unfold collectUpdatedPaths. cbn [omap list_omap]. by rewrite He.
Qed.

Lemma collectUpdatedPaths_cons_other S D e L :
  ¬ ancestorOf S e →
  collectUpdatedPaths (S ++ [slash]) D (e :: L)
  = collectUpdatedPaths (S ++ [slash]) D L.
Proof.
  intros He. rewrite <-startsWith_ancestorOf in He.
  apply not_true_is_false in He.
  unfold collectUpdatedPaths. cbn [omap list_omap]. by rewrite He.
Qed.

Lemma elem_of_collectUpdatedPaths S D L u :
  u ∈ collectUpdatedPaths (S ++ [slash]) D L ↔
  u.1 ∈ L ∧ ancestorOf S u.1 ∧ u.2 = rebase S D u.1.
Proof.
  induction L as [|e L IH].
  - cbn. rewrite !elem_of_nil. tauto.
  - destruct (decide (ancestorOf S e)) as [He|He].
    + rewrite collectUpdatedPaths_cons_under, !elem_of_cons, IH by done.
      destruct u as [o n]. cbn. split.
      * intros [[= -> ->]|(?&?&?)]; [split_and!; [by left|done..] | auto].
      * intros ([->|?]&?&->); [by left | by right].
    + rewrite collectUpdatedPaths_cons_other, elem_of_cons, IH by done.
      split; [by intuition|]. intros ([->|?]&?&?); [done | auto].
Qed.

(** With the new paths outside the source folder, the loop takes every
    entry under the source out and puts its re-rooted path in. *)
Lemma reroot_loop S D L A N b :
  (∀ e, ¬ ancestorOf S (rebase S D e)) →
  Forall (λ e, ¬ ancestorOf S e) A →
  Forall (λ e, ¬ ancestorOf S e) N →
  ∀ st, st = foldl applyUpdate (b, A ++ L ++ N)
                   (collectUpdatedPaths (S ++ [slash]) D L) →
  (∀ e, e ∈ st.2 ↔
        e ∈ A ∨ e ∈ N ∨ (e ∈ L ∧ ¬ ancestorOf S e)
        ∨ ∃ o, o ∈ L ∧ ancestorOf S o ∧ e = rebase S D o)
  ∧ st.1 = b || bool_decide (Exists (ancestorOf S) L).
Proof.
  intros Hnew. revert A N b.
  induction L as [|e0 L IH]; intros A N b HA HN st ->.
  - cbn. split; [|by rewrite orb_false_r].
    intros e. rewrite elem_of_app.
    split; [intros [?|?]; auto|].
    intros [?|[?|[[Hf _]|(o & Hf & _)]]]; auto; by apply elem_of_nil in Hf.
  - destruct (decide (ancestorOf S e0)) as [He|He].
    + rewrite collectUpdatedPaths_cons_under by done. cbn [foldl].
      assert (e0 ∉ A) as HeA.
      { intros Hin. rewrite Forall_forall in HA. by apply (HA e0). }
      assert (applyUpdate (b, A ++ (e0 :: L) ++ N) (e0, rebase S D e0)
              = (true, if Js.includes (rebase S D e0) (A ++ L ++ N)
                       then A ++ L ++ N
                       else Js.push (rebase S D e0) (A ++ L ++ N))) as ->.
      { change (A ++ (e0 :: L) ++ N) with (A ++ e0 :: (L ++ N)).
        unfold applyUpdate. cbn [snd].
        by rewrite indexOf_app_fresh, splice1_app_length by done. }
      rewrite (bool_decide_eq_true_2 (Exists _ (e0 :: L))) by by left.
      rewrite orb_true_r.
      destruct (Js.includes (rebase S D e0) (A ++ L ++ N)) eqn:Einc.
      * destruct (IH A N true HA HN _ eq_refl) as [IHm IHf]. split.
        -- intros e. rewrite IHm. clear IHm IHf. split.
           ++ intros [?|[?|[[? ?]|(o & ? & ? & ?)]]]; auto.
              ** right; right; left. split; [by right | done].
              ** right; right; right. exists o. split_and!; [by right | done..].
           ++ intros [?|[?|[[Hin ?]|(o & Hin & ? & ->)]]]; auto.
              ** apply elem_of_cons in Hin as [->|?]; [done | auto].
              ** apply elem_of_cons in Hin as [->|?].
                 --- apply includes_true in Einc.
                     rewrite !elem_of_app in Einc.
                     destruct Einc as [?|[?|?]]; [by left | | by right; left].
                     right; right; left. split; [done | apply Hnew].
                 --- right; right; right. by exists o.
        -- rewrite IHf. done.
      * unfold Js.push. rewrite <-!app_assoc.
        assert (Forall (λ e, ¬ ancestorOf S e) (N ++ [rebase S D e0])) as HN'.
        { apply Forall_app. split; [done|]. constructor; [apply Hnew | constructor]. }
        destruct (IH A (N ++ [rebase S D e0]) true HA HN' _ eq_refl) as [IHm IHf]. split.
        -- intros e. rewrite IHm. clear IHm IHf.
           rewrite elem_of_app, list_elem_of_singleton. split.
           ++ intros [?|[[?| ->]|[[? ?]|(o & ? & ? & ?)]]]; auto.
              ** right; right; right. exists e0. split_and!; [by left | done..].
              ** right; right; left. split; [by right | done].
              ** right; right; right. exists o. split_and!; [by right | done..].
           ++ intros [?|[?|[[Hin ?]|(o & Hin & ? & ->)]]]; auto.
              ** apply elem_of_cons in Hin as [->|?]; [done | auto].
              ** apply elem_of_cons in Hin as [->|?]; [auto|].
                 right; right; right. by exists o.
        -- rewrite IHf. done.
    + rewrite collectUpdatedPaths_cons_other by done.
      replace (A ++ (e0 :: L) ++ N) with ((A ++ [e0]) ++ L ++ N)
        by by rewrite <-app_assoc.
      assert (Forall (λ e, ¬ ancestorOf S e) (A ++ [e0])) as HA'.
      { apply Forall_app. split; [done | by constructor]. }
      destruct (IH (A ++ [e0]) N b HA' HN _ eq_refl) as [IHm IHf]. split.
      * intros e. rewrite IHm. clear IHm IHf.
        rewrite elem_of_app, list_elem_of_singleton. split.
        -- intros [[?| ->]|[?|[[? ?]|(o & ? & ? & ?)]]]; auto.
           ++ right; right; left. split; [by left | done].
           ++ right; right; left. split; [by right | done].
           ++ right; right; right. exists o. split_and!; [by right | done..].
        -- intros [?|[?|[[Hin ?]|(o & Hin & ? & ->)]]]; auto.
           ++ apply elem_of_cons in Hin as [->|?]; auto.
           ++ apply elem_of_cons in Hin as [->|?]; [done|].
              right; right; right. by exists o.
      * rewrite IHf. f_equal. apply bool_decide_ext. rewrite Exists_cons. tauto.
Qed.

Lemma reroot_loop_all S D L b :
  (∀ e, ¬ ancestorOf S (rebase S D e)) →
  ∀ st, st = foldl applyUpdate (b, L) (collectUpdatedPaths (S ++ [slash]) D L) →
  (∀ e, e ∈ st.2 ↔
        (e ∈ L ∧ ¬ ancestorOf S e)
        ∨ ∃ o, o ∈ L ∧ ancestorOf S o ∧ e = rebase S D o)
  ∧ st.1 = b || bool_decide (Exists (ancestorOf S) L).
Proof.
  intros Hnew st Hst.
  destruct (reroot_loop S D L [] [] b Hnew) with (st := st) as [Hm Hf];
    [constructor | constructor | by rewrite app_nil_r | ].
  split; [|done]. intros e. rewrite Hm, !elem_of_nil. tauto.
Qed.

Lemma Forall_of_sublist (P : path → Prop) l1 l2 :
  Forall P l2 → l1 `sublist_of` l2 → Forall P l1.
Proof.
  rewrite !Forall_forall. intros HP Hsub x Hx.
  apply HP. by eapply elem_of_sublist.
Qed.

(** Facts about one round that hold for any pair. *)
Lemma applyUpdate_NoDup st u : NoDup st.2 → NoDup (applyUpdate st u).2.
Proof.
  intros Hnd. unfold applyUpdate. destruct u as [o n].
  destruct (Js.indexOf o st.2) as [i|] eqn:E; [|done]. cbn [snd].
  assert (NoDup (Js.splice1 i st.2)) as Hnd'.
  { eapply sublist_NoDup; [done | apply sublist_delete]. }
  destruct (Js.includes n (Js.splice1 i st.2)) eqn:Einc; [done|].
  apply includes_false in Einc. unfold Js.push.
  apply NoDup_app. split_and!; [done| |apply NoDup_singleton].
  intros x Hx ->%list_elem_of_singleton. done.
Qed.

Lemma applyUpdate_Forall (P : path → Prop) st u :
  Forall P st.2 → (u.1 ∈ st.2 → P u.2) → Forall P (applyUpdate st u).2.
Proof.
  intros HP Hu. unfold applyUpdate. destruct u as [o n].
  destruct (Js.indexOf o st.2) as [i|] eqn:E; [|done]. cbn [snd].
  assert (o ∈ st.2) as Ho.
  { apply indexOf_Some in E as (l1 & l2 & -> & _). apply elem_of_app. right. left. }
  assert (Forall P (Js.splice1 i st.2)) as HP'.
  { eapply Forall_of_sublist; [done | apply sublist_delete]. }
  destruct (Js.includes n (Js.splice1 i st.2)); [done|].
  unfold Js.push. apply Forall_app. split; [done|]. constructor; [auto | constructor].
Qed.

Lemma applyUpdate_unchanged st u :
  (applyUpdate st u).1 = false → applyUpdate st u = st.
Proof.
  unfold applyUpdate. destruct u as [o n].
  by destruct (Js.indexOf o st.2).
Qed.

Lemma applyUpdate_flag_mono st u : st.1 = true → (applyUpdate st u).1 = true.
Proof.
  unfold applyUpdate. destruct u as [o n].
  by destruct (Js.indexOf o st.2).
Qed.

Lemma foldl_applyUpdate_flag_mono st us :
  st.1 = true → (foldl applyUpdate st us).1 = true.
Proof.
  revert st. induction us as [|u us IH]; intros st Hst; [done|].
  cbn. apply IH. by apply applyUpdate_flag_mono.
Qed.

Lemma foldl_applyUpdate_unchanged st us :
  (foldl applyUpdate st us).1 = false → foldl applyUpdate st us = st.
Proof.
  revert st. induction us as [|u us IH]; intros st Hf; [done|]. cbn in *.
  destruct (applyUpdate st u).1 eqn:E.
  - rewrite foldl_applyUpdate_flag_mono in Hf; done.
  - rewrite IH by done. by apply applyUpdate_unchanged.
Qed.

End rerooting.

(** ** The mutators keep the data-model invariant *)

Section invariant.
Implicit Types (σ : Env) (l lf R : list path) (S D e x : path)
               (st : bool * list path).

Lemma Invariant_finish lf σ :
  Forall LockedPath lf → NoDup lf →
  Invariant (instance (store (updateFoldersWithLockedContent (setLockedFiles lf σ)))).
Proof.
  intros Hlp Hnd.
  pose proof (registryOf_finish lf σ) as HR.
  pose proof (foldersOf_finish lf σ) as HF.
  unfold registryOf, foldersOf in HR, HF.
  unfold Invariant, RegistryWf, IndexIsClosure. rewrite HR, HF.
  split; [done|]. intros q. by rewrite elem_of_collectFolders.
Qed.

Lemma Invariant_views σ σ' :
  registryOf σ' = registryOf σ → foldersOf σ' = foldersOf σ →
  Invariant (instance σ) → Invariant (instance σ').
Proof.
  unfold registryOf, foldersOf, Invariant, RegistryWf, IndexIsClosure.
  by intros -> ->.
Qed.

Lemma rebase_under S D o :
  ancestorOf S o → ∃ k, o = S ++ slash :: k ∧ rebase S D o = D ++ slash :: k.
Proof.
  intros [k ->]. exists k. unfold rebase. rewrite drop_app_length.
  by rewrite <-!app_assoc.
Qed.

Lemma foldl_applyUpdate_wf S D st us :
  LockedPath D →
  Forall (λ u, ancestorOf S u.1 ∧ u.2 = rebase S D u.1) us →
  Forall LockedPath st.2 → NoDup st.2 →
  Forall LockedPath (foldl applyUpdate st us).2
  ∧ NoDup (foldl applyUpdate st us).2.
Proof.
  intros HD. revert st. induction us as [|u us IH]; intros st Hus Hlp Hnd; [done|].
  apply Forall_cons in Hus as [[Hu1 Hu2] Hus]. cbn [foldl]. apply IH; [done| |].
  - apply applyUpdate_Forall; [done|]. intros Hin.
    rewrite Forall_forall in Hlp. specialize (Hlp _ Hin).
    destruct (rebase_under S D _ Hu1) as (k & Hk & Hr).
    rewrite Hu2, Hr. rewrite Hk in Hlp. by eapply LockedPath_rebase.
  - by apply applyUpdate_NoDup.
Qed.

Lemma collectUpdatedPaths_Forall S D L :
  Forall (λ u, ancestorOf S u.1 ∧ u.2 = rebase S D u.1)
         (collectUpdatedPaths (S ++ [slash]) D L).
Proof.
  apply Forall_forall. intros u Hu.
  apply elem_of_collectUpdatedPaths in Hu. tauto.
Qed.

Lemma addLock_invariant P σ :
  Invariant (instance σ) → Invariant (instance (addLock P σ).2).
Proof.
  intros Hinv. unfold addLock. cbv zeta.
  destruct (Js.includes (normalizePath P) (lockedFilesOrEmpty (instance σ))) eqn:E.
  - cbn [snd]. by eapply Invariant_views.
  - cbn [snd]. apply includes_false in E. destruct Hinv as [[Hlp Hnd] _].
    apply Invariant_finish; unfold Js.push.
    + apply Forall_app. split; [done|].
      constructor; [apply LockedPath_normalizePath | constructor].
    + apply NoDup_app. split_and!; [done| |apply NoDup_singleton].
      intros x Hx ->%list_elem_of_singleton. done.
Qed.

Lemma removeLock_invariant P σ :
  Invariant (instance σ) → Invariant (instance (removeLock P σ).2).
Proof.
  intros Hinv. unfold removeLock. cbv zeta.
  destruct (lockedFiles (config (instance σ))) as [R|] eqn:ER.
  - destruct (Js.indexOf (normalizePath P) R) as [i|] eqn:E; [|done].
    cbn [snd]. destruct Hinv as [[Hlp Hnd] _].
    unfold lockedFilesOrEmpty in Hlp, Hnd. rewrite ER in Hlp, Hnd. cbn in Hlp, Hnd.
    apply Invariant_finish.
    + eapply Forall_of_sublist; [done | apply sublist_delete].
    + eapply sublist_NoDup; [done | apply sublist_delete].
  - cbn [snd]. eapply Invariant_views; [| |done].
    + unfold registryOf, lockedFilesOrEmpty. by rewrite ER.
    + done.
Qed.

Lemma removeLockForPath_invariant P σ :
  Invariant (instance σ) → Invariant (instance (removeLockForPath P σ).2).
Proof.
  intros Hinv.
  destruct (removeLockForPath P σ).1 eqn:Eflag;
    [|by rewrite removeLockForPath_unchanged].
  pose proof (removeLockForPath_registry P σ) as HR.
  revert Eflag HR. unfold removeLockForPath.
  destruct (lockedFiles (config (instance σ))) as [R|] eqn:ER; [|done].
  cbv zeta. set (st := foldl removeOne _ _). destruct st.1; [|done].
  cbn [fst snd]. rewrite registryOf_finish. intros _ Hst.
  destruct Hinv as [[Hlp Hnd] _].
  assert (st.2 `sublist_of` registryOf σ) as Hsub.
  { rewrite Hst. etrans; [apply sublist_filter | apply removeFirst_sublist]. }
  apply Invariant_finish.
  - by eapply Forall_of_sublist.
  - by eapply sublist_NoDup.
Qed.

Lemma copyLockForPath_invariant src dst σ :
  Invariant (instance σ) → Invariant (instance (copyLockForPath src dst σ).2).
Proof.
  intros Hinv. unfold copyLockForPath.
  destruct (lockedFiles (config (instance σ))) as [R|] eqn:ER; [|done].
  cbv zeta. destruct (Js.includes (normalizePath src) R); [|done].
  destruct (Js.includes (normalizePath dst) R) eqn:E; [done|].
  cbn [negb snd]. apply includes_false in E. destruct Hinv as [[Hlp Hnd] _].
  unfold lockedFilesOrEmpty in Hlp, Hnd. rewrite ER in Hlp, Hnd. cbn in Hlp, Hnd.
  apply Invariant_finish; unfold Js.push.
  - apply Forall_app. split; [done|].
    constructor; [apply LockedPath_normalizePath | constructor].
  - apply NoDup_app. split_and!; [done| |apply NoDup_singleton].
    intros x Hx ->%list_elem_of_singleton. done.
Qed.

Lemma moveCase1_wf S D R :
  LockedPath D → Forall LockedPath R → NoDup R →
  Forall LockedPath (moveCase1 S D R).2 ∧ NoDup (moveCase1 S D R).2.
Proof.
  intros HD Hlp Hnd. unfold moveCase1.
  destruct (Js.indexOf S R) as [i|] eqn:E; [|done]. cbv zeta. cbn [snd].
  assert (Forall LockedPath (Js.splice1 i R)) as Hlp'.
  { eapply Forall_of_sublist; [done | apply sublist_delete]. }
  assert (NoDup (Js.splice1 i R)) as Hnd'.
  { eapply sublist_NoDup; [done | apply sublist_delete]. }
  destruct (Js.includes D (Js.splice1 i R)) eqn:Einc; [done|].
  apply includes_false in Einc. unfold Js.push. split.
  - apply Forall_app. split; [done | by constructor].
  - apply NoDup_app. split_and!; [done| |apply NoDup_singleton].
    intros x Hx ->%list_elem_of_singleton. done.
Qed.

Lemma moveLockForPath_unfold src dst σ R :
  lockedFiles (config (instance σ)) = Some R →
  moveLockForPath src dst σ
  = let S := normalizePath src in
    let D := normalizePath dst in
    let st := foldl applyUpdate (moveCase1 S D R)
                    (collectUpdatedPaths (S ++ [slash]) D (moveCase1 S D R).2) in
    if st.1 then (true, store (updateFoldersWithLockedContent (setLockedFiles st.2 σ)))
    else (false, setLockedFiles st.2 σ).
Proof. intros ER. unfold moveLockForPath. by rewrite ER. Qed.

Lemma moveLockForPath_unchanged src dst σ :
  (moveLockForPath src dst σ).1 = false → (moveLockForPath src dst σ).2 = σ.
Proof.
  destruct (lockedFiles (config (instance σ))) as [R|] eqn:ER;
    [|unfold moveLockForPath; by rewrite ER].
  rewrite (moveLockForPath_unfold _ _ _ _ ER). cbv zeta.
  set (st := foldl applyUpdate _ _).
  destruct st.1 eqn:Eflag; [done|]. intros _. cbn [snd].
  apply setLockedFiles_same. rewrite ER. f_equal.
  subst st. rewrite foldl_applyUpdate_unchanged in * by done.
  unfold moveCase1 in *. by destruct (Js.indexOf (normalizePath src) R).
Qed.

Lemma moveLockForPath_invariant src dst σ :
  Invariant (instance σ) → Invariant (instance (moveLockForPath src dst σ).2).
Proof.
  intros Hinv.
  destruct (moveLockForPath src dst σ).1 eqn:Eflag;
    [|by rewrite moveLockForPath_unchanged].
  revert Eflag.
  destruct (lockedFiles (config (instance σ))) as [R|] eqn:ER;
    [|unfold moveLockForPath; by rewrite ER].
  rewrite (moveLockForPath_unfold _ _ _ _ ER). cbv zeta.
  set (st := foldl applyUpdate _ _). destruct st.1; [|done]. intros _. cbn [snd].
  destruct Hinv as [[Hlp Hnd] _].
  unfold lockedFilesOrEmpty in Hlp, Hnd. rewrite ER in Hlp, Hnd. cbn in Hlp, Hnd.
  destruct (moveCase1_wf (normalizePath src) (normalizePath dst) R) as [Hlp1 Hnd1];
    [apply LockedPath_normalizePath | done..|].
  destruct (foldl_applyUpdate_wf (normalizePath src) (normalizePath dst)
              (moveCase1 (normalizePath src) (normalizePath dst) R)
              (collectUpdatedPaths (normalizePath src ++ [slash]) (normalizePath dst)
                 (moveCase1 (normalizePath src) (normalizePath dst) R).2))
    as [Hlp2 Hnd2];
    [apply LockedPath_normalizePath | apply collectUpdatedPaths_Forall | done..|].
  by apply Invariant_finish.
Qed.

Lemma runOp_invariant op σ :
  Invariant (instance σ) → Invariant (instance (runOp op σ).2).
Proof.
  destruct op; cbn [runOp];
    auto using addLock_invariant, removeLock_invariant, removeLockForPath_invariant,
               copyLockForPath_invariant, moveLockForPath_invariant.
Qed.

Lemma fresh_instance_invariant uuid : Invariant (freshInstance uuid).
Proof.
  split; [split; constructor|]. intros q. cbn. split.
  - by intros ?%elem_of_nil.
  - by intros (e & ?%elem_of_nil & _).
Qed.

End invariant.

(** ** The invariant of the registry and of the ancestor index *)

(** C4. After every completed lock-mutating operation ([addLock],
    [removeLock], [removeLockForPath], [copyLockForPath],
    [moveLockForPath]) the registry holds only normalized, deduplicated
    entries and the ancestor index is exactly the set of the proper
    separator-bounded ancestor prefixes of the registry's entries: so it is
    after every run of operations on an instance that was fresh, and after
    every run from any state in which it was so. *)
Theorem lock_operations_keep_invariant (ops : list LockOp) :
  (∀ uuid log, invariantHolds (instance (runOps ops (mkEnv (freshInstance uuid) log))))
  ∧ (∀ σ, invariantHolds (instance σ) → invariantHolds (instance (runOps ops σ))).
Proof.
  assert (∀ i, Invariant i ↔ invariantHolds i) as Hiff.
  { intros i. unfold Invariant, RegistryWf, IndexIsClosure, invariantHolds.
    split.
    - intros [[Hlp Hnd] Hcl]. split_and!; [done..|]. intros q. rewrite (Hcl q).
      rewrite Forall_forall in Hlp.
      split; intros (e & He & Hq); exists e; (split; [done|]);
        pose proof (Hlp e He) as HL; unfold LockedPath in HL; by rewrite HL in *.
    - intros (Hlp & Hnd & Hcl). split; [done|]. intros q. rewrite (Hcl q).
      rewrite Forall_forall in Hlp.
      split; intros (e & He & Hq); exists e; (split; [done|]);
        pose proof (Hlp e He) as HL; unfold LockedPath in HL; by rewrite HL in *. }
  assert (∀ σ, Invariant (instance σ) → Invariant (instance (runOps ops σ))) as Hrun.
  { unfold runOps. induction ops as [|op ops IH]; intros σ Hinv; [done|].
    cbn [foldl]. apply IH. by apply runOp_invariant. }
  split.
  - intros uuid log. apply Hiff, Hrun. apply fresh_instance_invariant.
  - intros σ Hinv. apply Hiff, Hrun. by apply Hiff.
Qed.

Lemma lock_operations_keep_invariant_witness :
  let σ := mkEnv (freshInstance "srv") [] in
  let ops := [OpAddLock (str "a/b/c.txt"); OpAddLock (str "a\d/");
              OpCopyLockForPath (str "a/d") (str "e");
              OpMoveLockForPath (str "a/b") (str "x/y");
              OpRemoveLockForPath (str "e"); OpRemoveLock (str "zzz")] in
  config (instance (runOps ops σ))
  = mkConfig (Some [str "a/d"; str "x/y/c.txt"]) (Some [str "a"; str "x"; str "x/y"])
  ∧ invariantHolds (instance (runOps ops σ)).
Proof.
  cbv zeta. split.
  - vm_compute. reflexivity.
  - exact (proj1 (lock_operations_keep_invariant _) "srv" []).
Defined.

(** ** Propagation of delete and create: [removeLockForPath] *)

(** C8. [removeLockForPath(instance, P)] removes the direct registry entry
    equal to normalized [P] and every entry that has normalized [P + "/"]
    as a prefix, leaves every other entry untouched, and returns [true]
    if and only if at least one removal occurred. *)
Theorem removeLockForPath_removes_subtree (P : path) (σ : Env) :
  let x := normalizePath P in
  let R := registryOf σ in
  let R' := registryOf (removeLockForPath P σ).2 in
  R' = clearPath R P
  ∧ (∀ e, ancestorOf x e → e ∉ R')
  ∧ (NoDup R → x ∉ R')
  ∧ (∀ e, e ≠ x → ¬ ancestorOf x e → (e ∈ R' ↔ e ∈ R))
  ∧ ((removeLockForPath P σ).1 = true ↔ length R' < length R)
  ∧ ((removeLockForPath P σ).1 = false → (removeLockForPath P σ).2 = σ).
Proof.
  cbv zeta. pose proof (removeLockForPath_registry P σ) as HR.
  split_and!.
  - done.
  - intros e He. rewrite HR, list_elem_of_filter. tauto.
  - intros Hnd. rewrite HR, list_elem_of_filter, elem_of_removeFirst_NoDup by done.
    tauto.
  - intros e Hne He. rewrite HR, list_elem_of_filter, elem_of_removeFirst_ne by done.
    tauto.
  - split.
    + rewrite removeLockForPath_result, HR. intros Hflag.
      apply orb_true_iff in Hflag as [Hx|Hex].
      * apply bool_decide_eq_true in Hx. apply length_removeFirst in Hx.
        pose proof (length_filter (λ e, ¬ ancestorOf (normalizePath P) e)
                      (removeFirst (normalizePath P) (registryOf σ))). lia.
      * apply bool_decide_eq_true in Hex. apply Exists_exists in Hex as (e & He & Hu).
        eapply Nat.lt_le_trans.
        -- by apply (length_filter_lt _ _ e); [|tauto].
        -- apply sublist_length, removeFirst_sublist.
    + intros Hlt. destruct (removeLockForPath P σ).1 eqn:Eflag; [done|].
      rewrite removeLockForPath_unchanged in Hlt by done. lia.
  - apply removeLockForPath_unchanged.
Qed.

(** The test of the specification: deleting ["a"] clears ["a"], ["a/b"] and
    ["a/b/c"] and leaves the sibling ["ab"]. *)
Example removeLockForPath_sibling :
  let σ := mkEnv (mkInstance "srv"
                    (mkConfig (Some [str "a"; str "ab"; str "a/b"; str "a/b/c"])
                              (Some [str "a"; str "a/b"]))) [] in
  (removeLockForPath (str "a") σ).1 = true
  ∧ config (instance (removeLockForPath (str "a") σ).2)
    = mkConfig (Some [str "ab"]) (Some []).
Proof. vm_compute. done. Qed.

(** ** Propagation of copy: [copyLockForPath] *)

Lemma copyLockForPath_Some (src dst : path) (σ : Env) (R : list path) :
  lockedFiles (config (instance σ)) = Some R →
  copyLockForPath src dst σ
  = if Js.includes (normalizePath src) R then
      if negb (Js.includes (normalizePath dst) R) then
        (true, store (updateFoldersWithLockedContent
                        (setLockedFiles (Js.push (normalizePath dst) R) σ)))
      else (true, σ)
    else (false, σ).
Proof. intros ER. unfold copyLockForPath. by rewrite ER. Qed.

Lemma isPathDirectlyLocked_gen (i : Instance) (P : path) :
  isPathDirectlyLocked i P = true ↔
  ∃ E, E ∈ lockedFilesOrEmpty i ∧ normalizePath P = normalizePath E.
Proof.
  unfold isPathDirectlyLocked. cbv zeta. case_decide as Hlen.
  - apply length_zero_iff_nil in Hlen. rewrite Hlen.
    split; [done | by intros (E & ?%elem_of_nil & _)].
  - induction (lockedFilesOrEmpty i) as [|E0 R IH]; [done|].
    cbn [isPathDirectlyLocked_loop]. cbv zeta. case_decide as Heq.
    + split; [|done]. intros _. exists E0. split; [left | done].
    + destruct R as [|E1 R].
      * cbn. split; [done|]. intros (E & HE & HEq).
        apply list_elem_of_singleton in HE. by subst E.
      * rewrite IH by done. split.
        -- intros (E & HE & HEq). exists E. split; [by right | done].
        -- intros (E & HE & HEq). apply elem_of_cons in HE as [->|HE]; [done|].
           by exists E.
Qed.

Lemma copyLockForPath_None (src dst : path) (σ : Env) :
  lockedFiles (config (instance σ)) = None →
  copyLockForPath src dst σ = (false, σ).
Proof. intros ER. unfold copyLockForPath. by rewrite ER. Qed.

(** C9. [copyLockForPath] adds [D] to the registry if and only if [S] is
    directly locked (normalized [S] is a registry entry, which in a
    registry of locked paths is what [isPathDirectlyLocked] tests) and [D]
    is not already present (an idempotent add), and it never copies a lock
    on a nested descendant of [S] to the corresponding descendant of [D]:
    only the copied root is locked. *)
Theorem copyLockForPath_locks_root_only (src dst : path) (σ : Env) :
  let S := normalizePath src in
  let D := normalizePath dst in
  let R := registryOf σ in
  let R' := registryOf (copyLockForPath src dst σ).2 in
  R' = (if bool_decide (S ∈ R ∧ D ∉ R) then R ++ [D] else R)
  ∧ registryOf (copyLockForPath src dst (copyLockForPath src dst σ).2).2 = R'
  ∧ (∀ rel, D ++ slash :: rel ∈ R' ↔ D ++ slash :: rel ∈ R)
  ∧ ((copyLockForPath src dst σ).1 = true ↔ S ∈ R)
  ∧ (Forall LockedPath R → (isPathDirectlyLocked (instance σ) src = true ↔ S ∈ R)).
Proof.
  cbv zeta.
  assert (∀ σ0, registryOf (copyLockForPath src dst σ0).2
                = if bool_decide (normalizePath src ∈ registryOf σ0
                                  ∧ normalizePath dst ∉ registryOf σ0)
                  then registryOf σ0 ++ [normalizePath dst] else registryOf σ0) as Hreg.
  { intros σ0.
    destruct (lockedFiles (config (instance σ0))) as [R|] eqn:ER.
    - assert (registryOf σ0 = R) as HR
        by (unfold registryOf, lockedFilesOrEmpty; by rewrite ER).
      rewrite (copyLockForPath_Some _ _ _ _ ER), HR.
      destruct (Js.includes (normalizePath src) R) eqn:ES.
      + apply includes_true in ES.
        destruct (Js.includes (normalizePath dst) R) eqn:ED; cbn [negb snd].
        * apply includes_true in ED. by rewrite bool_decide_eq_false_2 by tauto.
        * apply includes_false in ED. rewrite bool_decide_eq_true_2 by done.
          by rewrite registryOf_finish.
      + apply includes_false in ES. by rewrite bool_decide_eq_false_2 by tauto.
    - assert (registryOf σ0 = []) as HR
        by (unfold registryOf, lockedFilesOrEmpty; by rewrite ER).
      rewrite (copyLockForPath_None _ _ _ ER), HR.
      rewrite bool_decide_eq_false_2; [done|].
      intros [Hin _]. by apply elem_of_nil in Hin. }
  split_and!.
  - apply Hreg.
  - rewrite (Hreg (copyLockForPath src dst σ).2), Hreg.
    destruct (decide (normalizePath src ∈ registryOf σ
                      ∧ normalizePath dst ∉ registryOf σ)) as [H1|H1].
    + rewrite (bool_decide_eq_true_2 _ H1).
      rewrite bool_decide_eq_false_2; [done|].
      intros [_ Hnin]. apply Hnin. apply elem_of_app. right. left.
    + rewrite (bool_decide_eq_false_2 _ H1).
      by rewrite (bool_decide_eq_false_2 _ H1).
  - intros rel. rewrite Hreg. case_bool_decide; [|done].
    rewrite elem_of_app, list_elem_of_singleton. split; [|by left].
    intros [?|Heq]; [done|]. exfalso.
    apply (f_equal length) in Heq. rewrite length_app in Heq. cbn in Heq. lia.
  - destruct (lockedFiles (config (instance σ))) as [R|] eqn:ER.
    + assert (registryOf σ = R) as HR
        by (unfold registryOf, lockedFilesOrEmpty; by rewrite ER).
      rewrite (copyLockForPath_Some _ _ _ _ ER), HR.
      destruct (Js.includes (normalizePath src) R) eqn:ES.
      * apply includes_true in ES.
        by destruct (negb (Js.includes (normalizePath dst) R)).
      * apply includes_false in ES. done.
    + assert (registryOf σ = []) as HR
        by (unfold registryOf, lockedFilesOrEmpty; by rewrite ER).
      rewrite (copyLockForPath_None _ _ _ ER), HR. cbn.
      split; [done | by intros ?%elem_of_nil].
  - intros Hlp. rewrite isPathDirectlyLocked_gen. fold (registryOf σ).
    rewrite Forall_forall in Hlp. split.
    + intros (E & HE & HEq). pose proof (Hlp E HE) as HL. unfold LockedPath in HL.
      by rewrite HEq, HL.
    + intros HS. exists (normalizePath src). split; [done|].
      symmetry. apply normalizePath_idemp.
Qed.

(** The test of the specification: copying a locked ["a/b"] to ["a/c"]
    locks both, and the nested lock ["a/b/x"] is not copied to ["a/c/x"]. *)
Example copyLockForPath_nested :
  let σ := mkEnv (mkInstance "srv"
                    (mkConfig (Some [str "a/b"; str "a/b/x"])
                              (Some [str "a"; str "a/b"]))) [] in
  registryOf (copyLockForPath (str "a/b") (str "a/c") σ).2
  = [str "a/b"; str "a/b/x"; str "a/c"].
Proof. vm_compute. done. Qed.

(** ** Queries: [isPathLocked] and [containsLockedPath] *)

Section queries.
Implicit Types (i : Instance) (R F : list path) (P nt E L : path).

Lemma isPathLocked_loop_spec nt R :
  isPathLocked_loop nt R = true ↔
  ∃ E, E ∈ R ∧ (nt = normalizePath E ∨ ancestorOf (normalizePath E) nt).
Proof.
  induction R as [|E0 R IH]; cbn [isPathLocked_loop].
  - split; [done | by intros (E & ?%elem_of_nil & _)].
  - cbv zeta. case_decide as Heq.
    + split; [|done]. intros _. exists E0. split; [left | by left].
    + destruct (Js.startsWith nt (normalizePath E0 ++ [slash])) eqn:Hsw.
      * apply startsWith_ancestorOf in Hsw. split; [|done]. intros _.
        exists E0. split; [left | by right].
      * rewrite IH. assert (¬ ancestorOf (normalizePath E0) nt) as Hn.
        { rewrite <-startsWith_ancestorOf. by rewrite Hsw. }
        split.
        -- intros (E & HE & H). exists E. split; [by right | done].
        -- intros (E & HE & H). apply elem_of_cons in HE as [->|HE].
           ++ by destruct H.
           ++ by exists E.
Qed.

Lemma isPathLocked_gen i P :
  isPathLocked i P = true ↔
  ∃ E, E ∈ lockedFilesOrEmpty i
       ∧ (normalizePath P = normalizePath E
          ∨ ancestorOf (normalizePath E) (normalizePath P)).
Proof.
  unfold isPathLocked. cbv zeta. case_decide as Hlen.
  - apply length_zero_iff_nil in Hlen. rewrite Hlen.
    split; [done | by intros (E & ?%elem_of_nil & _)].
  - apply isPathLocked_loop_spec.
Qed.

Lemma head_filter_elem (Q : path → Prop) `{!∀ x, Decision (Q x)} R L :
  head (filter Q R) = Some L → L ∈ R ∧ Q L.
Proof.
  intros Hh. assert (L ∈ filter Q R) as Hin.
  { destruct (filter Q R); [done|]. injection Hh as ->. left. }
  apply list_elem_of_filter in Hin. tauto.
Qed.

Lemma head_filter_none (Q : path → Prop) `{!∀ x, Decision (Q x)} R :
  head (filter Q R) = None → ∀ L, L ∈ R → ¬ Q L.
Proof.
  intros Hh L HL HQ. assert (L ∈ filter Q R) as Hin
    by (apply list_elem_of_filter; done).
  destruct (filter Q R); [by apply elem_of_nil in Hin | done].
Qed.

Lemma containsLockedPath_scan_spec nt R :
  containsLockedPath_scan nt R
  = head (filter (λ L, ancestorOf nt (normalizePath L)) R).
Proof.
  induction R as [|L R IH]; [done|]. cbn [containsLockedPath_scan]. cbv zeta.
  destruct (Js.startsWith (normalizePath L) (nt ++ [slash])) eqn:Hsw.
  - apply startsWith_ancestorOf in Hsw. by rewrite filter_cons_True.
  - rewrite filter_cons_False; [done|].
    rewrite <-startsWith_ancestorOf. by rewrite Hsw.
Qed.

Lemma hasLockedContent_loop_spec nt F :
  hasLockedContent_loop nt F = true ↔ ∃ m, m ∈ F ∧ (m = nt ∨ ancestorOf nt m).
Proof.
  induction F as [|m0 F IH]; cbn [hasLockedContent_loop].
  - split; [done | by intros (m & ?%elem_of_nil & _)].
  - case_decide as Heq.
    + split; [|done]. intros _. exists m0. split; [left | by left].
    + destruct (Js.startsWith m0 (nt ++ [slash])) eqn:Hsw.
      * apply startsWith_ancestorOf in Hsw. split; [|done]. intros _.
        exists m0. split; [left | by right].
      * rewrite IH. assert (¬ ancestorOf nt m0) as Hn.
        { rewrite <-startsWith_ancestorOf. by rewrite Hsw. }
        split.
        -- intros (m & Hm & H). exists m. split; [by right | done].
        -- intros (m & Hm & H). apply elem_of_cons in Hm as [->|Hm].
           ++ by destruct H.
           ++ by exists m.
Qed.

(** The index may hold more than the closure: the fast path is sound as
    soon as it holds every proper ancestor of every entry. *)
Lemma containsLockedPath_scan_eq i P :
  (∀ e q, e ∈ lockedFilesOrEmpty i → ancestorOf q (normalizePath e) →
          q ∈ foldersOrEmpty i) →
  containsLockedPath i P
  = containsLockedPath_scan (normalizePath P) (lockedFilesOrEmpty i).
Proof.
  intros Hcov. unfold containsLockedPath. cbv zeta. case_decide as Hlen.
  - apply length_zero_iff_nil in Hlen. by rewrite Hlen.
  - destruct (bool_decide (0 < length (foldersOrEmpty i))
              && negb (hasLockedContent_loop (normalizePath P) (foldersOrEmpty i)))
      eqn:Hfast; [|done].
    apply andb_true_iff in Hfast as [_ Hno]. apply negb_true_iff in Hno.
    destruct (containsLockedPath_scan (normalizePath P) (lockedFilesOrEmpty i))
      as [L|] eqn:Hscan; [|done]. exfalso.
    rewrite containsLockedPath_scan_spec in Hscan.
    apply head_filter_elem in Hscan as [HL Hanc].
    assert (hasLockedContent_loop (normalizePath P) (foldersOrEmpty i) = true) as Hyes.
    { apply hasLockedContent_loop_spec. exists (normalizePath P).
      split; [by eapply Hcov | by left]. }
    congruence.
Qed.

Lemma collectFolders_IndexIsClosure i :
  foldersOrEmpty i = collectFolders (lockedFilesOrEmpty i) → IndexIsClosure i.
Proof. intros Heq q. rewrite Heq. apply elem_of_collectFolders. Qed.

End queries.

(** C6. [isPathLocked(instance, P)] returns [true] if and only if the
    normalized form of [P] equals some registry entry, or some registry
    entry [E] makes [E + "/"] a prefix of normalized [P]: a
    separator-bounded prefix test, never raw substring matching.  The code
    reads every entry in canonical form (first part); in a registry of
    locked paths, which are canonical, that is the entry itself (second
    part).  An entry ["a"] locks ["a/b"] but not the sibling ["ab"]. *)
Theorem isPathLocked_separator_bounded (i : Instance) (P : path) :
  (isPathLocked i P = true ↔
   ∃ E, E ∈ lockedFilesOrEmpty i
        ∧ (normalizePath P = normalizePath E
           ∨ ancestorOf (normalizePath E) (normalizePath P)))
  ∧ (Forall LockedPath (lockedFilesOrEmpty i) →
     (isPathLocked i P = true ↔
      normalizePath P ∈ lockedFilesOrEmpty i
      ∨ ∃ E, E ∈ lockedFilesOrEmpty i ∧ ancestorOf E (normalizePath P)))
  ∧ isPathLocked (mkInstance "srv" (mkConfig (Some [str "a"]) None)) (str "a/b") = true
  ∧ isPathLocked (mkInstance "srv" (mkConfig (Some [str "a"]) None)) (str "ab") = false.
Proof.
  split_and!; [apply isPathLocked_gen | | done | done].
  intros Hlp. rewrite isPathLocked_gen. rewrite Forall_forall in Hlp. split.
  - intros (E & HE & Hor). pose proof (Hlp E HE) as HEq. unfold LockedPath in HEq.
    rewrite HEq in Hor. destruct Hor as [Heq|Hanc].
    + left. by rewrite Heq.
    + right. by exists E.
  - intros [Hin|(E & HE & Hanc)].
    + exists (normalizePath P). split; [done|]. left.
      symmetry. apply normalizePath_idemp.
    + exists E. split; [done|]. right.
      pose proof (Hlp E HE) as HEq. unfold LockedPath in HEq. by rewrite HEq.
Qed.

(** C5. For every instance whose ancestor index equals the ancestor closure
    of its registry and every path [P], [containsLockedPath(instance, P)]
    returns a registry entry [L] such that normalized [P + "/"] is a prefix
    of [L] when such an entry exists, and [null] otherwise: the fast path
    never suppresses a positive answer, and the index-accelerated check is
    extensionally equal to the plain scan of the registry.  Entries are
    read in canonical form, which in a registry of locked paths is the
    entry itself (last part). *)
Theorem containsLockedPath_equals_plain_scan (i : Instance) (P : path) :
  IndexIsClosure i →
  containsLockedPath i P = plainScan i P
  ∧ (∀ L, containsLockedPath i P = Some L →
          L ∈ lockedFilesOrEmpty i
          ∧ ancestorOf (normalizePath P) (normalizePath L))
  ∧ (containsLockedPath i P = None →
     ∀ L, L ∈ lockedFilesOrEmpty i →
          ¬ ancestorOf (normalizePath P) (normalizePath L))
  ∧ (Forall LockedPath (lockedFilesOrEmpty i) →
     ∀ L, containsLockedPath i P = Some L → ancestorOf (normalizePath P) L).
Proof.
  intros Hcl.
  assert (containsLockedPath i P = plainScan i P) as Heq.
  { rewrite containsLockedPath_scan_eq.
    - apply containsLockedPath_scan_spec.
    - intros e q He Hq. apply Hcl. by exists e. }
  split_and!.
  - done.
  - intros L HL. rewrite Heq in HL. by apply head_filter_elem in HL.
  - intros HN. rewrite Heq in HN. unfold plainScan in HN.
    exact (head_filter_none _ _ HN).
  - intros Hlp L HL. rewrite Heq in HL. apply head_filter_elem in HL as [HL Hanc].
    rewrite Forall_forall in Hlp.
    pose proof (Hlp L HL) as HEq. unfold LockedPath in HEq. by rewrite <-HEq.
Qed.

Lemma containsLockedPath_equals_plain_scan_witness :
  let i := mkInstance "srv"
             (mkConfig (Some [str "x"; str "a/b/c.txt"; str "a/d"])
                       (Some [str "a"; str "a/b"])) in
  IndexIsClosure i
  ∧ containsLockedPath i (str "a\") = Some (str "a/b/c.txt")
  ∧ containsLockedPath i (str "a\") = plainScan i (str "a\").
Proof.
  cbv zeta. split_and!.
  - apply collectFolders_IndexIsClosure. vm_compute. reflexivity.
  - vm_compute. reflexivity.
  - apply containsLockedPath_equals_plain_scan.
    apply collectFolders_IndexIsClosure. vm_compute. reflexivity.
Defined.

(** ** The round trip [addLock], [removeLock] *)

Lemma lockedFiles_finish (lf : list path) (σ : Env) :
  lockedFiles (config (instance
    (store (updateFoldersWithLockedContent (setLockedFiles lf σ))))) = Some lf.
Proof. unfold updateFoldersWithLockedContent. by case_decide. Qed.

Lemma addThenRemove_fresh (P : path) (σ : Env) :
  normalizePath P ∉ registryOf σ →
  registryOf (addThenRemove P σ) = registryOf σ
  ∧ foldersOf (addThenRemove P σ) = collectFolders (registryOf σ).
Proof.
  intros Hnin. unfold addThenRemove, addLock. cbv zeta.
  fold (registryOf σ). apply includes_false in Hnin. rewrite Hnin. cbn [snd].
  apply includes_false in Hnin.
  unfold removeLock. cbv zeta. rewrite lockedFiles_finish.
  unfold Js.push. rewrite indexOf_app_fresh by done. cbn [snd].
  rewrite splice1_app_length, app_nil_r.
  by rewrite registryOf_finish, foldersOf_finish.
Qed.

(** C3, as amended.  [addLock(instance, P)] followed by
    [removeLock(instance, P)] restores the registry to exactly the array it
    was and the ancestor index to exactly the contents it had, for every
    instance state whose index is the ancestor closure of its registry and
    every path [P] whose normalized form is not a registry entry already. *)
Theorem addLock_removeLock_round_trip (P : path) (σ : Env) :
  IndexIsClosure (instance σ) →
  normalizePath P ∉ registryOf σ →
  registryOf (addThenRemove P σ) = registryOf σ
  ∧ ∀ q, q ∈ foldersOf (addThenRemove P σ) ↔ q ∈ foldersOf σ.
Proof.
  intros Hcl Hnin. destruct (addThenRemove_fresh P σ Hnin) as [HR HF].
  split; [done|]. intros q. rewrite HF, elem_of_collectFolders.
  symmetry. apply Hcl.
Qed.

Lemma addLock_removeLock_round_trip_witness :
  let σ := mkEnv (mkInstance "srv"
                    (mkConfig (Some [str "a/b/c.txt"]) (Some [str "a"; str "a/b"]))) [] in
  IndexIsClosure (instance σ)
  ∧ (normalizePath (str "a\d\") ∉ registryOf σ)
  ∧ config (instance (addLock (str "a\d\") σ).2)
    = mkConfig (Some [str "a/b/c.txt"; str "a/d"]) (Some [str "a"; str "a/b"])
  ∧ (registryOf (addThenRemove (str "a\d\") σ) = registryOf σ
     ∧ ∀ q, q ∈ foldersOf (addThenRemove (str "a\d\") σ) ↔ q ∈ foldersOf σ).
Proof.
  cbv zeta. split; [|split; [|split]].
  - apply collectFolders_IndexIsClosure. vm_compute. reflexivity.
  - vm_compute. intros Hin. by repeat (apply elem_of_cons in Hin as [Hin|Hin]; [discriminate|]);
      apply elem_of_nil in Hin.
  - vm_compute. reflexivity.
  - apply addLock_removeLock_round_trip.
    + apply collectFolders_IndexIsClosure. vm_compute. reflexivity.
    + vm_compute. intros Hin. by repeat (apply elem_of_cons in Hin as [Hin|Hin]; [discriminate|]);
        apply elem_of_nil in Hin.
Defined.

(** C3 as stated fails: on a path that is locked already [addLock] does
    nothing, and [removeLock] then takes the entry that was there out. *)
Lemma addLock_removeLock_round_trip_counterexample :
  let σ := mkEnv (mkInstance "srv" (mkConfig (Some [str "a"]) (Some []))) [] in
  ¬ (registryOf (addThenRemove (str "a") σ) = registryOf σ
     ∧ foldersOf (addThenRemove (str "a") σ) = foldersOf σ).
Proof. cbv zeta. vm_compute. intros [Heq _]. discriminate Heq. Qed.

(** ** The batch query [checkLockStatus] *)

Lemma containsLockedPath_is_scan (i : Instance) (P L : path) :
  containsLockedPath i P = Some L →
  L ∈ lockedFilesOrEmpty i ∧ ancestorOf (normalizePath P) (normalizePath L).
Proof.
  unfold containsLockedPath. cbv zeta. case_decide; [done|].
  destruct (_ && _); [done|]. rewrite containsLockedPath_scan_spec.
  intros Hh. by apply head_filter_elem in Hh.
Qed.

Lemma isPathOrContentsLocked_cases (i : Instance) (t L : path) :
  isPathOrContentsLocked i t = Some L →
  (isPathLocked i t = true ∧ L = t)
  ∨ (isPathLocked i t = false ∧ L ∈ lockedFilesOrEmpty i
     ∧ ancestorOf (normalizePath t) (normalizePath L)).
Proof.
  unfold isPathOrContentsLocked. destruct (isPathLocked i t).
  - intros [= <-]. by left.
  - intros Hc. right. split; [done|]. by apply containsLockedPath_is_scan.
Qed.

Lemma ancestorOf_nonempty (q e : path) : ancestorOf q e → e ≠ [].
Proof. intros [k ->]. by destruct q. Qed.

Lemma normalizePath_nonempty (p : path) : normalizePath p ≠ [] → p ≠ [].
Proof. by intros Hne ->. Qed.

Lemma isPathOrContentsLocked_truthy (i : Instance) (t L : path) :
  t ≠ [] → isPathOrContentsLocked i t = Some L → Js.truthy L = true.
Proof.
  intros Ht HL. apply truthy_true.
  apply isPathOrContentsLocked_cases in HL as [[_ ->]|(_ & _ & Hanc)]; [done|].
  by eapply normalizePath_nonempty, ancestorOf_nonempty.
Qed.

Lemma foldl_checkOne_contents (i : Instance) (targets acc : list path) :
  Forall (λ t, t ≠ []) targets →
  foldl (checkOne i true) acc targets
  = acc ++ omap (isPathOrContentsLocked i) targets.
Proof.
  revert acc. induction targets as [|t targets IH]; intros acc Hne.
  - cbn. by rewrite app_nil_r.
  - apply Forall_cons in Hne as [Ht Hne]. cbn [foldl omap list_omap].
    rewrite IH by done. unfold checkOne.
    destruct (isPathOrContentsLocked i t) as [L|] eqn:EL; [|done].
    rewrite (isPathOrContentsLocked_truthy i t L) by done.
    unfold Js.push. by rewrite <-app_assoc.
Qed.

Lemma containsLockedPath_plainScan (i : Instance) (P : path) :
  IndexIsClosure i → containsLockedPath i P = plainScan i P.
Proof.
  intros Hcl. rewrite containsLockedPath_scan_eq.
  - apply containsLockedPath_scan_spec.
  - intros e q He Hq. apply Hcl. by exists e.
Qed.

Lemma plainScan_is_Some (i : Instance) (P : path) :
  is_Some (plainScan i P)
  ↔ ∃ E, E ∈ lockedFilesOrEmpty i ∧ ancestorOf (normalizePath P) (normalizePath E).
Proof.
  unfold plainScan. split.
  - intros [L HL]. apply head_filter_elem in HL. by exists L.
  - intros (E & HE & Hanc).
    destruct (head (filter (λ L, ancestorOf (normalizePath P) (normalizePath L))
                           (lockedFilesOrEmpty i))) as [L|] eqn:EL; [done|].
    by destruct (head_filter_none _ _ EL E HE).
Qed.

Lemma omap_pointwise (f g : path → option path) (l : list path) :
  (∀ t, f t = g t) → omap f l = omap g l.
Proof.
  intros Hfg. induction l as [|t l IH]; [done|].
  cbn [omap list_omap]. by rewrite Hfg, IH.
Qed.

Lemma length_omap_filter (f : path → option path) (l : list path) :
  length (omap f l) = length (filter (λ t, is_Some (f t)) l).
Proof.
  induction l as [|t l IH]; [done|]. cbn [omap list_omap].
  destruct (f t) as [L|] eqn:E.
  - rewrite filter_cons_True by (by rewrite E). cbn. by rewrite IH.
  - rewrite filter_cons_False; [done|]. rewrite E. by intros [? ?].
Qed.

Lemma elem_of_omap_is_Some (f : path → option path) (l : list path) :
  omap f l ≠ [] ↔ ∃ t, t ∈ l ∧ is_Some (f t).
Proof.
  induction l as [|t l IH].
  - split; [done|]. by intros (t & ?%elem_of_nil & _).
  - cbn [omap list_omap]. destruct (f t) as [L|] eqn:E.
    + split; [|done]. intros _. exists t. split; [left | by rewrite E].
    + rewrite IH. split.
      * intros (t' & Hin & Hs). exists t'. split; [by right | done].
      * intros (t' & Hin & Hs). apply elem_of_cons in Hin as [->|Hin].
        -- rewrite E in Hs. by destruct Hs.
        -- by exists t'.
Qed.

(** C2, as amended.  For every instance whose index is the ancestor
    closure of its registry and every list of non-empty input target
    paths, [checkLockStatus] with [checkContents = true] returns
    [lockedPaths] with exactly one entry per offending input path, in input
    order.  An input is offending when a registry entry, read in canonical
    form, is the canonical input, lies above it or lies under it.  The
    entry reported is the input path itself when it or an ancestor of it is
    locked, and otherwise the first registry entry that lies under the
    input: an underlying registry entry, not the input.  [hasLocked] is
    [true] if and only if [lockedPaths] is non-empty, that is, if and only
    if some input is offending. *)
Theorem checkLockStatus_reports (i : Instance) (targets : list path) :
  IndexIsClosure i →
  Forall (λ t, t ≠ []) targets →
  let offending t :=
    ∃ E, E ∈ lockedFilesOrEmpty i
         ∧ (normalizePath t = normalizePath E
            ∨ ancestorOf (normalizePath E) (normalizePath t)
            ∨ ancestorOf (normalizePath t) (normalizePath E)) in
  lockedPaths (checkLockStatus i targets true)
  = omap (isPathOrContentsLocked i) targets
  ∧ (hasLocked (checkLockStatus i targets true) = true
     ↔ lockedPaths (checkLockStatus i targets true) ≠ [])
  ∧ (∀ t L, isPathOrContentsLocked i t = Some L →
            (isPathLocked i t = true ∧ L = t)
            ∨ (isPathLocked i t = false ∧ L ∈ lockedFilesOrEmpty i
               ∧ ancestorOf (normalizePath t) (normalizePath L)))
  ∧ lockedPaths (checkLockStatus i targets true)
    = omap (λ t, if isPathLocked i t then Some t else plainScan i t) targets
  ∧ (∀ t, isPathLocked i t = true → isPathOrContentsLocked i t = Some t)
  ∧ (∀ t, isPathLocked i t = false → isPathOrContentsLocked i t = plainScan i t)
  ∧ (∀ t, is_Some (isPathOrContentsLocked i t) ↔ offending t)
  ∧ length (lockedPaths (checkLockStatus i targets true))
    = length (filter (λ t, is_Some (isPathOrContentsLocked i t)) targets)
  ∧ (hasLocked (checkLockStatus i targets true) = true
     ↔ ∃ t, t ∈ targets ∧ offending t).
Proof.
  intros Hcl Hne. cbv zeta.
  assert (lockedPaths (checkLockStatus i targets true)
          = omap (isPathOrContentsLocked i) targets) as Hlp.
  { unfold checkLockStatus. cbn [lockedPaths]. by rewrite foldl_checkOne_contents. }
  assert (hasLocked (checkLockStatus i targets true) = true
          ↔ lockedPaths (checkLockStatus i targets true) ≠ []) as Hhas.
  { unfold checkLockStatus. cbn [hasLocked lockedPaths].
    rewrite bool_decide_eq_true.
    destruct (foldl (checkOne i true) [] targets); cbn; [|split; [done | lia]].
    split; [lia | done]. }
  assert (∀ t, isPathOrContentsLocked i t
               = if isPathLocked i t then Some t else plainScan i t) as Hrep.
  { intros t. unfold isPathOrContentsLocked.
    destruct (isPathLocked i t); [done|]. by apply containsLockedPath_plainScan. }
  assert (∀ t, is_Some (isPathOrContentsLocked i t)
               ↔ ∃ E, E ∈ lockedFilesOrEmpty i
                      ∧ (normalizePath t = normalizePath E
                         ∨ ancestorOf (normalizePath E) (normalizePath t)
                         ∨ ancestorOf (normalizePath t) (normalizePath E))) as Hoff.
  { intros t. rewrite Hrep. destruct (isPathLocked i t) eqn:El.
    - split; [|done]. intros _.
      apply isPathLocked_gen in El as (E & HE & Hor). exists E. tauto.
    - rewrite plainScan_is_Some. split.
      + intros (E & HE & Hanc). exists E. tauto.
      + intros (E & HE & [Heq|[Hup|Hdown]]).
        * assert (isPathLocked i t = true) as Ht
            by (apply isPathLocked_gen; exists E; tauto). congruence.
        * assert (isPathLocked i t = true) as Ht
            by (apply isPathLocked_gen; exists E; tauto). congruence.
        * by exists E. }
  split_and!.
  - exact Hlp.
  - exact Hhas.
  - apply isPathOrContentsLocked_cases.
  - rewrite Hlp. by apply omap_pointwise.
  - intros t Ht. by rewrite Hrep, Ht.
  - intros t Ht. by rewrite Hrep, Ht.
  - exact Hoff.
  - rewrite Hlp. apply length_omap_filter.
  - rewrite Hhas, Hlp, elem_of_omap_is_Some.
    split; intros (t & Hin & Ht); exists t; (split; [done|]); by apply Hoff.
Qed.

Lemma checkLockStatus_reports_witness :
  let i := mkInstance "srv"
             (mkConfig (Some [str "a/b.txt"; str "c"; str "a/z"]) (Some [str "a"])) in
  let targets := [str "a"; str "free"; str "c/d"] in
  IndexIsClosure i
  ∧ Forall (λ t, t ≠ []) targets
  ∧ lockedPaths (checkLockStatus i targets true) = [str "a/b.txt"; str "c/d"]
  ∧ lockedPaths (checkLockStatus i targets true)
    = omap (λ t, if isPathLocked i t then Some t else plainScan i t) targets.
Proof.
  cbv zeta.
  assert (IndexIsClosure (mkInstance "srv"
            (mkConfig (Some [str "a/b.txt"; str "c"; str "a/z"]) (Some [str "a"]))))
    as Hcl by (apply collectFolders_IndexIsClosure; vm_compute; reflexivity).
  assert (Forall (λ t : path, t ≠ []) [str "a"; str "free"; str "c/d"]) as Hne
    by (repeat constructor; discriminate).
  split; [exact Hcl|]. split; [exact Hne|]. split; [vm_compute; reflexivity|].
  exact (proj1 (proj2 (proj2 (proj2 (checkLockStatus_reports _ _ Hcl Hne))))).
Defined.

(** C2 as stated fails: for an input folder that holds a lock the entry of
    [lockedPaths] is the registry entry found inside it, not the input. *)
Lemma checkLockStatus_counterexample :
  let i := mkInstance "srv" (mkConfig (Some [str "a/b.txt"]) (Some [str "a"])) in
  lockedPaths (checkLockStatus i [str "a"] true) = [str "a/b.txt"]
  ∧ lockedPaths (checkLockStatus i [str "a"] true)
    ≠ filter (λ t, is_Some (isPathOrContentsLocked i t)) [str "a"].
Proof. cbv zeta. split; [vm_compute; reflexivity|]. vm_compute. discriminate. Qed.

(** ** Propagation of move: [moveLockForPath] *)

Section move.
Implicit Types (σ : Env) (R : list path) (S D e : path).

Lemma unrelated_rebase S D e : unrelated S D → ¬ ancestorOf S (rebase S D e).
Proof.
  intros [H1 H2] Hanc. unfold ancestorOf, rebase in Hanc. rewrite app_assoc in Hanc.
  destruct (prefix_weak_total (S ++ [slash]) (D ++ [slash])
              ((D ++ [slash]) ++ drop (length (S ++ [slash])) e)) as [?|?];
    [done | by apply prefix_app_r | done | done].
Qed.

Lemma unrelated_not_under S D : unrelated S D → ¬ ancestorOf S D.
Proof. intros [H1 _] Hanc. apply H1. by apply prefix_app_r. Qed.

Lemma unrelated_not_over S D : unrelated S D → ¬ ancestorOf D S.
Proof. intros [_ H2] Hanc. apply H2. by apply prefix_app_r. Qed.

Lemma unrelated_ne S D : unrelated S D → S ≠ D.
Proof. intros [H1 _] ->. by apply H1. Qed.

Lemma moveCase1_NoDup S D R : NoDup R → NoDup (moveCase1 S D R).2.
Proof.
  intros Hnd. unfold moveCase1.
  destruct (Js.indexOf S R) as [i|] eqn:E; [|done]. cbv zeta. cbn [snd].
  assert (NoDup (Js.splice1 i R)) as Hnd'.
  { eapply sublist_NoDup; [done | apply sublist_delete]. }
  destruct (Js.includes D (Js.splice1 i R)) eqn:Einc; [done|].
  apply includes_false in Einc. unfold Js.push.
  apply NoDup_app. split_and!; [done| |apply NoDup_singleton].
  intros x Hx ->%list_elem_of_singleton. done.
Qed.

Lemma elem_of_moveCase1 S D R e :
  NoDup R →
  e ∈ (moveCase1 S D R).2 ↔ (e ∈ R ∧ e ≠ S) ∨ (S ∈ R ∧ e = D).
Proof.
  intros Hnd. unfold moveCase1.
  destruct (Js.indexOf S R) as [i|] eqn:E; cbv zeta; cbn [snd].
  - apply indexOf_Some in E as (l1 & l2 & HR & Hnin & _ & Hsp).
    assert (S ∈ R) as HS by (rewrite HR, elem_of_app; right; left).
    assert (∀ y, y ∈ Js.splice1 i R ↔ y ∈ R ∧ y ≠ S) as Hel.
    { intros y. rewrite Hsp. rewrite <-(removeFirst_app_fresh S l1 l2), <-HR by done.
      by apply elem_of_removeFirst_NoDup. }
    destruct (Js.includes D (Js.splice1 i R)) eqn:Einc.
    + apply includes_true in Einc. rewrite Hel. split; [by left|].
      intros [?|[_ ->]]; [done | by apply Hel].
    + unfold Js.push. rewrite elem_of_app, list_elem_of_singleton, Hel. tauto.
  - apply indexOf_None in E. split.
    + intros He. left. split; [done | by intros ->].
    + intros [[? _]|[? _]]; done.
Qed.

Lemma moveLockForPath_registry src dst σ R :
  lockedFiles (config (instance σ)) = Some R →
  registryOf (moveLockForPath src dst σ).2
  = (foldl applyUpdate (moveCase1 (normalizePath src) (normalizePath dst) R)
       (collectUpdatedPaths (normalizePath src ++ [slash]) (normalizePath dst)
          (moveCase1 (normalizePath src) (normalizePath dst) R).2)).2.
Proof.
  intros ER. rewrite (moveLockForPath_unfold _ _ _ _ ER). cbv zeta.
  set (st := foldl applyUpdate _ _). destruct st.1; cbn [snd].
  - by rewrite registryOf_finish.
  - done.
Qed.

Lemma relabel_self S D : relabel S D S = D.
Proof. unfold relabel. by rewrite decide_True. Qed.

Lemma relabel_under S D e : ancestorOf S e → relabel S D e = rebase S D e.
Proof.
  intros He. unfold relabel. rewrite decide_False.
  - apply startsWith_ancestorOf in He. by rewrite He.
  - intros ->. by apply ancestorOf_irrefl in He.
Qed.

Lemma relabel_other S D e : e ≠ S → ¬ ancestorOf S e → relabel S D e = e.
Proof.
  intros Hne He. unfold relabel. rewrite decide_False by done.
  rewrite <-startsWith_ancestorOf in He. by apply not_true_is_false in He as ->.
Qed.

(** On a deduplicated registry and unrelated paths a move is the
    relabelling of every entry. *)
Lemma moveLockForPath_relabel src dst σ e :
  NoDup (registryOf σ) →
  unrelated (normalizePath src) (normalizePath dst) →
  e ∈ registryOf (moveLockForPath src dst σ).2
  ↔ ∃ e0, e0 ∈ registryOf σ ∧ e = relabel (normalizePath src) (normalizePath dst) e0.
Proof.
  intros Hnd Hun.
  destruct (lockedFiles (config (instance σ))) as [R|] eqn:ER.
  - assert (registryOf σ = R) as HR
      by (unfold registryOf, lockedFilesOrEmpty; by rewrite ER).
    rewrite HR in *. rewrite (moveLockForPath_registry _ _ _ _ ER).
    set (S := normalizePath src) in *. set (D := normalizePath dst) in *.
    destruct (reroot_loop_all S D (moveCase1 S D R).2 (moveCase1 S D R).1)
      with (st := foldl applyUpdate (moveCase1 S D R)
                    (collectUpdatedPaths (S ++ [slash]) D (moveCase1 S D R).2))
      as [Hm _].
    { intros e'. by apply unrelated_rebase. }
    { by rewrite <-surjective_pairing. }
    rewrite Hm. clear Hm. split.
    + intros [[Hin Hu]|(o & Hin & Hu & ->)].
      * rewrite elem_of_moveCase1 in Hin by done.
        destruct Hin as [[Hin Hne]|[HS ->]].
        -- exists e. split; [done|]. by rewrite relabel_other.
        -- exists S. split; [done|]. by rewrite relabel_self.
      * rewrite elem_of_moveCase1 in Hin by done.
        destruct Hin as [[Hin Hne]|[HS ->]].
        -- exists o. split; [done|]. by rewrite relabel_under.
        -- exfalso. by apply (unrelated_not_under S D).
    + intros (e0 & Hin & ->). destruct (decide (e0 = S)) as [->|Hne].
      * rewrite relabel_self. left. split; [|by apply unrelated_not_under].
        apply elem_of_moveCase1; [done|]. by right.
      * destruct (decide (ancestorOf S e0)) as [Hu|Hu].
        -- rewrite relabel_under by done. right. exists e0. split_and!; [|done..].
           apply elem_of_moveCase1; [done|]. by left.
        -- rewrite relabel_other by done. left. split; [|done].
           apply elem_of_moveCase1; [done|]. by left.
  - assert (registryOf σ = []) as HR
      by (unfold registryOf, lockedFilesOrEmpty; by rewrite ER).
    unfold moveLockForPath. rewrite ER. cbn [snd]. rewrite HR. split.
    + by intros ?%elem_of_nil.
    + by intros (e0 & ?%elem_of_nil & _).
Qed.

Lemma moveLockForPath_NoDup src dst σ :
  NoDup (registryOf σ) → NoDup (registryOf (moveLockForPath src dst σ).2).
Proof.
  intros Hnd. destruct (lockedFiles (config (instance σ))) as [R|] eqn:ER.
  - assert (registryOf σ = R) as HR
      by (unfold registryOf, lockedFilesOrEmpty; by rewrite ER).
    rewrite HR in *. rewrite (moveLockForPath_registry _ _ _ _ ER).
    generalize (collectUpdatedPaths (normalizePath src ++ [slash]) (normalizePath dst)
                  (moveCase1 (normalizePath src) (normalizePath dst) R).2).
    pose proof (moveCase1_NoDup (normalizePath src) (normalizePath dst) R Hnd) as H1.
    revert H1. generalize (moveCase1 (normalizePath src) (normalizePath dst) R).
    intros st Hst us. revert st Hst.
    induction us as [|u us IH]; intros st Hst; [done|].
    cbn [foldl]. apply IH. by apply applyUpdate_NoDup.
  - unfold moveLockForPath. by rewrite ER.
Qed.

End move.

(** C7, as amended.  For every instance whose registry holds no entry
    twice and normalized source [S] and destination [D] that are distinct
    with neither lying under the other: if [S] is a direct registry entry,
    [moveLockForPath] removes [S] and adds [D] (not duplicating a [D] that
    is present already), and every registry entry with prefix [S + "/"] has
    that prefix rewritten to [D + "/"]; every other entry stays.  So with
    ["a/b/c.txt"] locked, [moveLockForPath("a/b", "x/y")] leaves
    ["x/y/c.txt"] locked, ["a/b/c.txt"] absent, and ["a/b"] no entry. *)
Theorem moveLockForPath_relabels (src dst : path) (σ : Env) :
  NoDup (registryOf σ) →
  unrelated (normalizePath src) (normalizePath dst) →
  let S := normalizePath src in
  let D := normalizePath dst in
  let R := registryOf σ in
  let R' := registryOf (moveLockForPath src dst σ).2 in
  (∀ e, e ∈ R' ↔ ∃ e0, e0 ∈ R ∧ e = relabel S D e0)
  ∧ NoDup R'
  ∧ (S ∉ R')
  ∧ (S ∈ R → D ∈ R')
  ∧ (∀ rel, S ++ slash :: rel ∈ R →
            D ++ slash :: rel ∈ R' ∧ S ++ slash :: rel ∉ R')
  ∧ (∀ e, e ∈ R → e ≠ S → ¬ ancestorOf S e → e ∈ R').
Proof.
  intros Hnd Hun. cbv zeta.
  pose proof (λ e, moveLockForPath_relabel src dst σ e Hnd Hun) as Hrel.
  set (S := normalizePath src) in *. set (D := normalizePath dst) in *.
  assert (∀ rel, ancestorOf S (S ++ slash :: rel)) as Hunder.
  { intros rel. exists rel. by rewrite <-app_assoc. }
  assert (∀ rel, rebase S D (S ++ slash :: rel) = D ++ slash :: rel) as Hreb.
  { intros rel. destruct (rebase_under S D _ (Hunder rel)) as (k & Hk & ->).
    apply app_inv_head in Hk. by injection Hk as ->. }
  split_and!.
  - done.
  - by apply moveLockForPath_NoDup.
  - intros (e0 & Hin & Heq)%Hrel. destruct (decide (e0 = S)) as [->|Hne].
    + rewrite relabel_self in Heq. by apply (unrelated_ne S D).
    + destruct (decide (ancestorOf S e0)) as [Hu|Hu].
      * rewrite relabel_under in Heq by done.
        destruct (rebase_under S D _ Hu) as (k & _ & Hk). rewrite Hk in Heq.
        apply (unrelated_not_over S D Hun). exists k. by rewrite <-app_assoc.
      * rewrite relabel_other in Heq by done. done.
  - intros HS. apply Hrel. exists S. split; [done|]. by rewrite relabel_self.
  - intros rel Hin. split.
    + apply Hrel. exists (S ++ slash :: rel). split; [done|].
      by rewrite relabel_under, Hreb.
    + intros (e0 & Hin0 & Heq)%Hrel. destruct (decide (e0 = S)) as [->|Hne].
      * rewrite relabel_self in Heq. apply (unrelated_not_under S D Hun).
        rewrite <-Heq. apply Hunder.
      * destruct (decide (ancestorOf S e0)) as [Hu|Hu].
        -- rewrite relabel_under in Heq by done.
           apply (unrelated_rebase S D e0 Hun). rewrite <-Heq. apply Hunder.
        -- rewrite relabel_other in Heq by done. subst e0. apply Hu, Hunder.
  - intros e Hin Hne Hu. apply Hrel. exists e. split; [done|].
    by rewrite relabel_other.
Qed.

Lemma moveLockForPath_relabels_witness :
  let σ := mkEnv (mkInstance "srv"
                    (mkConfig (Some [str "a/b"; str "a/b/c.txt"; str "a/bc"])
                              (Some [str "a"; str "a/b"]))) [] in
  NoDup (registryOf σ)
  ∧ unrelated (normalizePath (str "a/b")) (normalizePath (str "x/y"))
  ∧ registryOf (moveLockForPath (str "a/b") (str "x/y") σ).2
    = [str "a/bc"; str "x/y"; str "x/y/c.txt"]
  ∧ (normalizePath (str "a/b")
     ∉ registryOf (moveLockForPath (str "a/b") (str "x/y") σ).2).
Proof.
  cbv zeta.
  assert (NoDup (registryOf (mkEnv (mkInstance "srv"
                    (mkConfig (Some [str "a/b"; str "a/b/c.txt"; str "a/bc"])
                              (Some [str "a"; str "a/b"]))) []))) as Hnd.
  { refine (bool_decide_unpack _ _). vm_compute. exact I. }
  assert (unrelated (normalizePath (str "a/b")) (normalizePath (str "x/y"))) as Hun.
  { split; intros [k Hk]; vm_compute in Hk; discriminate Hk. }
  split; [exact Hnd | split; [exact Hun | split]].
  - vm_compute. reflexivity.
  - apply (moveLockForPath_relabels (str "a/b") (str "x/y") _ Hnd Hun).
Defined.

(** The test of the specification: with ["a/b/c.txt"] locked, the move of
    ["a/b"] to ["x/y"] leaves ["x/y/c.txt"] locked and ["a/b/c.txt"]
    absent, and ["a/b"], which was no entry, is none afterwards. *)
Example moveLockForPath_subtree :
  let σ := mkEnv (mkInstance "srv"
                    (mkConfig (Some [str "a/b/c.txt"]) (Some [str "a"; str "a/b"]))) [] in
  config (instance (moveLockForPath (str "a/b") (str "x/y") σ).2)
  = mkConfig (Some [str "x/y/c.txt"]) (Some [str "x"; str "x/y"]).
Proof. vm_compute. done. Qed.

(** C7 as stated fails when the destination lies under the source: the
    destination just added is itself re-rooted by the second case. *)
Lemma moveLockForPath_counterexample :
  let σ := mkEnv (mkInstance "srv" (mkConfig (Some [str "a"]) (Some []))) [] in
  str "a" ∈ registryOf σ
  ∧ normalizePath (str "a") = str "a"
  ∧ normalizePath (str "a/b") = str "a/b"
  ∧ registryOf (moveLockForPath (str "a") (str "a/b") σ).2 = [str "a/b/b"]
  ∧ (str "a/b" ∉ registryOf (moveLockForPath (str "a") (str "a/b") σ).2).
Proof.
  cbv zeta. split_and!; try (vm_compute; reflexivity).
  - left.
  - vm_compute. intros Hin. apply list_elem_of_singleton in Hin. discriminate Hin.
Qed.

(** ** The lock-enforcement middleware *)

Section middleware.
Implicit Types (d : Daemon) (data : Data) (next : Daemon → Daemon)
               (c : FileLockCheckConfig) (i : Instance) (ev : string).

Lemma config_events : event <$> FILE_LOCK_CHECK_CONFIGS = governedEvents.
Proof. reflexivity. Qed.

Lemma governed_config_facts c :
  In c FILE_LOCK_CHECK_CONFIGS →
  adminOnly c = None ∧ String.prefix "file/" (event c) = true
  ∧ event c ∈ governedEvents.
Proof.
  unfold FILE_LOCK_CHECK_CONFIGS. cbn [In].
  intros [<-|[<-|[<-|[<-|[<-|[<-|[<-|[]]]]]]]]; cbn;
    (split_and!; [done | done | apply list_elem_of_In; cbn; tauto]).
Qed.

Lemma findConfig_Some ev c :
  findConfig ev = Some c →
  event c = ev ∧ adminOnly c = None ∧ String.prefix "file/" ev = true
  ∧ ev ∈ governedEvents.
Proof.
  intros Hf. apply List.find_some in Hf as [Hin Heq].
  apply String.eqb_eq in Heq. subst ev.
  split; [done|]. by apply governed_config_facts.
Qed.

Lemma findConfig_None ev : ev ∉ governedEvents → findConfig ev = None.
Proof.
  intros Hnin. destruct (findConfig ev) as [c|] eqn:Hf; [|done].
  apply findConfig_Some in Hf. tauto.
Qed.

(** An operation without a configuration entry is always forwarded. *)
Lemma fileLockMiddleware_ungoverned ev data next d :
  ev ∉ governedEvents → fileLockMiddleware ev data next d = next d.
Proof.
  intros Hnin. unfold fileLockMiddleware. rewrite findConfig_None by done.
  by destruct (negb (String.prefix "file/" ev)).
Qed.

(** The admin flag forwards whatever the request names. *)
Lemma fileLockMiddleware_admin ev data next d :
  d_isAdmin data = Some true → fileLockMiddleware ev data next d = next d.
Proof.
  intros Hadm. unfold fileLockMiddleware.
  destruct (negb (String.prefix "file/" ev)); [done|].
  destruct (findConfig ev) as [c|]; [|done].
  destruct (bool_decide (adminOnly c = Some true)); [done|].
  by rewrite bool_decide_eq_true_2.
Qed.

(** An empty candidate list forwards. *)
Lemma fileLockMiddleware_no_targets ev c data next d :
  findConfig ev = Some c → getTargets c data = [] →
  fileLockMiddleware ev data next d = next d.
Proof.
  intros Hf Ht. unfold fileLockMiddleware. rewrite Hf, Ht.
  destruct (negb (String.prefix "file/" ev)); [done|].
  destruct (bool_decide (adminOnly c = Some true)); [done|].
  destruct (bool_decide (d_isAdmin data = Some true)); [done|].
  destruct (d_instanceUuid data) as [uuid|]; [|done].
  by destruct (bool_decide (uuid = EmptyString)).
Qed.

(** On candidates none of which is the empty string the loop of
    [checkTargetsLocked] finds a path exactly when a candidate is locked
    under the check mode. *)
Lemma checkTargetsLocked_loop_spec i (cc : bool) (targets : list path) :
  Forall (λ t, t ≠ []) targets →
  truthyResult (checkTargetsLocked_loop i cc targets) = true
  ↔ ∃ t, t ∈ targets ∧ lockedUnder cc i t.
Proof.
  induction targets as [|t targets IH]; intros Hne.
  - cbn. split; [done | by intros (t & ?%elem_of_nil & _)].
  - apply Forall_cons in Hne as [Ht Hne]. specialize (IH Hne).
    cbn [checkTargetsLocked_loop]. destruct cc; cbv zeta.
    + destruct (isPathOrContentsLocked i t) as [L|] eqn:EL.
      * assert (truthyResult (Some L) = true) as HL
          by (cbn; by eapply isPathOrContentsLocked_truthy).
        rewrite HL, HL. split; [|done]. intros _. exists t.
        split; [left|]. unfold lockedUnder. by rewrite EL.
      * cbn [truthyResult]. rewrite IH. split.
        -- intros (t' & Hin & Hl). exists t'. split; [by right | done].
        -- intros (t' & Hin & Hl). apply elem_of_cons in Hin as [->|Hin].
           ++ unfold lockedUnder in Hl. rewrite EL in Hl. by destruct Hl.
           ++ by exists t'.
    + destruct (isPathLocked i t) eqn:EL.
      * cbn [truthyResult]. split; [|intros _; by apply truthy_true]. intros _.
        exists t. split; [left | done].
      * rewrite IH. split.
        -- intros (t' & Hin & Hl). exists t'. split; [by right | done].
        -- intros (t' & Hin & Hl). apply elem_of_cons in Hin as [->|Hin].
           ++ unfold lockedUnder in Hl. congruence.
           ++ by exists t'.
Qed.

(** The decision of the middleware for a non-admin request on an instance
    that exists, when no candidate is the empty string: the request is
    rejected, and [next] is not run, exactly when a candidate is locked
    under the check mode of the operation. *)
Lemma fileLockMiddleware_decision ev c data next d uuid i :
  findConfig ev = Some c →
  d_isAdmin data ≠ Some true →
  d_instanceUuid data = Some uuid → uuid ≠ EmptyString →
  getInstance d uuid = Some i →
  getTargets c data ≠ [] →
  Forall (λ t, t ≠ []) (getTargets c data) →
  let cc := negb (bool_decide (checkContents c = Some false)) in
  ((∃ t, t ∈ getTargets c data ∧ lockedUnder cc i t) →
   fileLockMiddleware ev data next d
   = send (ProtocolError ev "TXT_CODE_file_locked_error") d)
  ∧ (¬ (∃ t, t ∈ getTargets c data ∧ lockedUnder cc i t) →
     fileLockMiddleware ev data next d = next d).
Proof.
  intros Hf Hadm Hu Hune Hi Hts Hne. cbv zeta.
  pose proof (findConfig_Some _ _ Hf) as (_ & Hao & Hpre & _).
  unfold fileLockMiddleware. rewrite Hf, Hpre, Hao, Hu. cbn [negb].
  rewrite (bool_decide_eq_false_2 (None = Some true)) by done.
  rewrite (bool_decide_eq_false_2 (d_isAdmin data = Some true)) by done.
  rewrite (bool_decide_eq_false_2 (uuid = EmptyString)) by done.
  rewrite (bool_decide_eq_false_2 (length (getTargets c data) = 0)).
  2:{ intros Hl. by apply length_zero_iff_nil in Hl. }
  unfold checkTargetsLocked. rewrite Hi.
  pose proof (checkTargetsLocked_loop_spec i
                (negb (bool_decide (checkContents c = Some false)))
                (getTargets c data) Hne) as Hspec.
  destruct (truthyResult (checkTargetsLocked_loop i _ (getTargets c data))).
  - split; [done|]. intros Hn. exfalso. apply Hn. by apply Hspec.
  - split; [|done]. intros Hex. apply Hspec in Hex. done.
Qed.

End middleware.

(** C1.  For a request of a governed operation the middleware forwards
    when the admin flag is true or when the extractor yields no candidate
    path; otherwise it rejects the whole request, without running the
    handler, if and only if some candidate is locked under the check mode
    of the operation.  The code does so for candidates that are non-empty
    strings ([fileLockMiddleware_admin], [fileLockMiddleware_no_targets],
    [fileLockMiddleware_decision]) and not for the empty string: once the
    root ["/"], whose canonical form is the empty string, is locked, the
    candidate [""] of a non-admin [file/delete] is locked under
    [isPathOrContentsLocked], which returns it, and the request is
    forwarded all the same, because the returned string is tested for its
    truth value. *)
Theorem fileLockMiddleware_forwards_locked_empty_path :
  let σ := (addLock (str "/") (mkEnv (mkInstance "srv" (mkConfig None None)) [])).2 in
  let d := mkDaemon {[ "srv" := instance σ ]} [] [] [] in
  let data := mkData (Some false) (Some "srv") None (Some [str ""]) None in
  registryOf σ = [str ""]
  ∧ (∃ c, findConfig "file/delete" = Some c ∧ getTargets c data = [str ""]
          ∧ checkContents c = Some true)
  ∧ isPathOrContentsLocked (instance σ) (str "") = Some (str "")
  ∧ lockedUnder true (instance σ) (str "")
  ∧ checkTargetsLocked d "srv" [str ""] true = None
  ∧ ∀ next, fileLockMiddleware "file/delete" data next d = next d.
Proof.
  cbv zeta. split_and!.
  - vm_compute. reflexivity.
  - eexists. split_and!; reflexivity.
  - vm_compute. reflexivity.
  - vm_compute. by eexists.
  - vm_compute. reflexivity.
  - intros next. vm_compute. reflexivity.
Qed.

(** The request of the specification's test: a non-admin delete of a
    directly locked path is rejected and the handler is not run; with the
    admin flag the same request is forwarded. *)
Example fileLockMiddleware_delete_locked :
  let i := mkInstance "srv" (mkConfig (Some [str "world"]) (Some [])) in
  let d := mkDaemon {[ "srv" := i ]} [] [] [] in
  let data adm := mkData adm (Some "srv") None (Some [str "logs"; str "world"]) None in
  (∀ next, fileLockMiddleware "file/delete" (data (Some false)) next d
           = send (ProtocolError "file/delete" "TXT_CODE_file_locked_error") d)
  ∧ (∀ next, fileLockMiddleware "file/delete" (data None) next d
             = send (ProtocolError "file/delete" "TXT_CODE_file_locked_error") d)
  ∧ (∀ next, fileLockMiddleware "file/delete" (data (Some true)) next d = next d).
Proof. cbv zeta. split_and!; intros next; vm_compute; reflexivity. Qed.

(** ** The handlers that propagate delete and create *)

Lemma fileRouterMiddleware_pass (ev : string) (data : Data) (next : Daemon → Daemon)
    (d : Daemon) (uuid : string) (i : Instance) :
  d_instanceUuid data = Some uuid →
  getInstance d uuid = Some i →
  uuid ∉ busy d →
  fileRouterMiddleware ev data next d = next d.
Proof.
  intros Hu Hi Hbusy. unfold fileRouterMiddleware. rewrite Hu.
  cbn [mbind option_bind default]. unfold id. rewrite Hi.
  rewrite (bool_decide_eq_false_2 (uuid ∈ busy d)) by done.
  by destruct (String.prefix "file/" ev).
Qed.

Lemma createHandler_clears (create_returns : string → option path → bool)
    (data : Data) (d : Daemon) (uuid : string) (i : Instance) (target : path) :
  d_instanceUuid data = Some uuid →
  getInstance d uuid = Some i →
  d_target data = Some target →
  create_returns uuid (Some target) = true →
  sent (createHandler create_returns data d) = sent d ++ [ProtocolResponse]
  ∧ lockedFilesOrEmpty <$> getInstance (createHandler create_returns data d) uuid
    = Some (clearPath (lockedFilesOrEmpty i) target).
Proof.
  intros Hu Hi Ht Hret. unfold createHandler. rewrite Hu.
  cbn [mbind option_bind]. rewrite Hi. cbv zeta. cbn [default]. unfold id.
  rewrite Ht, Hret.
  pose proof (removeLockForPath_registry target (mkEnv i (storage d))) as HR.
  destruct (removeLockForPath target (mkEnv i (storage d))) as [b σ'].
  cbn [snd] in HR. split; [done|].
  unfold getInstance, send, commit. cbn [instances].
  rewrite lookup_insert_eq. cbn [fmap option_fmap option_map]. f_equal. exact HR.
Qed.

Lemma deleteLoop_registry (round_returns : path → bool) (targets : list path) (σ : Env) :
  Forall (λ t, round_returns t = true) targets →
  (deleteLoop round_returns targets σ).1 = true
  ∧ registryOf (deleteLoop round_returns targets σ).2
    = foldl clearPath (registryOf σ) targets.
Proof.
  revert σ. induction targets as [|t targets IH]; intros σ Hret; [done|].
  apply Forall_cons in Hret as [Ht Hret]. cbn [deleteLoop foldl]. rewrite Ht.
  destruct (IH (removeLockForPath t σ).2 Hret) as [-> ->].
  by rewrite removeLockForPath_registry.
Qed.

(** The [file/delete] handler clears the locks of every target in turn. *)
Lemma deleteHandler_clears (fm : FileManager) (data : Data) (d : Daemon)
    (uuid : string) (i : Instance) (targets : list path) :
  d_instanceUuid data = Some uuid →
  getInstance d uuid = Some i →
  d_targets data = Some targets →
  Forall (λ t, delete_returns fm uuid t = true) targets →
  sent (deleteHandler fm data d) = sent d ++ [ProtocolResponse]
  ∧ lockedFilesOrEmpty <$> getInstance (deleteHandler fm data d) uuid
    = Some (foldl clearPath (lockedFilesOrEmpty i) targets).
Proof.
  intros Hu Hi Ht Hret. unfold deleteHandler. rewrite Hu.
  cbn [mbind option_bind]. rewrite Hi. cbv zeta. cbn [default]. unfold id.
  rewrite Ht.
  destruct (deleteLoop_registry (delete_returns fm uuid) targets
              (mkEnv i (storage d)) Hret) as [Hc HR].
  destruct (deleteLoop (delete_returns fm uuid) targets (mkEnv i (storage d)))
    as [b σ']. cbn [fst snd] in Hc, HR. subst b. split; [done|].
  unfold getInstance, send, commit. cbn [instances].
  rewrite lookup_insert_eq. cbn [fmap option_fmap option_map]. f_equal. exact HR.
Qed.

(** C10.  The configuration table of the lock-enforcement middleware covers
    only [file/list], [file/edit], [file/chmod], [file/copy], [file/move],
    [file/delete] and [file/compress]; every other event, [file/touch] and
    [file/mkdir] among them, is forwarded whoever calls, and the handlers of
    [file/touch] and [file/mkdir] call [removeLockForPath] on the target
    once the file manager has created it.  So a create request at a path
    [P], from a caller that is no admin as from any other, served for an
    instance that exists and is not busy, removes the direct lock of [P] and
    every lock nested under [P]. *)
Theorem create_requests_clear_locks (fm : FileManager) (data : Data) (d : Daemon)
    (uuid : string) (i : Instance) (target : path) :
  d_instanceUuid data = Some uuid →
  getInstance d uuid = Some i →
  uuid ∉ busy d →
  d_target data = Some target →
  newFile_returns fm uuid (Some target) = true →
  mkdir_returns fm uuid (Some target) = true →
  let x := normalizePath target in
  let R' := clearPath (lockedFilesOrEmpty i) target in
  event <$> FILE_LOCK_CHECK_CONFIGS = governedEvents
  ∧ (∀ ev data0 next d0,
       ev ∉ governedEvents → fileLockMiddleware ev data0 next d0 = next d0)
  ∧ (∀ d', d' = serveTouch fm data d ∨ d' = serveMkdir fm data d →
           sent d' = sent d ++ [ProtocolResponse]
           ∧ lockedFilesOrEmpty <$> getInstance d' uuid = Some R')
  ∧ (∀ e, ancestorOf x e → e ∉ R')
  ∧ (NoDup (lockedFilesOrEmpty i) → x ∉ R').
Proof.
  intros Hu Hi Hbusy Ht Htouch Hmkdir. cbv zeta.
  assert (("file/touch" ∉ governedEvents) ∧ ("file/mkdir" ∉ governedEvents)) as [Hto Hmk].
  { split; intros Hin; vm_compute in Hin;
      by repeat (apply elem_of_cons in Hin as [Hin|Hin]; [discriminate|]);
        apply elem_of_nil in Hin. }
  split_and!.
  - reflexivity.
  - intros ev data0 next d0. apply fileLockMiddleware_ungoverned.
  - intros d' [->| ->].
    + unfold serveTouch, serve.
      rewrite (fileRouterMiddleware_pass _ _ _ _ _ _ Hu Hi Hbusy).
      rewrite fileLockMiddleware_ungoverned by done.
      by apply createHandler_clears.
    + unfold serveMkdir, serve.
      rewrite (fileRouterMiddleware_pass _ _ _ _ _ _ Hu Hi Hbusy).
      rewrite fileLockMiddleware_ungoverned by done.
      by apply createHandler_clears.
  - intros e He. unfold clearPath. rewrite list_elem_of_filter. tauto.
  - intros Hnd. unfold clearPath.
    rewrite list_elem_of_filter, elem_of_removeFirst_NoDup by done. tauto.
Qed.

Lemma create_requests_clear_locks_witness :
  let fm := mkFileManager (λ _ _, true) (λ _ _, true) (λ _ _, true) in
  let i := mkInstance "srv"
             (mkConfig (Some [str "plugins"; str "plugins/a.jar"; str "plugins2"])
                       (Some [str "plugins"])) in
  let d := mkDaemon {[ "srv" := i ]} [] [] [] in
  let data := mkData (Some false) (Some "srv") (Some (str "plugins")) None None in
  getInstance d "srv" = Some i
  ∧ config <$> getInstance (serveMkdir fm data d) "srv"
    = Some (mkConfig (Some [str "plugins2"]) (Some []))
  ∧ sent (serveTouch fm data d) = sent d ++ [ProtocolResponse].
Proof.
  cbv zeta. split; [|split].
  - vm_compute. reflexivity.
  - vm_compute. reflexivity.
  - refine (proj1 (proj1 (proj2 (proj2
      (create_requests_clear_locks
         (mkFileManager (λ _ _, true) (λ _ _, true) (λ _ _, true))
         (mkData (Some false) (Some "srv") (Some (str "plugins")) None None)
         (mkDaemon {[ "srv" := mkInstance "srv"
             (mkConfig (Some [str "plugins"; str "plugins/a.jar"; str "plugins2"])
                       (Some [str "plugins"])) ]} [] [] [])
         "srv" _ (str "plugins") _ _ _ _ _ _))) _ _)).
    + reflexivity.
    + vm_compute. reflexivity.
    + vm_compute. intros Hin. by apply elem_of_nil in Hin.
    + reflexivity.
    + reflexivity.
    + reflexivity.
    + left. reflexivity.
Defined.

(** The same path as a delete request: the non-admin request is rejected,
    the admin request deletes and clears the locks under the target. *)
Example serveDelete_locked :
  let fm := mkFileManager (λ _ _, true) (λ _ _, true) (λ _ _, true) in
  let i := mkInstance "srv"
             (mkConfig (Some [str "plugins"; str "plugins/a.jar"; str "plugins2"])
                       (Some [str "plugins"])) in
  let d := mkDaemon {[ "srv" := i ]} [] [] [] in
  let data adm := mkData adm (Some "srv") None (Some [str "plugins"]) None in
  serveDelete fm (data (Some false)) d
  = send (ProtocolError "file/delete" "TXT_CODE_file_locked_error") d
  ∧ config <$> getInstance (serveDelete fm (data (Some true)) d) "srv"
    = Some (mkConfig (Some [str "plugins2"]) (Some [])).
Proof. cbv zeta. split; vm_compute; reflexivity. Qed.

(** * Further properties of the lock service *)

(** ** Path normalisation *)

(** X1.  [normalizePath] is idempotent; its result has no backslash, no two
    slashes in a row and no slash at the end, and a path is left as it is
    exactly when it has that form already. *)
Theorem normalizePath_is_canonical_form (p : path) :
  normalizePath (normalizePath p) = normalizePath p
  ∧ (backslash ∉ normalizePath p)
  ∧ noDoubleSlash (normalizePath p)
  ∧ last (normalizePath p) ≠ Some slash
  ∧ (normalizePath p = p ↔ canonical p).
Proof.
  destruct (normalizePath_canonical p) as (Hb & Hd & Hl).
  split_and!; [apply normalizePath_idemp | done..|].
  apply LockedPath_canonical.
Qed.

Lemma collapse_slashes_cons2 (c d : ascii) (q : path) :
  collapse_slashes (c :: d :: q)
  = if decide (c = slash ∧ d = slash) then collapse_slashes (d :: q)
    else c :: collapse_slashes (d :: q).
Proof. done. Qed.

Lemma last_collapse_slashes (q : path) : last (collapse_slashes q) = last q.
Proof.
  induction q as [|c q IH]; [done|]. destruct q as [|d q]; [done|].
  change (last (c :: d :: q)) with (last (d :: q)). rewrite <-IH.
  rewrite collapse_slashes_cons2. case_decide; [done|].
  destruct (collapse_slashes (d :: q)) as [|e r] eqn:E; [|done].
  pose proof (collapse_slashes_head d q) as Hh. by rewrite E in Hh.
Qed.

Lemma collapse_slashes_snoc_slash (q : path) :
  collapse_slashes (q ++ [slash])
  = if decide (last q = Some slash) then collapse_slashes q
    else collapse_slashes q ++ [slash].
Proof.
  induction q as [|c q IH]; [done|]. destruct q as [|d q].
  - cbn. destruct (decide (c = slash)) as [->|Hc].
    + by rewrite decide_True.
    + rewrite decide_False by (intros [? _]; done).
      rewrite decide_False by congruence. done.
  - change ((c :: d :: q) ++ [slash]) with (c :: d :: (q ++ [slash])).
    change (last (c :: d :: q)) with (last (d :: q)).
    rewrite !collapse_slashes_cons2.
    change (d :: (q ++ [slash])) with ((d :: q) ++ [slash]). rewrite IH.
    destruct (decide (c = slash ∧ d = slash));
      destruct (decide (last (d :: q) = Some slash)); done.
Qed.

Lemma strip_trailing_slash_snoc (l : path) : strip_trailing_slash (l ++ [slash]) = l.
Proof.
  induction l as [|c l IH]; [done|]. destruct l as [|d l].
  - done.
  - change (strip_trailing_slash ((c :: d :: l) ++ [slash]))
      with (c :: strip_trailing_slash ((d :: l) ++ [slash])).
    by rewrite IH.
Qed.

Lemma replace_backslashes_idemp (p : path) :
  replace_backslashes (replace_backslashes p) = replace_backslashes p.
Proof. apply replace_backslashes_id, replace_backslashes_free. Qed.

Lemma normalizePath_snoc_slash_gen (q : path) :
  strip_trailing_slash (collapse_slashes (q ++ [slash]))
  = strip_trailing_slash (collapse_slashes q).
Proof.
  rewrite collapse_slashes_snoc_slash. case_decide as Hl; [done|].
  rewrite strip_trailing_slash_snoc.
  destruct (strip_trailing_slash_spec (collapse_slashes q)) as [(l & Hq & _)|[_ ->]];
    [|done].
  exfalso. apply Hl. rewrite <-last_collapse_slashes, Hq. apply last_snoc.
Qed.

(** X2.  [normalizePath] does not tell the two slash directions apart and
    ignores one separator at the end: a path with its backslashes turned
    into slashes, and a path followed by a slash or a backslash, have the
    canonical form of the path. *)
Theorem normalizePath_slash_insensitive (p : path) :
  normalizePath (replace_backslashes p) = normalizePath p
  ∧ normalizePath (p ++ [slash]) = normalizePath p
  ∧ normalizePath (p ++ [backslash]) = normalizePath p.
Proof.
  unfold normalizePath. split_and!.
  - by rewrite replace_backslashes_idemp.
  - unfold replace_backslashes. rewrite fmap_app. cbn [fmap list_fmap].
    rewrite decide_False by done. apply normalizePath_snoc_slash_gen.
  - unfold replace_backslashes. rewrite fmap_app. cbn [fmap list_fmap].
    rewrite decide_True by done. apply normalizePath_snoc_slash_gen.
Qed.

(** ** Parent folders *)

Lemma length_split (s : path) :
  length (Js.split s) = S (count_occ ascii_dec s slash).
Proof.
  induction s as [|c s IH]; [done|]. destruct (decide (c = slash)) as [Hc|Hc].
  - rewrite count_occ_cons_eq by done. cbn [Js.split]. rewrite decide_True by done.
    cbn. by rewrite IH.
  - rewrite count_occ_cons_neq by done. rewrite <-IH. cbn [Js.split].
    rewrite decide_False by done.
    pose proof (split_nonempty s). by destruct (Js.split s).
Qed.

(** X3.  [getParentFolders] returns exactly the strings that, followed by a
    slash, begin the canonical form of the path: one for each slash of that
    form, none for a path without a slash, and never the path itself. *)
Theorem getParentFolders_are_the_ancestors (p : path) :
  (∀ q, q ∈ getParentFolders p ↔ ancestorOf q (normalizePath p))
  ∧ length (getParentFolders p) = count_occ ascii_dec (normalizePath p) slash
  ∧ (slash ∉ normalizePath p → getParentFolders p = [])
  ∧ (normalizePath p ∉ getParentFolders p).
Proof.
  assert (length (getParentFolders p)
          = count_occ ascii_dec (normalizePath p) slash) as Hlen.
  { unfold getParentFolders. cbv zeta.
    rewrite length_fmap, length_seq, length_split. lia. }
  split_and!.
  - intros q. apply elem_of_getParentFolders.
  - done.
  - intros Hnin. apply length_zero_iff_nil. rewrite Hlen.
    apply count_occ_not_In. by rewrite <-list_elem_of_In.
  - rewrite elem_of_getParentFolders. apply ancestorOf_irrefl.
Qed.

(** ** The rebuild of the ancestor index *)

Lemma NoDup_set_add (x : path) (l : list path) : NoDup l → NoDup (Js.set_add x l).
Proof.
  intros Hnd. unfold Js.set_add. destruct (Js.includes x l) eqn:E; [done|].
  apply includes_false in E. apply NoDup_app. split_and!; [done| |apply NoDup_singleton].
  intros y Hy ->%list_elem_of_singleton. done.
Qed.

Lemma NoDup_collectFolders (R : list path) : NoDup (collectFolders R).
Proof.
  unfold collectFolders. generalize (NoDup_nil_2 (A:=path)).
  generalize (@nil path) as acc. induction R as [|e R IH]; intros acc Hacc; [done|].
  cbn [foldl]. apply IH. clear IH.
  revert acc Hacc. induction (getParentFolders e) as [|q qs IHq]; intros acc Hacc; [done|].
  cbn [foldl]. apply IHq. by apply NoDup_set_add.
Qed.

(** X4.  [updateFoldersWithLockedContent] rebuilds the index from the
    registry alone: whatever the index held before, afterwards it holds
    each proper ancestor of each entry (read in canonical form) exactly
    once and nothing else.  The registry, the instance identifier and the
    storage are not touched, and a second rebuild changes nothing. *)
Theorem updateFoldersWithLockedContent_rebuilds (σ : Env) :
  IndexIsClosure (instance (updateFoldersWithLockedContent σ))
  ∧ NoDup (foldersOf (updateFoldersWithLockedContent σ))
  ∧ lockedFiles (config (instance (updateFoldersWithLockedContent σ)))
    = lockedFiles (config (instance σ))
  ∧ instanceUuid (instance (updateFoldersWithLockedContent σ))
    = instanceUuid (instance σ)
  ∧ storeLog (updateFoldersWithLockedContent σ) = storeLog σ
  ∧ updateFoldersWithLockedContent (updateFoldersWithLockedContent σ)
    = updateFoldersWithLockedContent σ.
Proof.
  split_and!.
  - apply collectFolders_IndexIsClosure.
    fold (foldersOf (updateFoldersWithLockedContent σ)).
    fold (registryOf (updateFoldersWithLockedContent σ)).
    by rewrite foldersOf_update, registryOf_update.
  - rewrite foldersOf_update. apply NoDup_collectFolders.
  - unfold updateFoldersWithLockedContent. by case_decide.
  - unfold updateFoldersWithLockedContent. by case_decide.
  - unfold updateFoldersWithLockedContent. by case_decide.
  - unfold updateFoldersWithLockedContent at 1.
    fold (registryOf (updateFoldersWithLockedContent σ)). rewrite registryOf_update.
    unfold updateFoldersWithLockedContent, registryOf.
    destruct σ as [[u [lf fs]] log]. cbn. by case_decide.
Qed.

(** ** Direct and inherited locks *)

(** X5.  A path that is directly locked is locked: whenever
    [isPathDirectlyLocked] holds, so does [isPathLocked]. *)
Theorem isPathDirectlyLocked_implies_isPathLocked (i : Instance) (P : path) :
  isPathDirectlyLocked i P = true → isPathLocked i P = true.
Proof.
  rewrite isPathDirectlyLocked_gen, isPathLocked_gen.
  intros (E & HE & Heq). exists E. split; [done | by left].
Qed.

Lemma isPathDirectlyLocked_implies_isPathLocked_witness :
  let i := mkInstance "srv" (mkConfig (Some [str "a/b"]) (Some [str "a"])) in
  isPathDirectlyLocked i (str "a\b/") = true
  ∧ isPathLocked i (str "a\b/") = true
  ∧ isPathDirectlyLocked i (str "a/b/c.txt") = false
  ∧ isPathLocked i (str "a/b/c.txt") = true.
Proof.
  cbv zeta. split; [reflexivity|]. split; [|split; reflexivity].
  apply isPathDirectlyLocked_implies_isPathLocked. reflexivity.
Defined.

Lemma ancestorOf_trans (a b c : path) : ancestorOf a b → ancestorOf b c → ancestorOf a c.
Proof.
  unfold ancestorOf. intros Hab Hbc. etrans; [exact Hab|].
  etrans; [|exact Hbc]. by apply prefix_app_r.
Qed.

Lemma collapse_slashes_app_slash (a b : path) :
  collapse_slashes (a ++ slash :: b)
  = strip_trailing_slash (collapse_slashes a) ++ collapse_slashes (slash :: b).
Proof.
  induction a as [|c a IH]; [done|]. destruct a as [|d a].
  - change ([c] ++ slash :: b) with (c :: slash :: b).
    rewrite collapse_slashes_cons2. cbn [collapse_slashes strip_trailing_slash].
    destruct (decide (c = slash)) as [->|Hc].
    + by rewrite decide_True.
    + by rewrite decide_False by (intros [? _]; done).
  - change ((c :: d :: a) ++ slash :: b) with (c :: d :: (a ++ slash :: b)).
    rewrite !collapse_slashes_cons2.
    change (d :: (a ++ slash :: b)) with ((d :: a) ++ slash :: b). rewrite IH.
    case_decide; [done|].
    destruct (collapse_slashes (d :: a)) as [|e r] eqn:E; [|done].
    pose proof (collapse_slashes_head d a) as Hh. by rewrite E in Hh.
Qed.

Lemma strip_trailing_slash_app (a w : path) :
  w ≠ [] → strip_trailing_slash (a ++ w) = a ++ strip_trailing_slash w.
Proof.
  intros Hw. induction a as [|c a IH]; [done|].
  destruct (a ++ w) as [|e r] eqn:E.
  - destruct a; [by destruct w | done].
  - change ((c :: a) ++ w) with (c :: (a ++ w)). rewrite E.
    change (strip_trailing_slash (c :: e :: r))
      with (c :: strip_trailing_slash (e :: r)).
    by rewrite IH.
Qed.

(** The canonical form of a path under [a]: it is the canonical form of
    [a], or it lies under it. *)
Lemma normalizePath_child (a r : path) :
  normalizePath (a ++ slash :: r) = normalizePath a
  ∨ ancestorOf (normalizePath a) (normalizePath (a ++ slash :: r)).
Proof.
  unfold normalizePath, replace_backslashes. rewrite fmap_app. cbn [fmap list_fmap].
  rewrite decide_False by done.
  fold (replace_backslashes a). fold (replace_backslashes r).
  rewrite collapse_slashes_app_slash.
  pose proof (collapse_slashes_head slash (replace_backslashes r)) as Hh.
  pose proof (collapse_slashes_noDouble (slash :: replace_backslashes r)) as Hnd.
  destruct (collapse_slashes (slash :: replace_backslashes r)) as [|e w] eqn:E;
    [done|]. injection Hh as ->.
  destruct w as [|f w].
  - left. apply strip_trailing_slash_snoc.
  - right. rewrite strip_trailing_slash_app by done.
    exists (strip_trailing_slash (f :: w)).
    change (strip_trailing_slash (slash :: f :: w))
      with (slash :: strip_trailing_slash (f :: w)).
    by rewrite <-app_assoc.
Qed.

(** X6.  Locks are inherited downwards.  If a path is locked, so is every
    path whose canonical form lies under its canonical form, and so is the
    path followed by a slash and anything. *)
Theorem isPathLocked_inherited (i : Instance) (P : path) :
  isPathLocked i P = true →
  (∀ Q, ancestorOf (normalizePath P) (normalizePath Q) → isPathLocked i Q = true)
  ∧ (∀ rel, isPathLocked i (P ++ slash :: rel) = true).
Proof.
  intros HP.
  assert (∀ Q, ancestorOf (normalizePath P) (normalizePath Q) →
               isPathLocked i Q = true) as Hdown.
  { intros Q HQ. apply isPathLocked_gen in HP as (E & HE & Hor).
    apply isPathLocked_gen. exists E. split; [done|]. right.
    destruct Hor as [<-|Hanc]; [done | by eapply ancestorOf_trans]. }
  split; [done|]. intros rel.
  destruct (normalizePath_child P rel) as [Heq|Hanc]; [|by apply Hdown].
  apply isPathLocked_gen in HP as (E & HE & Hor).
  apply isPathLocked_gen. exists E. by rewrite Heq.
Qed.

Lemma isPathLocked_inherited_witness :
  let i := mkInstance "srv" (mkConfig (Some [str "world"]) (Some [])) in
  isPathLocked i (str "world\") = true
  ∧ isPathLocked i (str "world\" ++ slash :: str "/region\r.0.0.mca") = true.
Proof.
  cbv zeta. split; [reflexivity|].
  apply (isPathLocked_inherited _ (str "world\")). reflexivity.
Defined.

(** X7.  The lock service reads a path only through its canonical form:
    two spellings of a path with the same canonical form get the same
    answer from every query and the same result and state from every
    mutator. *)
Theorem lock_service_reads_canonical_form (P Q : path) (i : Instance) (σ : Env) :
  normalizePath P = normalizePath Q →
  isPathDirectlyLocked i P = isPathDirectlyLocked i Q
  ∧ isPathLocked i P = isPathLocked i Q
  ∧ containsLockedPath i P = containsLockedPath i Q
  ∧ addLock P σ = addLock Q σ
  ∧ removeLock P σ = removeLock Q σ
  ∧ removeLockForPath P σ = removeLockForPath Q σ
  ∧ (∀ T, copyLockForPath P T σ = copyLockForPath Q T σ
          ∧ copyLockForPath T P σ = copyLockForPath T Q σ
          ∧ moveLockForPath P T σ = moveLockForPath Q T σ
          ∧ moveLockForPath T P σ = moveLockForPath T Q σ).
Proof.
  intros Heq.
  unfold isPathDirectlyLocked, isPathLocked, containsLockedPath, addLock, removeLock,
    removeLockForPath, copyLockForPath, moveLockForPath.
  rewrite Heq. done.
Qed.

Lemma lock_service_reads_canonical_form_witness :
  let σ := mkEnv (mkInstance "srv" (mkConfig (Some [str "a/b"]) (Some [str "a"]))) [] in
  normalizePath (str "a\\b/") = normalizePath (str "a/b")
  ∧ removeLock (str "a\\b/") σ = removeLock (str "a/b") σ.
Proof.
  cbv zeta. split; [reflexivity|].
  apply (lock_service_reads_canonical_form (str "a\\b/") (str "a/b")
           (mkInstance "srv" (mkConfig None None))).
  reflexivity.
Defined.

(** ** Explicit lock and unlock *)

Lemma addLock_registry (P : path) (σ : Env) :
  registryOf (addLock P σ).2
  = if Js.includes (normalizePath P) (registryOf σ) then registryOf σ
    else registryOf σ ++ [normalizePath P].
Proof.
  unfold addLock. cbv zeta. fold (registryOf σ).
  destruct (Js.includes (normalizePath P) (registryOf σ)); cbn [snd]; [done|].
  by rewrite registryOf_finish.
Qed.

Lemma addLock_result (P : path) (σ : Env) :
  (addLock P σ).1 = negb (Js.includes (normalizePath P) (registryOf σ)).
Proof.
  unfold addLock. cbv zeta. fold (registryOf σ).
  by destruct (Js.includes (normalizePath P) (registryOf σ)).
Qed.

Lemma elem_of_addLock (P e : path) (σ : Env) :
  e ∈ registryOf (addLock P σ).2 ↔ e ∈ registryOf σ ∨ e = normalizePath P.
Proof.
  rewrite addLock_registry.
  destruct (Js.includes (normalizePath P) (registryOf σ)) eqn:E.
  - apply includes_true in E. split; [by left | intros [?| ->]; done].
  - rewrite elem_of_app, list_elem_of_singleton. done.
Qed.

(** X8.  [addLock] returns [true] exactly when the canonical form of the
    path is not a registry entry yet, and then pushes it at the end;
    otherwise the registry stays.  Afterwards the path is directly locked
    and locked, nothing that was locked has become unlocked, and a second
    [addLock] of the path returns [false] and leaves the registry as it
    is. *)
Theorem addLock_locks (P : path) (σ : Env) :
  ((addLock P σ).1 = true ↔ normalizePath P ∉ registryOf σ)
  ∧ registryOf (addLock P σ).2
    = (if (addLock P σ).1 then registryOf σ ++ [normalizePath P] else registryOf σ)
  ∧ isPathDirectlyLocked (instance (addLock P σ).2) P = true
  ∧ isPathLocked (instance (addLock P σ).2) P = true
  ∧ (∀ Q, isPathLocked (instance σ) Q = true →
          isPathLocked (instance (addLock P σ).2) Q = true)
  ∧ (addLock P (addLock P σ).2).1 = false
  ∧ registryOf (addLock P (addLock P σ).2).2 = registryOf (addLock P σ).2.
Proof.
  assert (normalizePath P ∈ registryOf (addLock P σ).2) as Hin
    by (apply elem_of_addLock; by right).
  assert (isPathDirectlyLocked (instance (addLock P σ).2) P = true) as Hdir.
  { apply isPathDirectlyLocked_gen. exists (normalizePath P).
    split; [done|]. symmetry. apply normalizePath_idemp. }
  split_and!.
  - rewrite addLock_result, negb_true_iff. apply includes_false.
  - rewrite addLock_registry, addLock_result.
    by destruct (Js.includes (normalizePath P) (registryOf σ)).
  - done.
  - apply isPathLocked_gen. apply isPathDirectlyLocked_gen in Hdir as (E & HE & Heq).
    exists E. split; [done | by left].
  - intros Q HQ. apply isPathLocked_gen in HQ as (E & HE & Hor).
    apply isPathLocked_gen. exists E. split; [|done].
    apply elem_of_addLock. by left.
  - rewrite addLock_result, negb_false_iff. by apply includes_true.
  - rewrite (addLock_registry P (addLock P σ).2).
    apply includes_true in Hin. by rewrite Hin.
Qed.

Lemma removeLock_registry (P : path) (σ : Env) :
  registryOf (removeLock P σ).2 = removeFirst (normalizePath P) (registryOf σ)
  ∧ (removeLock P σ).1 = bool_decide (normalizePath P ∈ registryOf σ).
Proof.
  unfold removeLock. cbv zeta.
  destruct (lockedFiles (config (instance σ))) as [R|] eqn:ER.
  - assert (registryOf σ = R) as ->
      by (unfold registryOf, lockedFilesOrEmpty; by rewrite ER).
    destruct (Js.indexOf (normalizePath P) R) as [idx|] eqn:E.
    + apply indexOf_Some in E as (l1 & l2 & HR & Hnin & _ & Hsp). cbn [fst snd].
      rewrite registryOf_finish, Hsp, HR, removeFirst_app_fresh by done.
      split; [done|]. symmetry. apply bool_decide_eq_true.
      apply elem_of_app. right. left.
    + apply indexOf_None in E. cbn [fst snd].
      rewrite removeFirst_notin by done. split.
      * unfold registryOf, lockedFilesOrEmpty. by rewrite ER.
      * symmetry. by apply bool_decide_eq_false.
  - assert (registryOf σ = []) as ->
      by (unfold registryOf, lockedFilesOrEmpty; by rewrite ER).
    done.
Qed.

Lemma removeLock_unchanged (P : path) (σ : Env) :
  (removeLock P σ).1 = false →
  registryOf (removeLock P σ).2 = registryOf σ
  ∧ foldersOf (removeLock P σ).2 = foldersOf σ
  ∧ storeLog (removeLock P σ).2 = storeLog σ.
Proof.
  unfold removeLock. cbv zeta.
  destruct (lockedFiles (config (instance σ))) as [R|] eqn:ER.
  - by destruct (Js.indexOf (normalizePath P) R).
  - intros _. cbn [snd]. split_and!; [|done..].
    unfold registryOf, lockedFilesOrEmpty. by rewrite ER.
Qed.

(** X9.  [removeLock] takes the first entry equal to the canonical form of
    the path out of the registry and nothing else: locks nested under the
    path stay, unlike with [removeLockForPath].  It returns [true] exactly
    when there was such an entry; on [false] the registry, the index and
    the storage are as before.  In a registry of locked paths without
    duplicates the path is not directly locked afterwards, and nothing has
    become locked that was not. *)
Theorem removeLock_unlocks_only_the_entry (P : path) (σ : Env) :
  registryOf (removeLock P σ).2 = removeFirst (normalizePath P) (registryOf σ)
  ∧ ((removeLock P σ).1 = true ↔ normalizePath P ∈ registryOf σ)
  ∧ (∀ e, e ≠ normalizePath P →
          (e ∈ registryOf (removeLock P σ).2 ↔ e ∈ registryOf σ))
  ∧ ((removeLock P σ).1 = false →
     registryOf (removeLock P σ).2 = registryOf σ
     ∧ foldersOf (removeLock P σ).2 = foldersOf σ
     ∧ storeLog (removeLock P σ).2 = storeLog σ)
  ∧ (RegistryWf (instance σ) →
     isPathDirectlyLocked (instance (removeLock P σ).2) P = false)
  ∧ (∀ Q, isPathLocked (instance (removeLock P σ).2) Q = true →
          isPathLocked (instance σ) Q = true).
Proof.
  destruct (removeLock_registry P σ) as [HR Hres].
  split_and!.
  - done.
  - rewrite Hres. apply bool_decide_eq_true.
  - intros e Hne. rewrite HR. by apply elem_of_removeFirst_ne.
  - apply removeLock_unchanged.
  - intros [Hlp Hnd]. apply not_true_is_false. rewrite isPathDirectlyLocked_gen.
    fold (registryOf (removeLock P σ).2). rewrite HR.
    intros (E & HE & Heq). fold (registryOf σ) in Hlp, Hnd.
    apply elem_of_removeFirst_NoDup in HE as [HE Hne]; [|done].
    rewrite Forall_forall in Hlp. pose proof (Hlp E HE) as HL.
    unfold LockedPath in HL. congruence.
  - intros Q HQ. apply isPathLocked_gen in HQ as (E & HE & Hor).
    apply isPathLocked_gen. exists E. split; [|done].
    fold (registryOf (removeLock P σ).2) in HE. rewrite HR in HE.
    fold (registryOf σ). eapply elem_of_sublist; [done | apply removeFirst_sublist].
Qed.

(** ** Persistence *)

Lemma storeLog_finish (lf : list path) (σ : Env) :
  storeLog (store (updateFoldersWithLockedContent (setLockedFiles lf σ)))
  = storeLog σ
    ++ [mkStoreCall "InstanceConfig" (instanceUuid (instance σ))
          (config (instance
             (store (updateFoldersWithLockedContent (setLockedFiles lf σ)))))]
  ∧ instanceUuid (instance
      (store (updateFoldersWithLockedContent (setLockedFiles lf σ))))
    = instanceUuid (instance σ).
Proof. unfold updateFoldersWithLockedContent. by case_decide. Qed.

Lemma runOp_persists (op : LockOp) (σ : Env) :
  instanceUuid (instance (runOp op σ).2) = instanceUuid (instance σ)
  ∧ ((storeLog (runOp op σ).2 = storeLog σ
      ∧ registryOf (runOp op σ).2 = registryOf σ
      ∧ foldersOf (runOp op σ).2 = foldersOf σ)
     ∨ (storeLog (runOp op σ).2
        = storeLog σ
          ++ [mkStoreCall "InstanceConfig" (instanceUuid (instance σ))
                (config (instance (runOp op σ).2))]
        ∧ foldersOf (runOp op σ).2 = collectFolders (registryOf (runOp op σ).2))).
Proof.
  assert (∀ lf, let σ' := store (updateFoldersWithLockedContent (setLockedFiles lf σ)) in
    instanceUuid (instance σ') = instanceUuid (instance σ)
    ∧ ((storeLog σ' = storeLog σ ∧ registryOf σ' = registryOf σ
        ∧ foldersOf σ' = foldersOf σ)
       ∨ (storeLog σ'
          = storeLog σ ++ [mkStoreCall "InstanceConfig" (instanceUuid (instance σ))
                             (config (instance σ'))]
          ∧ foldersOf σ' = collectFolders (registryOf σ')))) as Hfin.
  { intros lf. cbv zeta. destruct (storeLog_finish lf σ) as [Hlog Hu].
    split; [done|]. right. split; [done|].
    by rewrite foldersOf_finish, registryOf_finish. }
  assert (∀ σ', σ' = σ →
    instanceUuid (instance σ') = instanceUuid (instance σ)
    ∧ ((storeLog σ' = storeLog σ ∧ registryOf σ' = registryOf σ
        ∧ foldersOf σ' = foldersOf σ)
       ∨ (storeLog σ'
          = storeLog σ ++ [mkStoreCall "InstanceConfig" (instanceUuid (instance σ))
                             (config (instance σ'))]
          ∧ foldersOf σ' = collectFolders (registryOf σ')))) as Hsame.
  { intros σ' ->. split; [done|]. by left. }
  destruct op as [P|P|P|S D|S D]; cbn [runOp].
  - unfold addLock. cbv zeta.
    destruct (Js.includes (normalizePath P) (lockedFilesOrEmpty (instance σ)));
      cbn [snd].
    + split; [done|]. left. done.
    + destruct (storeLog_finish
                  (Js.push (normalizePath P) (lockedFilesOrEmpty (instance σ)))
                  (setLockedFiles (lockedFilesOrEmpty (instance σ)) σ)) as [Hlog Hu].
      split; [done|]. right. split; [done|].
      by rewrite foldersOf_finish, registryOf_finish.
  - unfold removeLock. cbv zeta.
    destruct (lockedFiles (config (instance σ))) as [R|] eqn:ER.
    + destruct (Js.indexOf (normalizePath P) R); [apply Hfin | by apply Hsame].
    + cbn [snd]. split; [done|]. left. split_and!; [done| |done].
      unfold registryOf, lockedFilesOrEmpty. by rewrite ER.
  - destruct (removeLockForPath P σ).1 eqn:Eres.
    + revert Eres. unfold removeLockForPath.
      destruct (lockedFiles (config (instance σ))) as [R|]; [|done].
      cbv zeta. set (st := foldl removeOne _ _). destruct st.1; [|done].
      intros _. apply Hfin.
    + apply Hsame. by apply removeLockForPath_unchanged.
  - unfold copyLockForPath.
    destruct (lockedFiles (config (instance σ))) as [R|]; [|by apply Hsame].
    cbv zeta. destruct (Js.includes (normalizePath S) R); [|by apply Hsame].
    destruct (negb (Js.includes (normalizePath D) R)); [|by apply Hsame].
    apply Hfin.
  - destruct (moveLockForPath S D σ).1 eqn:Eres.
    + revert Eres.
      destruct (lockedFiles (config (instance σ))) as [R|] eqn:ER;
        [|unfold moveLockForPath; by rewrite ER].
      rewrite (moveLockForPath_unfold _ _ _ _ ER). cbv zeta.
      set (st := foldl applyUpdate _ _). destruct st.1; [|done].
      intros _. apply Hfin.
    + apply Hsame. by apply moveLockForPath_unchanged.
Qed.

(** X10.  A mutator either leaves the registry, the index and the storage
    as they are, or stores exactly once, and what it stores is the
    configuration it leaves, the index rebuilt from the registry, under the
    kind ["InstanceConfig"] and the identifier of the instance: the stored
    snapshot is never behind the state.  The identifier never changes. *)
Theorem mutators_store_what_they_leave (op : LockOp) (σ : Env) :
  instanceUuid (instance (runOp op σ).2) = instanceUuid (instance σ)
  ∧ ((storeLog (runOp op σ).2 = storeLog σ
      ∧ registryOf (runOp op σ).2 = registryOf σ
      ∧ foldersOf (runOp op σ).2 = foldersOf σ)
     ∨ (storeLog (runOp op σ).2
        = storeLog σ
          ++ [mkStoreCall "InstanceConfig" (instanceUuid (instance σ))
                (config (instance (runOp op σ).2))]
        ∧ foldersOf (runOp op σ).2 = collectFolders (registryOf (runOp op σ).2))).
Proof. exact (runOp_persists op σ). Qed.

(** ** Queries after a propagation, and propagation without a lock *)

Lemma containsLockedPath_is_Some (i : Instance) (P : path) :
  IndexIsClosure i →
  is_Some (containsLockedPath i P)
  ↔ ∃ L, L ∈ lockedFilesOrEmpty i ∧ ancestorOf (normalizePath P) (normalizePath L).
Proof.
  intros Hcl.
  assert (containsLockedPath i P = plainScan i P) as ->.
  { rewrite containsLockedPath_scan_eq.
    - apply containsLockedPath_scan_spec.
    - intros e q He Hq. apply Hcl. by exists e. }
  unfold plainScan. split.
  - intros [L HL]. apply head_filter_elem in HL. by exists L.
  - intros (L & HL & Hanc).
    destruct (head (filter (λ L0, ancestorOf (normalizePath P) (normalizePath L0))
                           (lockedFilesOrEmpty i))) as [L0|] eqn:E; [done|].
    by destruct (head_filter_none _ _ E L HL).
Qed.

Lemma isPathDirectlyLocked_wf (i : Instance) (P : path) :
  Forall LockedPath (lockedFilesOrEmpty i) →
  isPathDirectlyLocked i P = true ↔ normalizePath P ∈ lockedFilesOrEmpty i.
Proof.
  intros Hlp. rewrite Forall_forall in Hlp. rewrite isPathDirectlyLocked_gen. split.
  - intros (E & HE & Heq). pose proof (Hlp E HE) as HL. unfold LockedPath in HL.
    by rewrite Heq, HL.
  - intros Hin. exists (normalizePath P). split; [done|].
    symmetry. apply normalizePath_idemp.
Qed.

Lemma Exists_under_wf (x : path) (R : list path) :
  Forall LockedPath R →
  Exists (ancestorOf x) R ↔ ∃ L, L ∈ R ∧ ancestorOf x (normalizePath L).
Proof.
  intros Hlp. rewrite Forall_forall in Hlp. rewrite Exists_exists.
  split; intros (L & HL & Hanc); exists L; (split; [done|]);
    pose proof (Hlp L HL) as HLp; unfold LockedPath in HLp; congruence.
Qed.

Lemma foldl_applyUpdate_flag (S D : path) (L : list path) (b : bool) :
  (foldl applyUpdate (b, L) (collectUpdatedPaths (S ++ [slash]) D L)).1
  = b || bool_decide (Exists (ancestorOf S) L).
Proof.
  destruct (collectUpdatedPaths (S ++ [slash]) D L) as [|u us] eqn:E.
  - cbn [foldl fst]. rewrite bool_decide_eq_false_2; [by rewrite orb_false_r|].
    intros Hex. apply Exists_exists in Hex as (e & He & Hanc).
    assert ((e, rebase S D e) ∈ collectUpdatedPaths (S ++ [slash]) D L) as Hin
      by (by apply elem_of_collectUpdatedPaths).
    rewrite E in Hin. by apply elem_of_nil in Hin.
  - assert (u ∈ collectUpdatedPaths (S ++ [slash]) D L) as Hin
      by (rewrite E; left).
    apply elem_of_collectUpdatedPaths in Hin as (Hu & Hanc & _).
    rewrite (bool_decide_eq_true_2 (Exists (ancestorOf S) L)), orb_true_r
      by (apply Exists_exists; eauto).
    cbn [foldl]. apply foldl_applyUpdate_flag_mono.
    destruct u as [o n]. cbn [fst] in Hu. unfold applyUpdate. cbn [snd].
    by destruct (indexOf_is_Some o L Hu) as [idx ->].
Qed.

Lemma moveCase1_flag (S D : path) (R : list path) :
  (moveCase1 S D R).1 = bool_decide (S ∈ R)
  ∧ ((S ∉ R) → (moveCase1 S D R).2 = R).
Proof.
  unfold moveCase1. destruct (Js.indexOf S R) as [idx|] eqn:EI.
  - apply indexOf_Some in EI as (l1 & l2 & -> & _).
    assert (S ∈ l1 ++ S :: l2) as Hin by (apply elem_of_app; right; left).
    split; [by rewrite bool_decide_eq_true_2|done].
  - apply indexOf_None in EI. by rewrite bool_decide_eq_false_2.
Qed.

Lemma moveLockForPath_result (src dst : path) (σ : Env) :
  NoDup (registryOf σ) →
  (moveLockForPath src dst σ).1
  = bool_decide (normalizePath src ∈ registryOf σ)
    || bool_decide (Exists (ancestorOf (normalizePath src)) (registryOf σ)).
Proof.
  intros Hnd.
  destruct (lockedFiles (config (instance σ))) as [R|] eqn:ER.
  - assert (registryOf σ = R) as HR
      by (unfold registryOf, lockedFilesOrEmpty; by rewrite ER).
    rewrite HR in *. rewrite (moveLockForPath_unfold _ _ _ _ ER). cbv zeta.
    set (S := normalizePath src). set (D := normalizePath dst).
    assert ((if (foldl applyUpdate (moveCase1 S D R)
                   (collectUpdatedPaths (S ++ [slash]) D (moveCase1 S D R).2)).1
             then (true, store (updateFoldersWithLockedContent (setLockedFiles
                     (foldl applyUpdate (moveCase1 S D R)
                        (collectUpdatedPaths (S ++ [slash]) D (moveCase1 S D R).2)).2 σ)))
             else (false, setLockedFiles
                     (foldl applyUpdate (moveCase1 S D R)
                        (collectUpdatedPaths (S ++ [slash]) D (moveCase1 S D R).2)).2 σ)).1
            = (foldl applyUpdate (moveCase1 S D R)
                 (collectUpdatedPaths (S ++ [slash]) D (moveCase1 S D R).2)).1) as ->
      by (by destruct (foldl applyUpdate _ _).1).
    rewrite (surjective_pairing (moveCase1 S D R)) at 1.
    rewrite foldl_applyUpdate_flag.
    destruct (moveCase1_flag S D R) as [-> Hsame].
    destruct (decide (S ∈ R)) as [Hin|Hnin].
    + by rewrite !(bool_decide_eq_true_2 (S ∈ R)).
    + by rewrite (Hsame Hnin).
  - unfold moveLockForPath. rewrite ER.
    assert (registryOf σ = []) as ->
      by (unfold registryOf, lockedFilesOrEmpty; by rewrite ER).
    cbn [fst]. symmetry. apply orb_false_intro; apply bool_decide_eq_false_2.
    + apply not_elem_of_nil.
    + intros Hex. by apply Exists_nil in Hex.
Qed.

Lemma copyLockForPath_result (src dst : path) (σ : Env) :
  (copyLockForPath src dst σ).1 = bool_decide (normalizePath src ∈ registryOf σ)
  ∧ ((copyLockForPath src dst σ).1 = false → copyLockForPath src dst σ = (false, σ)).
Proof.
  destruct (lockedFiles (config (instance σ))) as [R|] eqn:ER.
  - assert (registryOf σ = R) as ->
      by (unfold registryOf, lockedFilesOrEmpty; by rewrite ER).
    rewrite (copyLockForPath_Some _ _ _ _ ER).
    destruct (Js.includes (normalizePath src) R) eqn:ES.
    + apply includes_true in ES. rewrite bool_decide_eq_true_2 by done.
      by destruct (negb (Js.includes (normalizePath dst) R)).
    + apply includes_false in ES. by rewrite bool_decide_eq_false_2 by done.
  - assert (registryOf σ = []) as ->
      by (unfold registryOf, lockedFilesOrEmpty; by rewrite ER).
    rewrite (copyLockForPath_None _ _ _ ER). split; [|done].
    cbn [fst]. symmetry. apply bool_decide_eq_false_2, not_elem_of_nil.
Qed.

(** X11.  After [removeLockForPath] on a path, in a state that satisfies
    the invariant, the queries see the path free of its own locks: it is
    not directly locked, holds no locked content, and is locked exactly
    when a registry entry above it was there, which the removal leaves
    alone.  Nothing has become locked that was not, and a second removal
    returns [false] and changes nothing. *)
Theorem removeLockForPath_frees_the_path (P : path) (σ : Env) :
  Invariant (instance σ) →
  let σ' := (removeLockForPath P σ).2 in
  isPathDirectlyLocked (instance σ') P = false
  ∧ containsLockedPath (instance σ') P = None
  ∧ (isPathLocked (instance σ') P = true
     ↔ ∃ E, E ∈ registryOf σ ∧ ancestorOf E (normalizePath P))
  ∧ (∀ Q, isPathLocked (instance σ') Q = true → isPathLocked (instance σ) Q = true)
  ∧ removeLockForPath P σ' = (false, σ').
Proof.
  intros Hinv. cbv zeta.
  pose proof (removeLockForPath_invariant P σ Hinv) as [[Hlp' Hnd'] Hcl'].
  destruct Hinv as [[Hlp Hnd] Hcl].
  fold (registryOf σ) in Hlp, Hnd.
  fold (registryOf (removeLockForPath P σ).2) in Hlp', Hnd'.
  pose proof (removeLockForPath_registry P σ) as HR.
  set (x := normalizePath P) in *. set (σ' := (removeLockForPath P σ).2) in *.
  assert (∀ e, e ∈ registryOf σ' ↔ e ∈ registryOf σ ∧ e ≠ x ∧ ¬ ancestorOf x e) as Hel.
  { intros e. rewrite HR, list_elem_of_filter, elem_of_removeFirst_NoDup by done. tauto. }
  assert (∀ e, e ∈ registryOf σ' → normalizePath e = e) as Hn'
    by (intros e He; rewrite Forall_forall in Hlp'; by apply Hlp').
  assert (isPathDirectlyLocked (instance σ') P = false) as Hdir.
  { apply not_true_is_false. rewrite isPathDirectlyLocked_wf by done.
    fold (registryOf σ'). rewrite Hel. tauto. }
  assert (containsLockedPath (instance σ') P = None) as Hcont.
  { destruct (containsLockedPath (instance σ') P) as [L|] eqn:E; [|done].
    apply containsLockedPath_is_scan in E as [HL Hanc].
    fold (registryOf σ') in HL. rewrite (Hn' L HL) in Hanc.
    apply Hel in HL. tauto. }
  split_and!; [done|done| | |].
  - rewrite isPathLocked_gen. fold (registryOf σ'). split.
    + intros (E & HE & Hor). rewrite (Hn' E HE) in Hor.
      apply Hel in HE as (HE & Hne & Hnu). destruct Hor as [Heq|Hanc].
      * by destruct Hne.
      * by exists E.
    + intros (E & HE & Hanc). exists E.
      assert (E ∈ registryOf σ') as HE'.
      { apply Hel. split_and!; [done| |].
        - intros ->. by apply (ancestorOf_irrefl x).
        - intros Hu. apply (ancestorOf_irrefl x). by eapply ancestorOf_trans. }
      split; [done|]. right. by rewrite (Hn' E HE').
  - intros Q HQ. apply isPathLocked_gen in HQ as (E & HE & Hor).
    apply isPathLocked_gen. exists E. split; [|done].
    fold (registryOf σ') in HE. apply Hel in HE. tauto.
  - assert ((removeLockForPath P σ').1 = false) as Hres.
    { rewrite removeLockForPath_result. fold x.
      apply orb_false_intro; apply bool_decide_eq_false_2.
      - rewrite Hel. tauto.
      - intros Hex. apply Exists_exists in Hex as (e & He & Hanc).
        eapply elem_of_sublist in He; [|apply removeFirst_sublist].
        apply Hel in He. tauto. }
    rewrite (surjective_pairing (removeLockForPath P σ')).
    by rewrite Hres, (removeLockForPath_unchanged _ _ Hres).
Qed.

Lemma removeLockForPath_frees_the_path_witness :
  let σ := mkEnv (mkInstance "srv"
                    (mkConfig (Some [str "a"; str "a/b"; str "a/b/c/d.txt"; str "ab"])
                              (Some [str "a"; str "a/b"; str "a/b/c"]))) [] in
  let σ' := (removeLockForPath (str "a\b\") σ).2 in
  Invariant (instance σ)
  ∧ registryOf σ' = [str "a"; str "ab"]
  ∧ (isPathDirectlyLocked (instance σ') (str "a\b\") = false
     ∧ containsLockedPath (instance σ') (str "a\b\") = None
     ∧ (isPathLocked (instance σ') (str "a\b\") = true
        ↔ ∃ E, E ∈ registryOf σ ∧ ancestorOf E (normalizePath (str "a\b\")))
     ∧ (∀ Q, isPathLocked (instance σ') Q = true → isPathLocked (instance σ) Q = true)
     ∧ removeLockForPath (str "a\b\") σ' = (false, σ')).
Proof.
  cbv zeta.
  assert (Invariant (instance (mkEnv (mkInstance "srv"
            (mkConfig (Some [str "a"; str "a/b"; str "a/b/c/d.txt"; str "ab"])
                      (Some [str "a"; str "a/b"; str "a/b/c"]))) []))) as Hinv.
  { split; [split|].
    - repeat constructor.
    - refine (bool_decide_unpack _ _). vm_compute. exact I.
    - apply collectFolders_IndexIsClosure. vm_compute. reflexivity. }
  split; [exact Hinv|]. split; [vm_compute; reflexivity|].
  exact (removeLockForPath_frees_the_path _ _ Hinv).
Defined.

(** X12.  What a propagation returns, read through the queries, in a state
    that satisfies the invariant: [removeLockForPath] and [moveLockForPath]
    return [true] exactly when the path is directly locked or holds locked
    content, [copyLockForPath] exactly when the source is directly locked;
    a lock above the path alone propagates nothing.  So on a path for which
    [isPathOrContentsLocked] returns [null] all three return [false] and
    leave the state, storage included, as it is. *)
Theorem propagation_needs_a_lock (P D : path) (σ : Env) :
  Invariant (instance σ) →
  ((removeLockForPath P σ).1 = true
   ↔ isPathDirectlyLocked (instance σ) P = true
     ∨ is_Some (containsLockedPath (instance σ) P))
  ∧ ((moveLockForPath P D σ).1 = true
     ↔ isPathDirectlyLocked (instance σ) P = true
       ∨ is_Some (containsLockedPath (instance σ) P))
  ∧ ((copyLockForPath P D σ).1 = true ↔ isPathDirectlyLocked (instance σ) P = true)
  ∧ (isPathOrContentsLocked (instance σ) P = None →
     removeLockForPath P σ = (false, σ)
     ∧ moveLockForPath P D σ = (false, σ)
     ∧ copyLockForPath P D σ = (false, σ)).
Proof.
  intros [[Hlp Hnd] Hcl].
  pose proof (isPathDirectlyLocked_wf (instance σ) P Hlp) as Hdir.
  pose proof (containsLockedPath_is_Some (instance σ) P Hcl) as Hcont.
  pose proof (Exists_under_wf (normalizePath P) _ Hlp) as Hex.
  fold (registryOf σ) in Hdir, Hcont, Hex, Hnd.
  assert ((removeLockForPath P σ).1 = true
          ↔ isPathDirectlyLocked (instance σ) P = true
            ∨ is_Some (containsLockedPath (instance σ) P)) as Hrm.
  { rewrite removeLockForPath_result, orb_true_iff, !bool_decide_eq_true.
    rewrite Hdir, Hcont, <-Hex. split.
    - intros [?|He]; [by left|]. right.
      apply Exists_exists in He as (e & He & Hanc). apply Exists_exists.
      exists e. split; [|done].
      eapply elem_of_sublist; [done | apply removeFirst_sublist].
    - intros [?|He]; [by left|]. right.
      apply Exists_exists in He as (e & He & Hanc). apply Exists_exists.
      exists e. split; [|done]. apply elem_of_removeFirst_ne; [|done].
      intros ->. by apply (ancestorOf_irrefl (normalizePath P)). }
  assert ((moveLockForPath P D σ).1 = true
          ↔ isPathDirectlyLocked (instance σ) P = true
            ∨ is_Some (containsLockedPath (instance σ) P)) as Hmv.
  { rewrite moveLockForPath_result, orb_true_iff, !bool_decide_eq_true by done.
    by rewrite Hdir, Hcont, <-Hex. }
  assert ((copyLockForPath P D σ).1 = true
          ↔ isPathDirectlyLocked (instance σ) P = true) as Hcp.
  { rewrite (proj1 (copyLockForPath_result P D σ)), bool_decide_eq_true.
    by rewrite Hdir. }
  split_and!; [done..|].
  intros Hnone. unfold isPathOrContentsLocked in Hnone.
  destruct (isPathLocked (instance σ) P) eqn:Elock; [done|].
  assert (isPathDirectlyLocked (instance σ) P = false) as Hnd'.
  { apply not_true_is_false. intros Hd.
    apply isPathDirectlyLocked_gen in Hd as (E & HE & Heq).
    assert (isPathLocked (instance σ) P = true) as Hl
      by (apply isPathLocked_gen; exists E; split; [done | by left]).
    congruence. }
  assert (¬ (isPathDirectlyLocked (instance σ) P = true
             ∨ is_Some (containsLockedPath (instance σ) P))) as Hno.
  { rewrite Hnd', Hnone. intros [?|[? ?]]; done. }
  split_and!.
  - assert ((removeLockForPath P σ).1 = false) as Hf
      by (apply not_true_is_false; tauto).
    rewrite (surjective_pairing (removeLockForPath P σ)).
    by rewrite Hf, (removeLockForPath_unchanged _ _ Hf).
  - assert ((moveLockForPath P D σ).1 = false) as Hf
      by (apply not_true_is_false; tauto).
    rewrite (surjective_pairing (moveLockForPath P D σ)).
    by rewrite Hf, (moveLockForPath_unchanged _ _ _ Hf).
  - apply copyLockForPath_result. apply not_true_is_false.
    rewrite Hcp, Hnd'. done.
Qed.

Lemma propagation_needs_a_lock_witness :
  let σ := mkEnv (mkInstance "srv"
                    (mkConfig (Some [str "a"; str "x/y/z.txt"])
                              (Some [str "x"; str "x/y"]))) [] in
  Invariant (instance σ)
  ∧ isPathLocked (instance σ) (str "a/b") = true
  ∧ (removeLockForPath (str "a/b") σ).1 = false
  ∧ (moveLockForPath (str "x") (str "w") σ).1 = true
  ∧ ((moveLockForPath (str "x") (str "w") σ).1 = true
     ↔ isPathDirectlyLocked (instance σ) (str "x") = true
       ∨ is_Some (containsLockedPath (instance σ) (str "x"))).
Proof.
  cbv zeta.
  assert (Invariant (instance (mkEnv (mkInstance "srv"
            (mkConfig (Some [str "a"; str "x/y/z.txt"])
                      (Some [str "x"; str "x/y"]))) []))) as Hinv.
  { split; [split|].
    - repeat constructor.
    - refine (bool_decide_unpack _ _). vm_compute. exact I.
    - apply collectFolders_IndexIsClosure. vm_compute. reflexivity. }
  split; [exact Hinv|]. do 3 (split; [vm_compute; reflexivity|]).
  exact (proj1 (proj2 (propagation_needs_a_lock _ (str "w") _ Hinv))).
Defined.

(** ** [checkLockStatus] and the check of the middleware *)

Lemma checkOne_acc (i : Instance) (cc : bool) (acc : list path) (t : path) :
  checkOne i cc acc t = acc ++ checkOne i cc [] t.
Proof.
  unfold checkOne, Js.push. destruct cc.
  - destruct (isPathOrContentsLocked i t) as [L|]; [|by rewrite app_nil_r].
    destruct (Js.truthy L); [done | by rewrite app_nil_r].
  - destruct (isPathLocked i t); [done | by rewrite app_nil_r].
Qed.

Lemma foldl_checkOne_acc (i : Instance) (cc : bool) (targets acc : list path) :
  foldl (checkOne i cc) acc targets = acc ++ foldl (checkOne i cc) [] targets.
Proof.
  revert acc. induction targets as [|t targets IH]; intros acc; cbn [foldl].
  - by rewrite app_nil_r.
  - rewrite (IH (checkOne i cc acc t)), (IH (checkOne i cc [] t)).
    by rewrite (checkOne_acc i cc acc t), app_assoc.
Qed.

Lemma foldl_checkOne_paths (i : Instance) (targets : list path) :
  foldl (checkOne i false) [] targets = filter (λ t, isPathLocked i t = true) targets.
Proof.
  induction targets as [|t targets IH]; [done|]. cbn [foldl].
  rewrite foldl_checkOne_acc, IH. unfold checkOne, Js.push.
  destruct (isPathLocked i t) eqn:E.
  - by rewrite filter_cons_True.
  - by rewrite filter_cons_False by congruence.
Qed.

(** X13.  [checkLockStatus] with [checkContents = false] reports exactly
    the targets that [isPathLocked] finds locked, as they were passed and
    in their order, and [hasLocked] tells whether there is one.  In either
    mode the targets are judged one by one: the report on a concatenation
    is the concatenation of the reports, and it never holds more paths than
    there were targets. *)
Theorem checkLockStatus_judges_each_target (i : Instance) (targets : list path) :
  lockedPaths (checkLockStatus i targets false)
  = filter (λ t, isPathLocked i t = true) targets
  ∧ (hasLocked (checkLockStatus i targets false) = true
     ↔ ∃ t, t ∈ targets ∧ isPathLocked i t = true)
  ∧ (∀ cc ts1 ts2,
       lockedPaths (checkLockStatus i (ts1 ++ ts2) cc)
       = lockedPaths (checkLockStatus i ts1 cc) ++ lockedPaths (checkLockStatus i ts2 cc)
       ∧ hasLocked (checkLockStatus i (ts1 ++ ts2) cc)
         = hasLocked (checkLockStatus i ts1 cc) || hasLocked (checkLockStatus i ts2 cc))
  ∧ (∀ cc, length (lockedPaths (checkLockStatus i targets cc)) ≤ length targets).
Proof.
  unfold checkLockStatus. cbn [lockedPaths hasLocked]. split_and!.
  - apply foldl_checkOne_paths.
  - rewrite foldl_checkOne_paths, bool_decide_eq_true. split.
    + destruct (filter (λ t, isPathLocked i t = true) targets) as [|t l] eqn:E;
        [cbn; lia|]. intros _.
      assert (t ∈ filter (λ t, isPathLocked i t = true) targets) as Hin
        by (rewrite E; left).
      apply list_elem_of_filter in Hin as [Hl Hin]. by exists t.
    + intros (t & Hin & Hl).
      assert (t ∈ filter (λ t, isPathLocked i t = true) targets) as Hin'
        by (by apply list_elem_of_filter).
      destruct (filter (λ t, isPathLocked i t = true) targets);
        [by apply elem_of_nil in Hin' | cbn; lia].
  - intros cc ts1 ts2. rewrite foldl_app, foldl_checkOne_acc. split; [done|].
    rewrite length_app.
    destruct (foldl (checkOne i cc) [] ts1), (foldl (checkOne i cc) [] ts2); done.
  - intros cc. induction targets as [|t targets IH] using rev_ind; [done|].
    rewrite foldl_app, length_app. cbn [foldl length].
    rewrite checkOne_acc, length_app.
    assert (length (checkOne i cc [] t) ≤ 1); [|lia].
    unfold checkOne, Js.push. destruct cc.
    + destruct (isPathOrContentsLocked i t) as [L|]; [|cbn; lia].
      destruct (Js.truthy L); cbn; lia.
    + destruct (isPathLocked i t); cbn; lia.
Qed.

(** X14.  On targets none of which is the empty string the check of the
    middleware and [checkLockStatus] agree in both modes: what
    [checkTargetsLocked] finds for an instance that exists is the first
    path of the report of [checkLockStatus], and it finds one exactly when
    [hasLocked] is set. *)
Theorem checkTargetsLocked_agrees_with_checkLockStatus (d : Daemon) (uuid : string)
    (i : Instance) (cc : bool) (targets : list path) :
  getInstance d uuid = Some i →
  Forall (λ t, t ≠ []) targets →
  checkTargetsLocked d uuid targets cc
  = head (lockedPaths (checkLockStatus i targets cc))
  ∧ truthyResult (checkTargetsLocked d uuid targets cc)
    = hasLocked (checkLockStatus i targets cc).
Proof.
  intros Hi Hne. unfold checkTargetsLocked. rewrite Hi.
  unfold checkLockStatus. cbn [lockedPaths hasLocked].
  assert (checkTargetsLocked_loop i cc targets
          = head (foldl (checkOne i cc) [] targets)
          ∧ Forall (λ t, t ≠ []) (foldl (checkOne i cc) [] targets)) as [Heq Hall].
  { induction Hne as [|t targets Ht Hne [IH1 IH2]]; [done|].
    cbn [foldl checkTargetsLocked_loop]. rewrite foldl_checkOne_acc.
    unfold checkOne, Js.push. destruct cc; cbv zeta.
    - destruct (isPathOrContentsLocked i t) as [L|] eqn:EL.
      + pose proof (isPathOrContentsLocked_truthy i t L Ht EL) as HL.
        cbn [truthyResult]. rewrite HL. split; [done|].
        apply Forall_app. split; [|done]. apply Forall_singleton.
        by apply truthy_true.
      + done.
    - destruct (isPathLocked i t); [|done]. split; [done|].
      apply Forall_app. split; [|done]. by apply Forall_singleton. }
  split; [done|]. rewrite Heq.
  destruct (foldl (checkOne i cc) [] targets) as [|L l]; [done|].
  apply Forall_cons in Hall as [HL _]. cbn. by apply truthy_true.
Qed.

Lemma checkTargetsLocked_agrees_with_checkLockStatus_witness :
  let i := mkInstance "srv"
             (mkConfig (Some [str "a/b/c.txt"; str "x"]) (Some [str "a"; str "a/b"])) in
  let d := mkDaemon {[ "srv" := i ]} [] [] [] in
  let targets := [str "free.txt"; str "a\b\"; str "x/y"] in
  lockedPaths (checkLockStatus i targets true) = [str "a/b/c.txt"; str "x/y"]
  ∧ (checkTargetsLocked d "srv" targets true
     = head (lockedPaths (checkLockStatus i targets true))
     ∧ truthyResult (checkTargetsLocked d "srv" targets true)
       = hasLocked (checkLockStatus i targets true)).
Proof.
  cbv zeta. split; [vm_compute; reflexivity|].
  apply checkTargetsLocked_agrees_with_checkLockStatus.
  - vm_compute. reflexivity.
  - repeat constructor; discriminate.
Defined.

(** ** The middlewares of the file router *)

Lemma checkTargetsLocked_loop_no_locks (i : Instance) (cc : bool) (targets : list path) :
  lockedFilesOrEmpty i = [] → checkTargetsLocked_loop i cc targets = None.
Proof.
  intros HR.
  assert (∀ t, isPathLocked i t = false) as Hl
    by (intros t; unfold isPathLocked; by rewrite HR).
  assert (∀ t, isPathOrContentsLocked i t = None) as Hc.
  { intros t. unfold isPathOrContentsLocked. rewrite Hl.
    unfold containsLockedPath. by rewrite HR. }
  induction targets as [|t targets IH]; [done|].
  cbn [checkTargetsLocked_loop]. destruct cc; cbv zeta.
  - by rewrite Hc.
  - by rewrite Hl.
Qed.

Lemma fileLockMiddleware_cases (ev : string) (data : Data) (next : Daemon → Daemon)
    (d : Daemon) :
  fileLockMiddleware ev data next d = next d
  ∨ (fileLockMiddleware ev data next d
     = send (ProtocolError ev "TXT_CODE_file_locked_error") d
     ∧ ∃ c uuid, findConfig ev = Some c ∧ d_instanceUuid data = Some uuid
                 ∧ uuid ≠ EmptyString
                 ∧ truthyResult (checkTargetsLocked d uuid (getTargets c data)
                      (negb (bool_decide (checkContents c = Some false)))) = true).
Proof.
  unfold fileLockMiddleware.
  destruct (negb (String.prefix "file/" ev)); [by left|].
  destruct (findConfig ev) as [c|]; [|by left].
  destruct (bool_decide (adminOnly c = Some true)); [by left|].
  destruct (bool_decide (d_isAdmin data = Some true)); [by left|].
  destruct (d_instanceUuid data) as [uuid|]; [|by left].
  case_bool_decide as Hu; [by left|]. cbv zeta.
  destruct (bool_decide (length (getTargets c data) = 0)); [by left|].
  destruct (truthyResult _) eqn:E; [|by left].
  right. split; [done|]. by exists c, uuid.
Qed.

(** X15.  The lock-enforcement middleware fails open: a request that
    carries no instance identifier, or the empty one, or the identifier of
    no instance of the daemon, is forwarded to the handler, and so is every
    request for an instance whose registry is empty, whatever the event,
    the caller and the targets.  It never answers a request otherwise than
    by forwarding it or by the one error [TXT_CODE_file_locked_error]. *)
Theorem fileLockMiddleware_fails_open (ev : string) (data : Data)
    (next : Daemon → Daemon) (d : Daemon) :
  (d_instanceUuid data = None → fileLockMiddleware ev data next d = next d)
  ∧ (d_instanceUuid data = Some EmptyString →
     fileLockMiddleware ev data next d = next d)
  ∧ (∀ uuid, d_instanceUuid data = Some uuid → getInstance d uuid = None →
             fileLockMiddleware ev data next d = next d)
  ∧ (∀ uuid i, d_instanceUuid data = Some uuid → getInstance d uuid = Some i →
               lockedFilesOrEmpty i = [] →
               fileLockMiddleware ev data next d = next d)
  ∧ (fileLockMiddleware ev data next d = next d
     ∨ fileLockMiddleware ev data next d
       = send (ProtocolError ev "TXT_CODE_file_locked_error") d).
Proof.
  destruct (fileLockMiddleware_cases ev data next d)
    as [Hfwd|[Hrej (c & uuid & Hc & Hu & Hne & Hlocked)]].
  { split_and!; intros; try done. by left. }
  split_and!.
  - intros HN. congruence.
  - intros HE. congruence.
  - intros uuid' Hu' Hi. assert (uuid' = uuid) as -> by congruence.
    unfold checkTargetsLocked in Hlocked. by rewrite Hi in Hlocked.
  - intros uuid' i Hu' Hi HR. assert (uuid' = uuid) as -> by congruence.
    unfold checkTargetsLocked in Hlocked.
    by rewrite Hi, checkTargetsLocked_loop_no_locks in Hlocked.
  - by right.
Qed.

(** X16.  For [file/copy] and [file/move] the middleware reads the sources
    of the pairs only: two requests of the same caller for the same
    instance whose pairs have the same sources in the same order get the
    same decision, whatever the destinations are, so a destination inside
    a locked folder does not stop a copy or a move. *)
Theorem fileLockMiddleware_ignores_destinations (ev : string) (data data' : Data)
    (next : Daemon → Daemon) (d : Daemon) :
  ev = "file/copy"%string ∨ ev = "file/move"%string →
  d_isAdmin data = d_isAdmin data' →
  d_instanceUuid data = d_instanceUuid data' →
  (λ t, t.1) <$> default [] (d_targetPairs data)
  = (λ t, t.1) <$> default [] (d_targetPairs data') →
  fileLockMiddleware ev data next d = fileLockMiddleware ev data' next d.
Proof.
  intros Hev Ha Hu Hs.
  assert (∀ c, findConfig ev = Some c → getTargets c data = getTargets c data') as Hc.
  { intros c Hf. destruct data as [a u t ts tp], data' as [a' u' t' ts' tp'].
    cbn [d_targetPairs] in Hs.
    destruct Hev as [-> | ->]; vm_compute in Hf; injection Hf as <-;
      cbn [getTargets]; destruct tp, tp'; exact Hs. }
  unfold fileLockMiddleware.
  destruct (negb (String.prefix "file/" ev)); [done|].
  destruct (findConfig ev) as [c|]; [|done].
  by rewrite (Hc c eq_refl), Ha, Hu.
Qed.

Lemma fileLockMiddleware_ignores_destinations_witness :
  let i := mkInstance "srv" (mkConfig (Some [str "vault"]) (Some [])) in
  let d := mkDaemon {[ "srv" := i ]} [] [] [] in
  let data dst := mkData (Some false) (Some "srv") None None
                    (Some [(str "notes.txt", dst)]) in
  isPathLocked i (str "vault/notes.txt") = true
  ∧ (∀ next, fileLockMiddleware "file/copy" (data (str "copy.txt")) next d = next d)
  ∧ (∀ next, fileLockMiddleware "file/copy" (data (str "vault/notes.txt")) next d
             = fileLockMiddleware "file/copy" (data (str "copy.txt")) next d).
Proof.
  cbv zeta. split; [vm_compute; reflexivity|].
  split; [intros next; vm_compute; reflexivity|].
  intros next. apply fileLockMiddleware_ignores_destinations.
  - by left.
  - reflexivity.
  - reflexivity.
  - reflexivity.
Defined.

(** X17.  A request served through the two middlewares either reaches the
    handler, which then runs once on the daemon as it was, or is answered
    with one of three errors on the event and changes nothing else: no
    instance, no storage call.  The first middleware makes no exception for
    admins: a [file/] request for an instance that does not exist never
    reaches its handler, nor does one for a busy instance unless the event
    is [file/list] or [file/status]. *)
Theorem serve_runs_handler_or_rejects (ev : string) (handler : Data → Daemon → Daemon)
    (data : Data) (d : Daemon) :
  (serve ev handler data d = handler data d
   ∨ ∃ code, code ∈ ["TXT_CODE_file_router.instanceNotExist"; "TXT_CODE_bbedcf29";
                     "TXT_CODE_file_locked_error"]%string
             ∧ serve ev handler data d = send (ProtocolError ev code) d)
  ∧ (String.prefix "file/" ev = true →
     d_instanceUuid data ≫= getInstance d = None →
     serve ev handler data d
     = send (ProtocolError ev "TXT_CODE_file_router.instanceNotExist") d)
  ∧ (String.prefix "file/" ev = true →
     (∀ uuid i, d_instanceUuid data = Some uuid → getInstance d uuid = Some i →
                uuid ∈ busy d → ev ∉ ["file/list"; "file/status"]%string →
                serve ev handler data d
                = send (ProtocolError ev "TXT_CODE_bbedcf29") d))
  ∧ (∀ p, instances (send p d) = instances d ∧ storage (send p d) = storage d
          ∧ busy (send p d) = busy d ∧ sent (send p d) = sent d ++ [p]).
Proof.
  split_and!.
  - unfold serve, fileRouterMiddleware.
    assert (fileLockMiddleware ev data (handler data) d = handler data d
            ∨ ∃ code, code ∈ ["TXT_CODE_file_router.instanceNotExist";
                              "TXT_CODE_bbedcf29";
                              "TXT_CODE_file_locked_error"]%string
                      ∧ fileLockMiddleware ev data (handler data) d
                        = send (ProtocolError ev code) d) as Hlock.
    { destruct (fileLockMiddleware_cases ev data (handler data) d) as [H|[H _]].
      - by left.
      - right. exists "TXT_CODE_file_locked_error"%string.
        split; [|done]. do 2 right. left. }
    destruct (String.prefix "file/" ev); [|done].
    destruct (d_instanceUuid data ≫= getInstance d) as [i|].
    + destruct (_ && _); [|done]. right.
      exists "TXT_CODE_bbedcf29"%string. split; [|done]. right. left.
    + right. exists "TXT_CODE_file_router.instanceNotExist"%string.
      split; [left | done].
  - intros Hp HN. unfold serve, fileRouterMiddleware. by rewrite Hp, HN.
  - intros Hp uuid i Hu Hi Hb Hev. unfold serve, fileRouterMiddleware.
    rewrite Hp, Hu. cbn [mbind option_bind default]. unfold id. rewrite Hi.
    rewrite (bool_decide_eq_true_2 (uuid ∈ busy d)) by done.
    by rewrite (bool_decide_eq_false_2 (ev ∈ _)) by done.
  - done.
Qed.

(** ** The handlers and the lock state of the daemon *)

Lemma runOps_cons (op : LockOp) (ops : list LockOp) (σ : Env) :
  runOps (op :: ops) σ = runOps ops (runOp op σ).2.
Proof. done. Qed.

Lemma runOps_keeps (ops : list LockOp) (σ : Env) :
  instanceUuid (instance (runOps ops σ)) = instanceUuid (instance σ)
  ∧ storeLog σ `prefix_of` storeLog (runOps ops σ)
  ∧ (Invariant (instance σ) → Invariant (instance (runOps ops σ))).
Proof.
  revert σ. induction ops as [|op ops IH]; intros σ; [done|].
  rewrite runOps_cons. destruct (IH (runOp op σ).2) as (Hu & Hp & Hinv).
  destruct (runOp_persists op σ) as [Hu' Hst]. split_and!.
  - by rewrite Hu.
  - etrans; [|exact Hp].
    destruct Hst as [(-> & _)|[-> _]]; [done | by apply prefix_app_r].
  - intros H. by apply Hinv, runOp_invariant.
Qed.

Lemma deleteLoop_runOps (round_returns : path → bool) (targets : list path) (σ : Env) :
  ∃ ops, (deleteLoop round_returns targets σ).2 = runOps ops σ.
Proof.
  revert σ. induction targets as [|t targets IH]; intros σ; [by exists []|].
  cbn [deleteLoop]. destruct (round_returns t); [|by exists []].
  destruct (IH (removeLockForPath t σ).2) as [ops ->].
  by exists (OpRemoveLockForPath t :: ops).
Qed.

Lemma pairLoop_runOps (round_returns : path → path → bool)
    (propagate : path → path → Env → bool * Env) (mk : path → path → LockOp)
    (targets : list (path * path)) (σ : Env) :
  (∀ s t σ0, propagate s t σ0 = runOp (mk s t) σ0) →
  ∃ ops, (pairLoop round_returns propagate targets σ).2 = runOps ops σ.
Proof.
  intros Hmk. revert σ. induction targets as [|t targets IH]; intros σ; [by exists []|].
  cbn [pairLoop]. destruct (round_returns t.1 t.2); [|by exists []].
  destruct (IH (propagate t.1 t.2 σ).2) as [ops ->].
  exists (mk t.1 t.2 :: ops). by rewrite runOps_cons, Hmk.
Qed.

Lemma pairHandler_runOps (call_returns : string → path → path → bool)
    (propagate : path → path → Env → bool * Env) (mk : path → path → LockOp)
    (data : Data) (d : Daemon) :
  (∀ s t σ0, propagate s t σ0 = runOp (mk s t) σ0) →
  (∃ pkt, pairHandler call_returns propagate data d = send pkt d)
  ∨ ∃ uuid i ops pkt,
      d_instanceUuid data = Some uuid ∧ getInstance d uuid = Some i
      ∧ pairHandler call_returns propagate data d
        = send pkt (commit uuid (runOps ops (mkEnv i (storage d))) d).
Proof.
  intros Hmk. unfold pairHandler.
  destruct (d_instanceUuid data) as [uuid|] eqn:Hu; cbn [mbind option_bind];
    [|left; by eexists].
  destruct (getInstance d uuid) as [i|] eqn:Hi; [|left; by eexists].
  cbn [default]. unfold id.
  destruct (d_targetPairs data) as [targets|]; [|left; by eexists].
  destruct (pairLoop_runOps (call_returns uuid) propagate mk targets
              (mkEnv i (storage d)) Hmk) as [ops Hops].
  destruct (pairLoop (call_returns uuid) propagate targets (mkEnv i (storage d)))
    as [completed σ'] eqn:E. cbn [snd] in Hops. subst σ'.
  right. exists uuid, i, ops. by eexists.
Qed.

Lemma handlers_run_ops (fm : FileManager) (copy_returns move_returns : string → path → path → bool)
    (h : Data → Daemon → Daemon) (data : Data) (d : Daemon) :
  h = lockHandler ∨ h = unlockHandler ∨ h = touchHandler fm ∨ h = mkdirHandler fm
  ∨ h = deleteHandler fm ∨ h = copyHandler copy_returns ∨ h = moveHandler move_returns →
  (∃ pkt, h data d = send pkt d)
  ∨ ∃ uuid i ops pkt,
      d_instanceUuid data = Some uuid ∧ getInstance d uuid = Some i
      ∧ h data d = send pkt (commit uuid (runOps ops (mkEnv i (storage d))) d).
Proof.
  assert (∀ create_returns,
    (∃ pkt, createHandler create_returns data d = send pkt d)
    ∨ ∃ uuid i ops pkt,
        d_instanceUuid data = Some uuid ∧ getInstance d uuid = Some i
        ∧ createHandler create_returns data d
          = send pkt (commit uuid (runOps ops (mkEnv i (storage d))) d)) as Hcreate.
  { intros cr. unfold createHandler.
    destruct (d_instanceUuid data) as [uuid|] eqn:Hu; cbn [mbind option_bind];
      [|left; by eexists].
    destruct (getInstance d uuid) as [i|] eqn:Hi; [|left; by eexists].
    cbn [default]. unfold id.
    destruct (cr uuid (d_target data)); [|left; by eexists].
    destruct (d_target data) as [target|].
    - destruct (removeLockForPath target (mkEnv i (storage d))) as [b σ'] eqn:E.
      right. exists uuid, i, [OpRemoveLockForPath target], ProtocolResponse.
      split_and!; [done..|]. unfold runOps. cbn [foldl runOp]. by rewrite E.
    - left. destruct (lockedFiles (config i)); by eexists. }
  intros [->|[->|[->|[->|[->|[->| ->]]]]]].
  - unfold lockHandler.
    destruct (d_instanceUuid data) as [uuid|] eqn:Hu; cbn [mbind option_bind];
      [|left; by eexists].
    destruct (getInstance d uuid) as [i|] eqn:Hi; [|left; by eexists].
    cbn [default]. unfold id.
    destruct (d_target data) as [target|]; [|left; by eexists].
    destruct (addLock target (mkEnv i (storage d))) as [b σ'] eqn:E.
    right. exists uuid, i, [OpAddLock target], ProtocolResponse.
    split_and!; [done..|]. unfold runOps. cbn [foldl runOp]. by rewrite E.
  - unfold unlockHandler.
    destruct (d_instanceUuid data) as [uuid|] eqn:Hu; cbn [mbind option_bind];
      [|left; by eexists].
    destruct (getInstance d uuid) as [i|] eqn:Hi; [|left; by eexists].
    cbn [default]. unfold id.
    destruct (d_target data) as [target|]; [|left; by eexists].
    destruct (removeLock target (mkEnv i (storage d))) as [b σ'] eqn:E.
    right. exists uuid, i, [OpRemoveLock target], ProtocolResponse.
    split_and!; [done..|]. unfold runOps. cbn [foldl runOp]. by rewrite E.
  - apply Hcreate.
  - apply Hcreate.
  - unfold deleteHandler.
    destruct (d_instanceUuid data) as [uuid|] eqn:Hu; cbn [mbind option_bind];
      [|left; by eexists].
    destruct (getInstance d uuid) as [i|] eqn:Hi; [|left; by eexists].
    cbn [default]. unfold id.
    destruct (d_targets data) as [targets|]; [|left; by eexists].
    destruct (deleteLoop_runOps (delete_returns fm uuid) targets
                (mkEnv i (storage d))) as [ops Hops].
    destruct (deleteLoop (delete_returns fm uuid) targets (mkEnv i (storage d)))
      as [completed σ'] eqn:E. cbn [snd] in Hops. subst σ'.
    right. exists uuid, i, ops. by eexists.
  - by apply (pairHandler_runOps _ _ OpCopyLockForPath).
  - by apply (pairHandler_runOps _ _ OpMoveLockForPath).
Qed.

(** X18.  The handlers of [file/lock], [file/unlock], [file/touch],
    [file/mkdir], [file/delete], [file/copy] and [file/move] change the
    lock state through the lock service alone, and of the instance of the
    request alone: a handler either only answers, or leaves that instance
    as a run of the five mutators leaves it.  So the instance of every
    other identifier is as before, no instance disappears or changes its
    identifier, an instance that satisfied the invariant still does, the
    storage calls made before are kept in front of the new ones, the busy
    instances are the same, and exactly one packet is sent. *)
Theorem handlers_change_locks_through_the_service (fm : FileManager)
    (copy_returns move_returns : string → path → path → bool)
    (h : Data → Daemon → Daemon) (data : Data) (d : Daemon) :
  h = lockHandler ∨ h = unlockHandler ∨ h = touchHandler fm ∨ h = mkdirHandler fm
  ∨ h = deleteHandler fm ∨ h = copyHandler copy_returns ∨ h = moveHandler move_returns →
  ((∃ pkt, h data d = send pkt d)
   ∨ ∃ uuid i ops pkt,
       d_instanceUuid data = Some uuid ∧ getInstance d uuid = Some i
       ∧ h data d = send pkt (commit uuid (runOps ops (mkEnv i (storage d))) d))
  ∧ (∀ u, d_instanceUuid data ≠ Some u → getInstance (h data d) u = getInstance d u)
  ∧ (∀ u i, getInstance d u = Some i →
            ∃ i', getInstance (h data d) u = Some i'
                  ∧ instanceUuid i' = instanceUuid i
                  ∧ (Invariant i → Invariant i'))
  ∧ storage d `prefix_of` storage (h data d)
  ∧ busy (h data d) = busy d
  ∧ ∃ pkt, sent (h data d) = sent d ++ [pkt].
Proof.
  intros Hh.
  pose proof (handlers_run_ops fm copy_returns move_returns h data d Hh) as Hrun.
  split; [exact Hrun|].
  destruct Hrun as [[pkt ->]|(uuid & i & ops & pkt & Hu & Hi & ->)].
  { split_and!; [done| |done|done|by exists pkt]. intros u i Hi. by exists i. }
  destruct (runOps_keeps ops (mkEnv i (storage d))) as (Hid & Hpre & Hinv).
  cbn [instance storeLog] in Hid, Hpre, Hinv.
  unfold getInstance, send, commit. cbn [instances storage busy sent].
  split_and!.
  - intros u Hne. apply lookup_insert_ne. congruence.
  - intros u i0 Hi0. destruct (decide (u = uuid)) as [->|Hne].
    + rewrite lookup_insert_eq. eexists. split; [done|].
      unfold getInstance in Hi. assert (i0 = i) as -> by congruence. done.
    + rewrite lookup_insert_ne by done. by exists i0.
  - done.
  - done.
  - by exists pkt.
Qed.

Lemma handlers_change_locks_through_the_service_witness :
  let fm := mkFileManager (λ _ _, true) (λ _ _, true) (λ _ _, true) in
  let i := mkInstance "srv" (mkConfig (Some [str "a/b"; str "x"]) (Some [str "a"])) in
  let j := mkInstance "other" (mkConfig (Some [str "a/b"]) (Some [str "a"])) in
  let d := mkDaemon {[ "srv" := i; "other" := j ]} [] [] [] in
  let data := mkData (Some true) (Some "srv") None None
                (Some [(str "a", str "c"); (str "x", str "y")]) in
  let h := moveHandler (λ _ _ _, true) in
  config <$> getInstance (h data d) "srv"
  = Some (mkConfig (Some [str "c/b"; str "y"]) (Some [str "c"]))
  ∧ getInstance (h data d) "other" = Some j
  ∧ storage d `prefix_of` storage (h data d)
  ∧ busy (h data d) = busy d.
Proof.
  cbv zeta. split; [vm_compute; reflexivity|].
  split; [vm_compute; reflexivity|].
  destruct (handlers_change_locks_through_the_service
    (mkFileManager (λ _ _, true) (λ _ _, true) (λ _ _, true))
    (λ _ _ _, true) (λ _ _ _, true) (moveHandler (λ _ _ _, true))
    (mkData (Some true) (Some "srv"%string) None None
       (Some [(str "a", str "c"); (str "x", str "y")]))
    (mkDaemon {[ "srv"%string := mkInstance "srv"
                   (mkConfig (Some [str "a/b"; str "x"]) (Some [str "a"]));
                 "other"%string := mkInstance "other"
                   (mkConfig (Some [str "a/b"]) (Some [str "a"])) ]} [] [] [])
    ltac:(do 6 right; reflexivity)) as (_ & _ & _ & Hs & Hb & _).
  split; [exact Hs | exact Hb].
Defined.

(** ** Round trips of the propagations *)

Lemma filter_all (Q : path → Prop) `{!∀ x, Decision (Q x)} (l : list path) :
  Forall Q l → filter Q l = l.
Proof.
  induction 1 as [|x l Hx _ IH]; [done|]. by rewrite filter_cons_True, IH.
Qed.

Lemma unrelated_sym (S D : path) : unrelated S D → unrelated D S.
Proof. intros [H1 H2]. by split. Qed.

Lemma ancestorOf_child (a k : path) : ancestorOf a (a ++ slash :: k).
Proof. exists k. by rewrite <-app_assoc. Qed.

Lemma relabel_back (S D e : path) :
  e ≠ D → ¬ ancestorOf D e → relabel D S (relabel S D e) = e.
Proof.
  intros Hne Hnu. destruct (decide (e = S)) as [->|HneS].
  - by rewrite relabel_self, relabel_self.
  - destruct (decide (ancestorOf S e)) as [Hu|HnuS].
    + rewrite (relabel_under S D e Hu).
      destruct (rebase_under S D e Hu) as (k & -> & ->).
      rewrite (relabel_under D S _ (ancestorOf_child D k)).
      destruct (rebase_under D S _ (ancestorOf_child D k)) as (k' & Hk & ->).
      apply app_inv_head in Hk. by injection Hk as <-.
    + rewrite (relabel_other S D e) by done. by apply relabel_other.
Qed.

Lemma isPathLocked_ext (i j : Instance) (Q : path) :
  (∀ e, e ∈ lockedFilesOrEmpty i ↔ e ∈ lockedFilesOrEmpty j) →
  isPathLocked i Q = isPathLocked j Q.
Proof.
  intros Hel.
  assert (isPathLocked i Q = true ↔ isPathLocked j Q = true) as Hiff.
  { rewrite !isPathLocked_gen. split; intros (E & HE & Hor); exists E;
      (split; [by apply Hel | done]). }
  destruct (isPathLocked i Q), (isPathLocked j Q); try done.
  - symmetry. by apply Hiff.
  - by apply Hiff.
Qed.

(** X20.  Moving back restores the locks.  In a registry without
    duplicates, for a source and a destination neither of which is or lies
    under the other, and a destination that is no entry and has no entry
    under it: [moveLockForPath] from the source to the destination followed
    by [moveLockForPath] from the destination to the source leaves the
    entries the registry had, each once, possibly in another order, and
    [isPathLocked] answers on every path as before. *)
Theorem moveLockForPath_back_restores (src dst : path) (σ : Env) :
  NoDup (registryOf σ) →
  unrelated (normalizePath src) (normalizePath dst) →
  (normalizePath dst ∉ registryOf σ) →
  (∀ e, e ∈ registryOf σ → ¬ ancestorOf (normalizePath dst) e) →
  let σ2 := (moveLockForPath dst src (moveLockForPath src dst σ).2).2 in
  registryOf σ2 ≡ₚ registryOf σ
  ∧ ∀ Q, isPathLocked (instance σ2) Q = isPathLocked (instance σ) Q.
Proof.
  intros Hnd Hun HD HnoD. cbv zeta.
  set (σ1 := (moveLockForPath src dst σ).2).
  pose proof (moveLockForPath_NoDup src dst σ Hnd) as Hnd1. fold σ1 in Hnd1.
  pose proof (moveLockForPath_NoDup dst src σ1 Hnd1) as Hnd2.
  assert (∀ e, e ∈ registryOf (moveLockForPath dst src σ1).2 ↔ e ∈ registryOf σ) as Hel.
  { intros e. rewrite (moveLockForPath_relabel dst src σ1 e Hnd1 (unrelated_sym _ _ Hun)).
    split.
    - intros (e1 & He1 & ->).
      apply (moveLockForPath_relabel src dst σ e1 Hnd Hun) in He1 as (e0 & He0 & ->).
      rewrite relabel_back; [done| |by apply HnoD].
      intros ->. by apply HD.
    - intros He. exists (relabel (normalizePath src) (normalizePath dst) e). split.
      + apply (moveLockForPath_relabel src dst σ _ Hnd Hun). by exists e.
      + rewrite relabel_back; [done| |by apply HnoD].
        intros ->. by apply HD. }
  split.
  - by apply NoDup_Permutation.
  - intros Q. by apply isPathLocked_ext.
Qed.

Lemma moveLockForPath_back_restores_witness :
  let σ := mkEnv (mkInstance "srv"
                    (mkConfig (Some [str "a"; str "a/b/c.txt"; str "k"])
                              (Some [str "a"; str "a/b"]))) [] in
  let σ2 := (moveLockForPath (str "x\y") (str "a/")
               (moveLockForPath (str "a/") (str "x\y") σ).2).2 in
  registryOf (moveLockForPath (str "a/") (str "x\y") σ).2
  = [str "k"; str "x/y"; str "x/y/b/c.txt"]
  ∧ registryOf σ2 = [str "k"; str "a"; str "a/b/c.txt"]
  ∧ (registryOf σ2 ≡ₚ registryOf σ
     ∧ ∀ Q, isPathLocked (instance σ2) Q = isPathLocked (instance σ) Q).
Proof.
  cbv zeta. split; [vm_compute; reflexivity|]. split; [vm_compute; reflexivity|].
  apply moveLockForPath_back_restores.
  - refine (bool_decide_unpack _ _). vm_compute. exact I.
  - split; refine (bool_decide_unpack _ _); vm_compute; exact I.
  - refine (bool_decide_unpack _ _). vm_compute. exact I.
  - intros e He. refine (bool_decide_unpack _ _).
    repeat (apply elem_of_cons in He as [->|He]; [vm_compute; exact I|]).
    by apply elem_of_nil in He.
Defined.

Lemma copyLockForPath_registry (src dst : path) (σ : Env) :
  registryOf (copyLockForPath src dst σ).2
  = if bool_decide (normalizePath src ∈ registryOf σ ∧ normalizePath dst ∉ registryOf σ)
    then registryOf σ ++ [normalizePath dst] else registryOf σ.
Proof.
  destruct (lockedFiles (config (instance σ))) as [R|] eqn:ER.
  - assert (registryOf σ = R) as HR
      by (unfold registryOf, lockedFilesOrEmpty; by rewrite ER).
    rewrite (copyLockForPath_Some _ _ _ _ ER), HR.
    destruct (Js.includes (normalizePath src) R) eqn:ES.
    + apply includes_true in ES.
      destruct (Js.includes (normalizePath dst) R) eqn:ED; cbn [negb snd].
      * apply includes_true in ED. by rewrite bool_decide_eq_false_2 by tauto.
      * apply includes_false in ED. rewrite bool_decide_eq_true_2 by done.
        by rewrite registryOf_finish.
    + apply includes_false in ES. by rewrite bool_decide_eq_false_2 by tauto.
  - assert (registryOf σ = []) as HR
      by (unfold registryOf, lockedFilesOrEmpty; by rewrite ER).
    rewrite (copyLockForPath_None _ _ _ ER), HR.
    rewrite bool_decide_eq_false_2; [done|].
    intros [Hin _]. by apply elem_of_nil in Hin.
Qed.

(** X21.  Deleting the copy restores the registry.  When the destination
    is no registry entry and has no entry under it, [copyLockForPath] from
    any source to it followed by [removeLockForPath] on it leaves the
    registry exactly as it was, whether the source was locked or not. *)
Theorem copyLockForPath_then_removeLockForPath (src dst : path) (σ : Env) :
  (normalizePath dst ∉ registryOf σ) →
  (∀ e, e ∈ registryOf σ → ¬ ancestorOf (normalizePath dst) e) →
  registryOf (removeLockForPath dst (copyLockForPath src dst σ).2).2 = registryOf σ.
Proof.
  intros HD HnoD. rewrite removeLockForPath_registry, copyLockForPath_registry.
  assert (removeFirst (normalizePath dst)
            (if bool_decide (normalizePath src ∈ registryOf σ
                             ∧ normalizePath dst ∉ registryOf σ)
             then registryOf σ ++ [normalizePath dst] else registryOf σ)
          = registryOf σ) as ->.
  { case_bool_decide.
    - by rewrite removeFirst_app_fresh, app_nil_r.
    - by apply removeFirst_notin. }
  apply filter_all. by apply Forall_forall.
Qed.

Lemma copyLockForPath_then_removeLockForPath_witness :
  let σ := mkEnv (mkInstance "srv"
                    (mkConfig (Some [str "a"; str "k/l"]) (Some [str "k"]))) [] in
  registryOf (copyLockForPath (str "a") (str "b/") σ).2 = [str "a"; str "k/l"; str "b"]
  ∧ registryOf (removeLockForPath (str "b/") (copyLockForPath (str "a") (str "b/") σ).2).2
    = registryOf σ.
Proof.
  cbv zeta. split; [vm_compute; reflexivity|].
  apply copyLockForPath_then_removeLockForPath.
  - refine (bool_decide_unpack _ _). vm_compute. exact I.
  - intros e He. refine (bool_decide_unpack _ _).
    repeat (apply elem_of_cons in He as [->|He]; [vm_compute; exact I|]).
    by apply elem_of_nil in He.
Defined.

(** ** A delete request that fails half way *)

Lemma deleteLoop_app (round_returns : path → bool) (done rest : list path) (σ : Env) :
  Forall (λ t, round_returns t = true) done →
  deleteLoop round_returns (done ++ rest) σ
  = deleteLoop round_returns rest (deleteLoop round_returns done σ).2.
Proof.
  intros Hall. revert σ. induction Hall as [|t done Ht _ IH]; intros σ; [done|].
  cbn [deleteLoop app]. by rewrite Ht, IH.
Qed.

(** X22.  The [file/delete] handler clears the locks of what it has
    deleted, also when it fails half way: if the file manager deletes the
    targets [done] and throws on the next one, the response is an error,
    and the instance is left with the locks of [done], and of what lay under
    them, removed, one target after the other; the locks of the target
    that failed and of those behind it are not touched by the handler. *)
Theorem deleteHandler_clears_what_was_deleted (fm : FileManager) (data : Data)
    (d : Daemon) (uuid : string) (i : Instance) (done : list path) (failed : path)
    (rest : list path) :
  d_instanceUuid data = Some uuid →
  getInstance d uuid = Some i →
  d_targets data = Some (done ++ failed :: rest) →
  Forall (λ t, delete_returns fm uuid t = true) done →
  delete_returns fm uuid failed = false →
  sent (deleteHandler fm data d) = sent d ++ [ProtocolResponseError "file manager"]
  ∧ lockedFilesOrEmpty <$> getInstance (deleteHandler fm data d) uuid
    = Some (foldl clearPath (lockedFilesOrEmpty i) done)
  ∧ (∀ e, e ∈ lockedFilesOrEmpty i →
          Forall (λ t, e ≠ normalizePath t ∧ ¬ ancestorOf (normalizePath t) e) done →
          ∃ i', getInstance (deleteHandler fm data d) uuid = Some i'
                ∧ e ∈ lockedFilesOrEmpty i').
Proof.
  intros Hu Hi Ht Hdone Hfail.
  unfold deleteHandler. rewrite Hu. cbn [mbind option_bind default]. unfold id.
  rewrite Hi, Ht, (deleteLoop_app _ _ _ _ Hdone).
  destruct (deleteLoop_registry (delete_returns fm uuid) done
              (mkEnv i (storage d)) Hdone) as [_ HR].
  cbn [deleteLoop]. rewrite Hfail.
  set (σ' := (deleteLoop (delete_returns fm uuid) done (mkEnv i (storage d))).2) in *.
  unfold getInstance, send, commit. cbn [instances sent].
  rewrite lookup_insert_eq. cbn [fmap option_fmap option_map].
  split_and!; [done | by f_equal|].
  intros e He Hall. eexists. split; [done|].
  fold (registryOf σ'). rewrite HR. unfold registryOf. cbn [instance].
  clear HR σ' Ht Hdone. revert He.
  generalize (lockedFilesOrEmpty i) as R.
  induction Hall as [|t done [Hne Hnu] _ IH]; intros R He; [done|].
  cbn [foldl]. apply IH. unfold clearPath.
  apply list_elem_of_filter. split; [done|]. by apply elem_of_removeFirst_ne.
Qed.

Lemma deleteHandler_clears_what_was_deleted_witness :
  let fm := mkFileManager (λ _ _, true) (λ _ _, true)
              (λ _ t, bool_decide (t ≠ str "busy.log")) in
  let i := mkInstance "srv"
             (mkConfig (Some [str "tmp/a"; str "busy.log"; str "keep"])
                       (Some [str "tmp"])) in
  let d := mkDaemon {[ "srv" := i ]} [] [] [] in
  let data := mkData (Some true) (Some "srv") None
                (Some [str "tmp"; str "busy.log"; str "keep"]) None in
  sent (deleteHandler fm data d) = sent d ++ [ProtocolResponseError "file manager"]
  ∧ lockedFilesOrEmpty <$> getInstance (deleteHandler fm data d) "srv"
    = Some [str "busy.log"; str "keep"].
Proof.
  cbv zeta.
  destruct (deleteHandler_clears_what_was_deleted
    (mkFileManager (λ _ _, true) (λ _ _, true)
       (λ _ t, bool_decide (t ≠ str "busy.log")))
    (mkData (Some true) (Some "srv"%string) None
       (Some [str "tmp"; str "busy.log"; str "keep"]) None)
    (mkDaemon {[ "srv"%string := mkInstance "srv"
                   (mkConfig (Some [str "tmp/a"; str "busy.log"; str "keep"])
                             (Some [str "tmp"])) ]} [] [] [])
    "srv"
    (mkInstance "srv"
       (mkConfig (Some [str "tmp/a"; str "busy.log"; str "keep"]) (Some [str "tmp"])))
    [str "tmp"] (str "busy.log") [str "keep"]
    ) as (Hs & Hl & _);
    [reflexivity | vm_compute; reflexivity | reflexivity
    | repeat constructor | vm_compute; reflexivity |].
  split; [exact Hs|]. rewrite Hl. vm_compute. reflexivity.
Defined.

(** ** What blocks a path *)

(** X23.  For an instance whose index is the ancestor closure of its
    registry, [isPathOrContentsLocked] returns a path exactly when the
    target is comparable with a lock: some registry entry, read in
    canonical form, is the canonical target, lies above it or lies under
    it.  What it returns is the target itself in the first two cases and a
    registry entry under the target otherwise. *)
Theorem isPathOrContentsLocked_comparable (i : Instance) (Q : path) :
  IndexIsClosure i →
  (is_Some (isPathOrContentsLocked i Q)
   ↔ ∃ E, E ∈ lockedFilesOrEmpty i
          ∧ (normalizePath Q = normalizePath E
             ∨ ancestorOf (normalizePath E) (normalizePath Q)
             ∨ ancestorOf (normalizePath Q) (normalizePath E)))
  ∧ (isPathOrContentsLocked i Q = Some Q
     ∨ isPathLocked i Q = false
       ∧ isPathOrContentsLocked i Q = containsLockedPath i Q).
Proof.
  intros Hcl. split.
  - unfold isPathOrContentsLocked. destruct (isPathLocked i Q) eqn:El.
    + split; [|done]. intros _.
      apply isPathLocked_gen in El as (E & HE & Hor). exists E. tauto.
    + rewrite (containsLockedPath_is_Some i Q Hcl). split.
      * intros (L & HL & Hanc). exists L. tauto.
      * intros (E & HE & [Heq|[Hup|Hdown]]).
        -- assert (isPathLocked i Q = true) as Ht
             by (apply isPathLocked_gen; exists E; tauto). congruence.
        -- assert (isPathLocked i Q = true) as Ht
             by (apply isPathLocked_gen; exists E; tauto). congruence.
        -- by exists E.
  - unfold isPathOrContentsLocked. destruct (isPathLocked i Q); [by left | by right].
Qed.

Lemma isPathOrContentsLocked_comparable_witness :
  let i := mkInstance "srv"
             (mkConfig (Some [str "a/b/c.txt"]) (Some [str "a"; str "a/b"])) in
  isPathOrContentsLocked i (str "a\") = Some (str "a/b/c.txt")
  ∧ isPathOrContentsLocked i (str "ab") = None
  ∧ (is_Some (isPathOrContentsLocked i (str "a\"))
     ↔ ∃ E, E ∈ lockedFilesOrEmpty i
            ∧ (normalizePath (str "a\") = normalizePath E
               ∨ ancestorOf (normalizePath E) (normalizePath (str "a\"))
               ∨ ancestorOf (normalizePath (str "a\")) (normalizePath E))).
Proof.
  cbv zeta. split; [vm_compute; reflexivity|]. split; [vm_compute; reflexivity|].
  apply isPathOrContentsLocked_comparable.
  apply collectFolders_IndexIsClosure. vm_compute. reflexivity.
Defined.

(** ** A lock request and the requests that follow *)

Lemma lockHandler_locks (data : Data) (d : Daemon) (uuid : string) (i : Instance)
    (P : path) :
  d_instanceUuid data = Some uuid → getInstance d uuid = Some i →
  d_target data = Some P →
  lockHandler data d
  = send ProtocolResponse (commit uuid (addLock P (mkEnv i (storage d))).2 d)
  ∧ getInstance (lockHandler data d) uuid
    = Some (instance (addLock P (mkEnv i (storage d))).2)
  ∧ busy (lockHandler data d) = busy d.
Proof.
  intros Hu Hi Ht. unfold lockHandler. rewrite Hu. cbn [mbind option_bind default].
  unfold id. rewrite Hi, Ht.
  destruct (addLock P (mkEnv i (storage d))) as [b σ'] eqn:E. cbn [snd].
  split_and!; [done| |done].
  unfold getInstance, send, commit. cbn [instances]. apply lookup_insert_eq.
Qed.

Lemma lockedUnder_entry (i : Instance) (P Q : path) :
  normalizePath P ∈ lockedFilesOrEmpty i →
  (normalizePath Q = normalizePath P
   ∨ ancestorOf (normalizePath P) (normalizePath Q) → isPathLocked i Q = true)
  ∧ (IndexIsClosure i → ancestorOf (normalizePath Q) (normalizePath P) →
     is_Some (isPathOrContentsLocked i Q)).
Proof.
  intros Hin. split.
  - intros Hor. apply isPathLocked_gen. exists (normalizePath P).
    split; [done|]. by rewrite normalizePath_idemp.
  - intros Hcl Hanc. unfold isPathOrContentsLocked.
    destruct (isPathLocked i Q); [done|].
    apply containsLockedPath_is_Some; [done|]. exists (normalizePath P).
    split; [done|]. by rewrite normalizePath_idemp.
Qed.

Lemma moveCase1_keeps (S D e : path) (R : list path) :
  e ∈ R → e ≠ S → e ∈ (moveCase1 S D R).2.
Proof.
  intros He Hne. unfold moveCase1.
  destruct (Js.indexOf S R) as [idx|] eqn:EI; [|done].
  apply indexOf_Some in EI as (l1 & l2 & -> & _ & _ & ->). cbn [snd].
  assert (e ∈ l1 ++ l2) as Hin.
  { apply elem_of_app in He as [He|He]; apply elem_of_app; [by left|].
    apply elem_of_cons in He as [->|He]; [done | by right]. }
  destruct (Js.includes D (l1 ++ l2)); [done|].
  unfold Js.push. apply elem_of_app. by left.
Qed.

Lemma applyUpdate_keeps (st : bool * list path) (u : path * path) (e : path) :
  e ∈ st.2 → e ≠ u.1 → e ∈ (applyUpdate st u).2.
Proof.
  intros He Hne. destruct u as [o n]. cbn [fst] in Hne. unfold applyUpdate.
  destruct (Js.indexOf o st.2) as [idx|] eqn:EI; [|done].
  apply indexOf_Some in EI as (l1 & l2 & HR & _ & _ & ->). cbn [snd].
  rewrite HR in He.
  assert (e ∈ l1 ++ l2) as Hin.
  { apply elem_of_app in He as [He|He]; apply elem_of_app; [by left|].
    apply elem_of_cons in He as [->|He]; [done | by right]. }
  destruct (Js.includes n (l1 ++ l2)); [done|].
  unfold Js.push. apply elem_of_app. by left.
Qed.

Lemma foldl_applyUpdate_keeps (us : list (path * path)) (st : bool * list path)
    (e : path) :
  e ∈ st.2 → Forall (λ u, e ≠ u.1) us → e ∈ (foldl applyUpdate st us).2.
Proof.
  intros He Hall. revert st He.
  induction Hall as [|u us Hu _ IH]; intros st He; [done|].
  cbn [foldl]. apply IH. by apply applyUpdate_keeps.
Qed.

Lemma moveLockForPath_keeps (src dst e : path) (σ : Env) :
  e ∈ registryOf σ → e ≠ normalizePath src → ¬ ancestorOf (normalizePath src) e →
  e ∈ registryOf (moveLockForPath src dst σ).2.
Proof.
  intros He Hne Hnu.
  destruct (lockedFiles (config (instance σ))) as [R|] eqn:ER.
  - assert (registryOf σ = R) as HR
      by (unfold registryOf, lockedFilesOrEmpty; by rewrite ER).
    rewrite HR in He. rewrite (moveLockForPath_registry _ _ _ _ ER).
    apply foldl_applyUpdate_keeps; [by apply moveCase1_keeps|].
    apply Forall_forall. intros u Hu ->.
    apply elem_of_collectUpdatedPaths in Hu as (_ & Hanc & _). done.
  - assert (registryOf σ = []) as HR
      by (unfold registryOf, lockedFilesOrEmpty; by rewrite ER).
    rewrite HR in He. by apply elem_of_nil in He.
Qed.

(** X19.  Serving [file/lock] for a path [P] of an instance that exists
    puts the canonical form of [P] into the registry of that instance, and
    keeps the invariant if it held.  In every state of the daemon in which
    that entry is in the registry of an instance that exists and is not
    busy, a request of a caller who is no admin for an operation the
    middleware governs, none of whose candidate paths is the empty string,
    is rejected with [TXT_CODE_file_locked_error], and its handler does not
    run, as soon as one candidate is [P] or lies under [P]; and, when the
    index is the ancestor closure of the registry and the operation is not
    [file/list], as soon as one lies above [P].  The entry stays in the
    registry through every [addLock] and [copyLockForPath], through
    [removeLock] on another path, and through [removeLockForPath] on, and
    [moveLockForPath] from, a path that is neither [P] nor above [P]. *)
Theorem lock_request_denies_later_requests (lockData : Data) (d : Daemon)
    (uuid : string) (i : Instance) (P : path) :
  d_instanceUuid lockData = Some uuid →
  getInstance d uuid = Some i →
  d_target lockData = Some P →
  (∃ i1, getInstance (lockHandler lockData d) uuid = Some i1
         ∧ normalizePath P ∈ lockedFilesOrEmpty i1
         ∧ (Invariant i → Invariant i1))
  ∧ busy (lockHandler lockData d) = busy d
  ∧ (∀ d2 i2,
       getInstance d2 uuid = Some i2 →
       normalizePath P ∈ lockedFilesOrEmpty i2 →
       uuid ≠ EmptyString → (uuid ∉ busy d2) →
       ∀ ev c handler data Q,
         findConfig ev = Some c →
         d_isAdmin data ≠ Some true → d_instanceUuid data = Some uuid →
         Q ∈ getTargets c data → Forall (λ t, t ≠ []) (getTargets c data) →
         (normalizePath Q = normalizePath P
          ∨ ancestorOf (normalizePath P) (normalizePath Q)
          ∨ (ancestorOf (normalizePath Q) (normalizePath P)
             ∧ IndexIsClosure i2 ∧ ev ≠ "file/list"%string)) →
         serve ev handler data d2
         = send (ProtocolError ev "TXT_CODE_file_locked_error") d2)
  ∧ (∀ σ, normalizePath P ∈ registryOf σ →
          (∀ T, normalizePath P ∈ registryOf (addLock T σ).2)
          ∧ (∀ S D, normalizePath P ∈ registryOf (copyLockForPath S D σ).2)
          ∧ (∀ T, normalizePath T ≠ normalizePath P →
                  normalizePath P ∈ registryOf (removeLock T σ).2)
          ∧ (∀ T, normalizePath T ≠ normalizePath P →
                  ¬ ancestorOf (normalizePath T) (normalizePath P) →
                  normalizePath P ∈ registryOf (removeLockForPath T σ).2)
          ∧ (∀ S D, normalizePath S ≠ normalizePath P →
                    ¬ ancestorOf (normalizePath S) (normalizePath P) →
                    normalizePath P ∈ registryOf (moveLockForPath S D σ).2)).
Proof.
  intros Hu Hi Ht.
  destruct (lockHandler_locks lockData d uuid i P Hu Hi Ht) as (_ & Hi1 & Hb1).
  split_and!.
  - eexists. split; [exact Hi1|]. split.
    + apply elem_of_addLock. by right.
    + intros Hinv. by apply (addLock_invariant P (mkEnv i (storage d))).
  - exact Hb1.
  - intros d2 i2 Hi2 Hin Hne Hbusy ev c handler data Q Hc Hadm Hu' HQ Hall Hrel.
    destruct (lockedUnder_entry i2 P Q Hin) as [Hl Hco].
    unfold serve. rewrite (fileRouterMiddleware_pass ev data _ d2 uuid i2) by done.
    assert (getTargets c data ≠ []) as Hnil
      by (intros E; rewrite E in HQ; by apply elem_of_nil in HQ).
    apply (fileLockMiddleware_decision ev c data (handler data) d2 uuid i2);
      [done..|].
    exists Q. split; [done|]. unfold lockedUnder.
    assert (isPathLocked i2 Q = true → is_Some (isPathOrContentsLocked i2 Q)) as Hup
      by (intros E; unfold isPathOrContentsLocked; by rewrite E).
    destruct (negb (bool_decide (checkContents c = Some false))) eqn:Ecc.
    + destruct Hrel as [H|[H|(H & Hcl & _)]]; [apply Hup, Hl; by left
                                              |apply Hup, Hl; by right
                                              |by apply Hco].
    + destruct Hrel as [H|[H|(_ & _ & Hev)]]; [apply Hl; by left | apply Hl; by right|].
      exfalso. apply negb_false_iff, bool_decide_eq_true in Ecc.
      pose proof (findConfig_Some ev c Hc) as (Hevc & _ & _ & Hgov).
      unfold governedEvents in Hgov.
      repeat (apply elem_of_cons in Hgov as [->|Hgov]; [try done|]);
        try (by apply elem_of_nil in Hgov);
        vm_compute in Hc; injection Hc as <-; discriminate Ecc.
  - intros σ Hin. split_and!.
    + intros T. apply elem_of_addLock. by left.
    + intros S D. rewrite copyLockForPath_registry. case_bool_decide; [|done].
      apply elem_of_app. by left.
    + intros T Hne. rewrite (proj1 (removeLock_registry T σ)).
      by apply elem_of_removeFirst_ne.
    + intros T Hne Hnu. rewrite removeLockForPath_registry.
      apply list_elem_of_filter. split; [done|]. by apply elem_of_removeFirst_ne.
    + intros S D Hne Hnu. by apply moveLockForPath_keeps.
Qed.

Lemma lock_request_denies_later_requests_witness :
  let i := mkInstance "srv" (mkConfig None None) in
  let d := mkDaemon {[ "srv" := i ]} [] [] [] in
  let lockData := mkData (Some true) (Some "srv") (Some (str "world/region")) None None in
  let d1 := lockHandler lockData d in
  let fm := mkFileManager (λ _ _, true) (λ _ _, true) (λ _ _, true) in
  let data := mkData (Some false) (Some "srv") None (Some [str "logs"; str "world"]) None in
  lockStateOf d1 "srv" = Some ([str "world/region"], [str "world"])
  ∧ serve "file/delete" (deleteHandler fm) data d1
    = send (ProtocolError "file/delete" "TXT_CODE_file_locked_error") d1.
Proof.
  cbv zeta. split; [vm_compute; reflexivity|].
  destruct (lock_request_denies_later_requests
              (mkData (Some true) (Some "srv"%string) (Some (str "world/region"))
                 None None)
              (mkDaemon {[ "srv"%string := mkInstance "srv" (mkConfig None None) ]}
                 [] [] [])
              "srv" (mkInstance "srv" (mkConfig None None)) (str "world/region"))
    as (_ & _ & Hrej & _);
    [reflexivity | vm_compute; reflexivity | reflexivity |].
  eapply Hrej with
    (c := mkCheckConfig "file/delete" (λ data, default [] (d_targets data))
            (Some true) None)
    (Q := str "world").
  - vm_compute. reflexivity.
  - vm_compute. left.
  - discriminate.
  - vm_compute. intros H. inversion H.
  - vm_compute. reflexivity.
  - discriminate.
  - reflexivity.
  - cbn. right. left.
  - repeat constructor; discriminate.
  - right. right. split; [vm_compute; by eexists|]. split; [|discriminate].
    apply collectFolders_IndexIsClosure. vm_compute. reflexivity.
Defined.

(** The lock does not outlast a create request at the path: [file/mkdir]
    is not governed and its handler calls [removeLockForPath], after which
    a delete of the path by the same caller reaches its handler. *)
Example lock_then_mkdir_then_delete :
  let fm := mkFileManager (λ _ _, true) (λ _ _, true) (λ _ _, true) in
  let d := mkDaemon {[ "srv" := mkInstance "srv" (mkConfig None None) ]} [] [] [] in
  let d1 := lockHandler (mkData (Some true) (Some "srv") (Some (str "world")) None None) d in
  let d2 := serveMkdir fm (mkData (Some false) (Some "srv") (Some (str "world")) None None) d1 in
  let delete := mkData (Some false) (Some "srv") None (Some [str "world"]) None in
  lockStateOf d1 "srv" = Some ([str "world"], [])
  ∧ serveDelete fm delete d1
    = send (ProtocolError "file/delete" "TXT_CODE_file_locked_error") d1
  ∧ lockStateOf d2 "srv" = Some ([], [])
  ∧ serveDelete fm delete d2 = deleteHandler fm delete d2
  ∧ sent (serveDelete fm delete d2) = sent d2 ++ [ProtocolResponse].
Proof. cbv zeta. split_and!; vm_compute; reflexivity. Qed.
